(** * Stack-frame simulation engine of c-viz-internals

    A shallow embedding of [frontend/src/utils/stackSimulator.js] and of the
    clamping done by its caller ([StackVisualizer]), followed by the
    properties of the recursive execution trace it synthesises.

    Conventions of the embedding.

    - A JavaScript number that holds an integer is a [Z]; the not-a-number
      value is kept apart ([None] where a parse can fail, [NaN] for the
      [maxDepth] argument).  Doubles are exact on integers up to 2^53 in
      magnitude; where the code adds, subtracts or multiplies, the result
      is rounded as a double rounds it ([JS.roundToDouble]).  The infinite
      values, which the code reaches beyond 2^1024 only, are not part of
      the embedding.
    - A JavaScript string is a [string] read as a sequence of code units
      from 0 to 255; white space and letter case are those of that range.
    - An AST node is either [Null] (the JSON value null) or an object with a
      type tag, a name, a line and a list of children.  A missing or null
      [name] is the empty string (both are falsy and the code only tests
      truthiness before use); a missing [children] is the empty list (every
      use is guarded by [|| []] or [?.]).
    - Reading a property of null raises a TypeError: functions that can do
      so return a [result].  The limit an engine puts on the depth of its
      call stack is not part of the embedding.
    - [console.log] calls are write-only diagnostics and are left out. *)

From Equations Require Import Equations.
From Stdlib Require Import ZArith String Ascii List Bool Arith Lia DecimalString.
Import ListNotations.

#[local] Open Scope string_scope.
#[local] Open Scope list_scope.
#[local] Open Scope Z_scope.

(** ** Outcomes of code that can raise *)

Inductive result (A : Type) : Type :=
| Ok (a : A)
| TypeError.
Arguments Ok {A} a.
Arguments TypeError {A}.

Definition bind {A B : Type} (r : result A) (k : A -> result B) : result B :=
  match r with
  | Ok a => k a
  | TypeError => TypeError
  end.

Notation "x <- r ;; k" := (bind r (fun x => k))
  (at level 61, r at next level, right associativity).

(** ** JavaScript primitives used by the simulator *)

Module JS.

(** Truthiness of a string: only the empty string is falsy. *)
Definition truthy (s : string) : bool :=
  match s with
  | EmptyString => false
  | String _ _ => true
  end.

(** The white space and line terminators among the code units below 256:
    TAB, LF, VT, FF, CR, SPACE and NO-BREAK SPACE. *)
Definition isWhiteSpace (c : ascii) : bool :=
  let n := nat_of_ascii c in
  ((9 <=? n)%nat && (n <=? 13)%nat) || (n =? 32)%nat || (n =? 160)%nat.

Fixpoint trimStart (cs : list ascii) : list ascii :=
  match cs with
  | c :: cs' => if isWhiteSpace c then trimStart cs' else cs
  | [] => []
  end.

(** [String.prototype.trim]. *)
Definition trim (s : string) : string :=
  string_of_list_ascii
    (rev (trimStart (rev (trimStart (list_ascii_of_string s))))).

(** The upper-case letters below 256 are A to Z and U+00C0 to U+00DE
    without the multiplication sign U+00D7; each has its lower-case form 32
    places further on. *)
Definition lowerChar (c : ascii) : ascii :=
  let n := nat_of_ascii c in
  if ((65 <=? n)%nat && (n <=? 90)%nat)
     || ((192 <=? n)%nat && (n <=? 222)%nat && negb (n =? 215)%nat)
  then ascii_of_nat (n + 32)
  else c.

(** [String.prototype.toLowerCase]. *)
Fixpoint toLowerCase (s : string) : string :=
  match s with
  | EmptyString => EmptyString
  | String c s' => String (lowerChar c) (toLowerCase s')
  end.

(** [s.includes(sub)]. *)
Fixpoint includes (sub s : string) : bool :=
  if prefix sub s then true
  else match s with
       | EmptyString => false
       | String _ s' => includes sub s'
       end.

(** Value of a character as a digit, in radix up to 36. *)
Definition digitValue (c : ascii) : option Z :=
  let n := Z.of_nat (nat_of_ascii c) in
  if (48 <=? n) && (n <=? 57) then Some (n - 48)
  else if (97 <=? n) && (n <=? 122) then Some (n - 87)
  else if (65 <=? n) && (n <=? 90) then Some (n - 55)
  else None.

(** The longest prefix of radix-[radix] digits, read as a number; [acc] is
    the value read so far, [None] while no digit has been read. *)
Fixpoint parseDigits (radix : Z) (cs : list ascii) (acc : option Z) : option Z :=
  match cs with
  | [] => acc
  | c :: cs' =>
      match digitValue c with
      | Some d =>
          if d <? radix
          then parseDigits radix cs'
                 (Some (match acc with Some a => a * radix + d | None => d end))
          else acc
      | None => acc
      end
  end.

(** The double nearest to an integer: the integer itself below 2^53 in
    magnitude, and otherwise the nearest integer with 53 significant bits,
    the one with an even last bit when two are equally near. *)
Definition roundToDouble (z : Z) : Z :=
  let a := Z.abs z in
  if a <? 2 ^ 53 then z
  else
    let e := Z.log2 a - 52 in
    let q := Z.shiftr a e in
    let r := a - Z.shiftl q e in
    let half := Z.shiftl 1 (e - 1) in
    let q := if (half <? r) || ((r =? half) && Z.odd q) then q + 1 else q in
    Z.sgn z * Z.shiftl q e.

(** [parseInt(s)] without a radix argument; [None] is NaN.  The digits read
    give an integer, which the result holds as a double. *)
Definition parseInt (s : string) : option Z :=
  let cs := trimStart (list_ascii_of_string s) in
  let '(sign, cs) :=
    match cs with
    | "-"%char :: r => (-1, r)
    | "+"%char :: r => (1, r)
    | _ => (1, cs)
    end in
  let '(radix, cs) :=
    match cs with
    | "0"%char :: "x"%char :: r => (16, r)
    | "0"%char :: "X"%char :: r => (16, r)
    | _ => (10, cs)
    end in
  option_map (fun v => roundToDouble (sign * v)) (parseDigits radix cs None).

(** Number-to-string conversion of an integer, as in a template literal:
    all the digits, which is how an integer up to 2^53 in magnitude is
    written.  (A larger one is written with the fewest digits that read
    back as the same double, followed by zeros or, from 10^21 on, by an
    exponent; line numbers, and the arguments simulated from a depth of the
    contract, stay far below.) *)
Definition toString (z : Z) : string :=
  NilZero.string_of_int (Z.to_int z).

(** The first digit of a positive integer and the number of digits after
    it. *)
Definition leadingDigit (a : Z) : Z * Z :=
  match list_ascii_of_string (toString a) with
  | c :: rest =>
      (match digitValue c with Some d => d | None => 0 end,
       Z.of_nat (length rest))
  | [] => (0, 0)
  end.

(** [parseInt(z)] for a number [z] that holds an integer: the number is
    converted to a string first.  Below 10^21 in magnitude the string is a
    plain numeral that reads back as the same double, and the parse gives
    the number back.  From 10^21 on the string is in exponent form,
    [d.ddd...e+N] with the fewest digits that read back as the same double,
    and the parse stops after the first digit: that digit is the leading
    digit of the integer, unless the next round number, one digit followed
    by zeros, already reads back as the same double and is written
    instead. *)
Definition parseIntOfNumber (z : Z) : Z :=
  let a := Z.abs z in
  if a <? 10 ^ 21 then z
  else
    let '(d, n) := leadingDigit a in
    let d := if roundToDouble ((d + 1) * 10 ^ n) =? a
             then (if d =? 9 then 1 else d + 1)
             else d in
    Z.sgn z * d.

End JS.


(** ** Ordinary objects used as string-keyed tables

    [functions] in the source is an object literal filled by
    [functions[name] = record].  Its own properties are kept in creation
    order; enumeration ([Object.keys], [for ... in]) lists the array-index
    keys first, in ascending numeric order, and then the other keys in
    creation order. *)

Module Obj.

Definition t (V : Type) : Type := list (string * V).

Definition empty {V : Type} : t V := [].

(** [o[k]] for an own property. *)
Fixpoint get {V : Type} (k : string) (o : t V) : option V :=
  match o with
  | [] => None
  | (k', v) :: o' => if (k' =? k)%string then Some v else get k o'
  end.

Fixpoint assign {V : Type} (k : string) (v : V) (o : t V) : t V :=
  match o with
  | [] => [(k, v)]
  | (k', v') :: o' =>
      if (k' =? k)%string then (k', v) :: o' else (k', v') :: assign k v o'
  end.

(** [o[k] = v].  An existing property keeps its place.  Assigning to
    ["__proto__"] swaps the prototype and creates no property; the record
    assigned that way is reachable only through the inherited keys
    [name], [line], [params], [body] and [isRecursive], none of which holds
    a value with a truthy [isRecursive], so the simulator never selects
    it. *)
Definition set {V : Type} (k : string) (v : V) (o : t V) : t V :=
  if (k =? "__proto__")%string then o else assign k v o.

(** The array index a key denotes, if any: the key is the canonical
    decimal form of an integer below 2^32 - 1. *)
Definition arrayIndex (k : string) : option Z :=
  match JS.parseDigits 10 (list_ascii_of_string k) None with
  | Some n =>
      if (JS.toString n =? k)%string && (n <=? 4294967294) then Some n else None
  | None => None
  end.

Fixpoint insertIndex (n : Z) (k : string) (l : list (Z * string)) : list (Z * string) :=
  match l with
  | [] => [(n, k)]
  | (n', k') :: l' =>
      if n <? n' then (n, k) :: l else (n', k') :: insertIndex n k l'
  end.

Fixpoint indexKeys {V : Type} (o : t V) : list (Z * string) :=
  match o with
  | [] => []
  | (k, _) :: o' =>
      match arrayIndex k with
      | Some n => insertIndex n k (indexKeys o')
      | None => indexKeys o'
      end
  end.

Fixpoint nameKeys {V : Type} (o : t V) : list string :=
  match o with
  | [] => []
  | (k, _) :: o' =>
      match arrayIndex k with
      | Some _ => nameKeys o'
      | None => k :: nameKeys o'
      end
  end.

(** [Object.keys(o)], also the order of [for (k in o)]. *)
Definition keys {V : Type} (o : t V) : list string :=
  map snd (indexKeys o) ++ nameKeys o.

End Obj.

(** ** Data model *)

#[local] Set Warnings "-register-all".

(** A node of the AST delivered by the parser, or null.  The fields [id] and
    [column] are never read by the simulator and are left out. *)
Inductive ASTNode : Type :=
| Null
| Node (type name : string) (line : Z) (children : list ASTNode).

Module CallSite.
Record t : Type := mk { name : string; line : Z }.
End CallSite.

Module FunctionRecord.
(** [calls] is absent until [detectRecursiveFunctions] fills it in; it is
    not read before. *)
Record t : Type := mk {
  name : string;
  line : Z;
  params : list string;
  body : ASTNode;
  isRecursive : bool;
  calls : list CallSite.t
}.
End FunctionRecord.

Module StepRule.
Record t : Type := mk { operator : string; value : Z }.
End StepRule.

(** The value stored in a frame's [argValue]: a number in a simulated call,
    the empty string in the fallback frame of [main]. *)
Inductive ArgValue : Type :=
| ArgNumber (z : Z)
| ArgString (s : string).

Module Frame.
(** A field that an object literal of the source does not set is [None]. *)
Record t : Type := mk {
  name : string;
  line : Z;
  depth : Z;
  argName : option string;
  argValue : option ArgValue;
  returnValue : option Z;
  isBaseCase : option bool
}.
End Frame.

Inductive Action : Type := push | pop.

Module TraceEvent.
Record t : Type := mk {
  action : Action;
  frame : Frame.t;
  stack : list string;
  fullStack : list Frame.t;
  description : string;
  returnValue : option Z
}.
End TraceEvent.

(** The numeric argument [maxDepth]: a number that holds an integer, or NaN.
    (+Infinity behaves like NaN: no depth exceeds it and it parses to
    NaN.) *)
Inductive Num : Type :=
| Int (z : Z)
| NaN.

Definition Functions : Type := Obj.t FunctionRecord.t.

(** ** extractFunctions *)

(** The loop over the children of a function declaration that collects the
    parameter names; [child.type] raises on a null child. *)
Fixpoint collectParams (children : list ASTNode) (params : list string)
  : result (list string) :=
  match children with
  | [] => Ok params
  | Null :: _ => TypeError
  | Node type name _ _ :: rest =>
      collectParams rest
        (if (type =? "PARM_DECL")%string && JS.truthy name then params ++ [name] else params)
  end.

Fixpoint extractFunctions_traverse (node : ASTNode) (functions : Functions)
  : result Functions :=
  match node with
  | Null => Ok functions
  | Node type name line children =>
      functions <-
        (if (type =? "FUNCTION_DECL")%string && JS.truthy name
         then
           params <- collectParams children [] ;;
           Ok (Obj.set name
                 (FunctionRecord.mk name line params node false [])
                 functions)
         else Ok functions) ;;
      (fix each (cs : list ASTNode) (functions : Functions) : result Functions :=
         match cs with
         | [] => Ok functions
         | child :: cs' =>
             functions <- extractFunctions_traverse child functions ;;
             each cs' functions
         end) children functions
  end.

Definition extractFunctions (ast : ASTNode) : result Functions :=
  extractFunctions_traverse ast Obj.empty.

(** ** findCalleeFromFirstChild *)

Fixpoint searchForName (node : ASTNode) : option string :=
  match node with
  | Null => None
  | Node type name _ children =>
      if (type =? "DECL_REF_EXPR")%string && JS.truthy name then Some name
      else if JS.truthy name && JS.truthy (JS.trim name) then Some name
      else
        (fix each (cs : list ASTNode) : option string :=
           match cs with
           | [] => None
           | child :: cs' =>
               match searchForName child with
               | Some found => if JS.truthy found then Some found else each cs'
               | None => each cs'
               end
           end) children
  end.

Definition findCalleeFromFirstChild (callExprNode : ASTNode) : option string :=
  match callExprNode with
  | Null => None
  | Node _ _ _ [] => None
  | Node _ _ _ (firstChild :: _) => searchForName firstChild
  end.

(** ** findAllCalls *)

(** [funcNames.includes(calleeName)] and [seen.has(key)]. *)
Definition member (s : string) (l : list string) : bool :=
  existsb (String.eqb s) l.

(** The state of the traversal: the [calls] array and the [seen] set. *)
Definition CallsState : Type := (list CallSite.t * list string)%type.

Definition recordCall (funcNames : list string) (n : ASTNode) (line : Z)
  (st : CallsState) : CallsState :=
  match findCalleeFromFirstChild n with
  | Some calleeName =>
      if JS.truthy calleeName && member calleeName funcNames
      then
        let key := (calleeName ++ "-" ++ JS.toString line)%string in
        if member key (snd st) then st
        else (fst st ++ [CallSite.mk calleeName line], key :: snd st)
      else st
  | None => st
  end.

Fixpoint findAllCalls_traverse (funcNames : list string) (n : ASTNode)
  (st : CallsState) : CallsState :=
  match n with
  | Null => st
  | Node type _ line children =>
      let st := if (type =? "CALL_EXPR")%string then recordCall funcNames n line st else st in
      (fix each (cs : list ASTNode) (st : CallsState) : CallsState :=
         match cs with
         | [] => st
         | child :: cs' => each cs' (findAllCalls_traverse funcNames child st)
         end) children st
  end.

Definition findAllCalls (node : ASTNode) (funcNames : list string)
  : list CallSite.t :=
  fst (findAllCalls_traverse funcNames node ([], [])).

(** ** detectRecursiveFunctions *)

(** The body of the loop: the record of [funcName] gets its [isRecursive]
    and [calls]. *)
Definition markRecursive (funcNames : list string) (funcName : string)
  (func : FunctionRecord.t) : FunctionRecord.t :=
  let calls := findAllCalls (FunctionRecord.body func) funcNames in
  FunctionRecord.mk
    (FunctionRecord.name func) (FunctionRecord.line func)
    (FunctionRecord.params func) (FunctionRecord.body func)
    (existsb (fun c => (CallSite.name c =? funcName)%string) calls)
    calls.

(** Every record is updated in place, from its own body and the full list of
    keys, so the order in which the keys are visited does not show. *)
Definition detectRecursiveFunctions (functions : Functions) : Functions :=
  let funcNames := Obj.keys functions in
  map (fun entry => (fst entry, markRecursive funcNames (fst entry) (snd entry)))
    functions.

(** ** calculateReturn *)

(** [for (let i = lo; i <= hi; i++) s = body(i, s)], run for [n] rounds. *)
Fixpoint forRounds {S : Type} (n : nat) (i : Z) (body : Z -> S -> S) (s : S) : S :=
  match n with
  | O => s
  | S n' => forRounds n' (i + 1) body (body i s)
  end.

Definition forLoop {S : Type} (lo hi : Z) (body : Z -> S -> S) (s : S) : S :=
  forRounds (Z.to_nat (hi - lo + 1)) lo body s.

(** The two loops, on doubles: each sum and each product is rounded.  (The
    values stay below 2^1024, where the source would go on with Infinity,
    up to the Fibonacci number of index 1476 and the factorial of 170; the
    counter [i] is exact, and the loops of the source end, for every
    [value] below 2^53.) *)
Definition fibStep (_ : Z) (ab : Z * Z) : Z * Z :=
  (snd ab, JS.roundToDouble (fst ab + snd ab)).

Definition factStep (i result : Z) : Z :=
  JS.roundToDouble (result * i).

Definition calculateReturn (funcName : string) (value : Z) : Z :=
  let lower := JS.toLowerCase funcName in
  if JS.includes "fib" lower then
    if value <=? 1 then value
    else snd (forLoop 2 value fibStep (0, 1))
  else if JS.includes "factorial" lower || JS.includes "fact" lower then
    forLoop 2 value factStep 1
  else value.

(** ** detectRecursiveStep, extractOperator, extractOperand *)

Definition defaultStep : StepRule.t := StepRule.mk "-" 1.

Definition extractOperator (node : ASTNode) : string := "-".

Fixpoint extractOperand_loop (children : list ASTNode) : result Z :=
  match children with
  | [] => Ok 1
  | Null :: _ => TypeError
  | Node type name _ _ :: rest =>
      if (type =? "INTEGER_LITERAL")%string && JS.truthy name
      then match JS.parseInt name with
           | Some v => Ok v
           | None => extractOperand_loop rest
           end
      else extractOperand_loop rest
  end.

Definition extractOperand (node : ASTNode) : result Z :=
  match node with
  | Null => TypeError
  | Node _ _ _ children => extractOperand_loop children
  end.

(** [None] is the null returned for a call without a first argument.  The
    test [operand !== null] always passes: [extractOperand] returns a
    number. *)
Definition detectRecursiveStep (callNode : ASTNode) : result (option StepRule.t) :=
  match callNode with
  | Null => Ok None
  | Node _ _ _ children =>
      match children with
      | _ :: argNode :: _ =>
          match argNode with
          | Null => TypeError
          | Node argType _ _ _ =>
              if (argType =? "BINARY_OPERATOR")%string
              then
                let operator := extractOperator argNode in
                operand <- extractOperand argNode ;;
                if JS.truthy operator
                then Ok (Some (StepRule.mk operator operand))
                else Ok (Some defaultStep)
              else Ok (Some defaultStep)
          end
      | _ => Ok None
      end
  end.

(** ** simulateRecursion *)

(** The first key, in enumeration order, whose record is flagged. *)
Definition firstRecursive (functions : Functions) : option string :=
  find (fun funcName =>
          match Obj.get funcName functions with
          | Some func => FunctionRecord.isRecursive func
          | None => false
          end)
       (Obj.keys functions).

(** [callee === recursiveFunc]. *)
Definition calleeIs (recursiveFunc : string) (callee : option string) : bool :=
  match callee with
  | Some c => (c =? recursiveFunc)%string
  | None => false
  end.

(** The local [findCallNode]: it reads [node.type] without a null test. *)
Fixpoint findCallNode (recursiveFunc : string) (node : ASTNode)
  : result (option ASTNode) :=
  match node with
  | Null => TypeError
  | Node type _ _ children =>
      if (type =? "CALL_EXPR")%string
         && calleeIs recursiveFunc (findCalleeFromFirstChild node)
      then Ok (Some node)
      else
        (fix each (cs : list ASTNode) : result (option ASTNode) :=
           match cs with
           | [] => Ok None
           | child :: cs' =>
               found <- findCallNode recursiveFunc child ;;
               match found with
               | Some n => Ok (Some n)
               | None => each cs'
               end
           end) children
  end.

(** The step rule guessed from the first call of [recursiveFunc] to itself. *)
Definition inferStep (functions : Functions) (recursiveFunc : string)
  : result StepRule.t :=
  match Obj.get recursiveFunc functions with
  | None => TypeError
  | Some func =>
      callNode <- findCallNode recursiveFunc (FunctionRecord.body func) ;;
      match callNode with
      | Some callNode =>
          detected <- detectRecursiveStep callNode ;;
          match detected with
          | Some detected => Ok detected
          | None => Ok defaultStep
          end
      | None => Ok defaultStep
      end
  end.

(** [depth > maxDepth]; a comparison with NaN is false. *)
Definition exceeds (depth : Z) (maxDepth : Num) : bool :=
  match maxDepth with
  | Int d => d <? depth
  | NaN => false
  end.

(** The argument of the next simulated call, for [argValue > 1] (the call is
    not a base case).  Differences, sums and products are rounded as
    doubles.  [None] stands for the +Infinity of a division by zero, which
    the safety check replaces like any value that does not decrease; the
    floor of any other quotient is taken on the exact quotient, which is
    the same as on the rounded one for operands up to 2^53. *)
Definition nextArgument (stepInfo : StepRule.t) (argValue : Z) : Z :=
  let operator := StepRule.operator stepInfo in
  let value := StepRule.value stepInfo in
  let nextVal :=
    if (operator =? "-")%string then Some (JS.roundToDouble (argValue - value))
    else if (operator =? "+")%string
         then Some (JS.roundToDouble (argValue + value))
    else if (operator =? "/")%string
         then if value =? 0 then None else Some (argValue / value)
    else if (operator =? "*")%string
         then Some (JS.roundToDouble (argValue * value))
    else Some argValue in
  match nextVal with
  | Some nextVal =>
      if (argValue <=? nextVal) && negb (operator =? "+")%string
      then JS.roundToDouble (argValue - 1)
      else nextVal
  | None => JS.roundToDouble (argValue - 1)
  end.

(** How many more frames the safety break [stack.length > 20] lets in. *)
Definition room {A : Type} (stack : list A) : nat := 21 - length stack.

Definition inspect {A : Type} (a : A) : {b : A | a = b} := exist _ a eq_refl.

(** [func.params[0] || 'n']. *)
Definition firstParam (params : list string) : string :=
  match params with
  | param :: _ => if JS.truthy param then param else "n"
  | [] => "n"
  end.

Section simulateCall.

(** What the closure [simulateCall] captures from [simulateRecursion]. *)
Variable functions : Functions.
Variable stepInfo : StepRule.t.
Variable maxDepth : Num.

Definition newFrame (funcName : string) (func : FunctionRecord.t)
  (argValue depth : Z) : Frame.t :=
  Frame.mk funcName (FunctionRecord.line func) depth
    (Some (firstParam (FunctionRecord.params func)))
    (Some (ArgNumber argValue))
    (Some (calculateReturn funcName argValue))
    None.

Definition pushEvent (funcName : string) (argValue : Z) (frame : Frame.t)
  (newStack : list Frame.t) : TraceEvent.t :=
  TraceEvent.mk push frame (map Frame.name newStack) newStack
    (funcName ++ "(" ++ JS.toString argValue ++ ")")%string
    None.

Definition popEvent (funcName : string) (argValue : Z) (frame : Frame.t)
  (isBaseCase : bool) (stack : list Frame.t) : TraceEvent.t :=
  TraceEvent.mk pop
    (Frame.mk (Frame.name frame) (Frame.line frame) (Frame.depth frame)
       (Frame.argName frame) (Frame.argValue frame) (Frame.returnValue frame)
       (Some isBaseCase))
    (map Frame.name stack) stack
    ("return from " ++ funcName ++ "(" ++ JS.toString argValue ++ ")")%string
    (Frame.returnValue frame).

(** The events are appended to [trace], the array the closure shares. *)
Equations? simulateCall (funcName : string) (argValue depth : Z)
  (stack : list Frame.t) (trace : list TraceEvent.t)
  : list TraceEvent.t by wf (room stack) lt :=
  simulateCall funcName argValue depth stack trace
    with inspect (exceeds depth maxDepth || (20 <? length stack)%nat) := {
    | exist _ true _ => trace
    | exist _ false Hgo =>
        match Obj.get funcName functions with
        | None => trace
        | Some func =>
            let frame := newFrame funcName func argValue depth in
            let newStack := stack ++ [frame] in
            let isBaseCase := argValue <=? 1 in
            let pushed := trace ++ [pushEvent funcName argValue frame newStack] in
            (if FunctionRecord.isRecursive func && negb isBaseCase
             then simulateCall funcName (nextArgument stepInfo argValue)
                    (depth + 1) newStack pushed
             else pushed)
            ++ [popEvent funcName argValue frame isBaseCase stack]
        end }.
Proof.
  apply orb_false_elim in Hgo; destruct Hgo as [_ Hlen].
  apply Nat.ltb_ge in Hlen.
  subst newStack; unfold room; rewrite length_app, Nat.add_1_r.
  clear simulateCall. lia.
Qed.

End simulateCall.

Definition mainFallback (main : FunctionRecord.t) : list TraceEvent.t :=
  [ TraceEvent.mk push
      (Frame.mk "main" (FunctionRecord.line main) 0 None (Some (ArgString ""))
         None None)
      ["main"]
      [Frame.mk "main" (FunctionRecord.line main) 0 None None None None]
      "main()" None;
    TraceEvent.mk pop
      (Frame.mk "main" (FunctionRecord.line main) 0 None None None None)
      [] [] "return 0" (Some 0) ].

(** [parseInt(maxDepth)], with 5 in place of NaN. *)
Definition initialValue (maxDepth : Num) : Z :=
  match maxDepth with
  | Int z => JS.parseIntOfNumber z
  | NaN => 5
  end.

(** [maxDepth] is [None] when the argument is left out. *)
Definition simulateRecursion (ast : ASTNode) (maxDepth : option Num)
  : result (list TraceEvent.t) :=
  let maxDepth := match maxDepth with Some d => d | None => Int 5 end in
  match ast with
  | Null => Ok []
  | Node _ _ _ _ =>
      functions <- extractFunctions ast ;;
      let functions := detectRecursiveFunctions functions in
      match firstRecursive functions with
      | Some recursiveFunc =>
          stepInfo <- inferStep functions recursiveFunc ;;
          Ok (simulateCall functions stepInfo maxDepth
                recursiveFunc (initialValue maxDepth) 0 [] [])
      | None =>
          match Obj.get "main" functions with
          | Some main => Ok (mainFallback main)
          | None => Ok []
          end
      end
  end.

(** ** getRecursiveInfo *)

Module RecursiveInfo.
Record t : Type := mk { name : string; params : list string; line : Z }.
End RecursiveInfo.

Definition getRecursiveInfo (ast : ASTNode) : result (option RecursiveInfo.t) :=
  match ast with
  | Null => Ok None
  | Node _ _ _ _ =>
      functions <- extractFunctions ast ;;
      let functions := detectRecursiveFunctions functions in
      match firstRecursive functions with
      | Some funcName =>
          match Obj.get funcName functions with
          | Some func =>
              Ok (Some (RecursiveInfo.mk funcName
                          (FunctionRecord.params func) (FunctionRecord.line func)))
          | None => TypeError
          end
      | None => Ok None
      end
  end.

(** ** The caller: StackVisualizer *)

(** The component's [maxDepth] state: the empty string while the input field
    is blank, otherwise the integer that was typed. *)
Inductive DepthInput : Type :=
| Blank
| Typed (n : Z).

Definition clampDepth (maxDepth : DepthInput) : Z :=
  match maxDepth with
  | Blank => 1
  | Typed n => Z.min 20 (Z.max 1 n)
  end.

Definition StackVisualizer_steps (astData : ASTNode) (maxDepth : DepthInput)
  : result (list TraceEvent.t) :=
  match astData with
  | Null => Ok []
  | Node _ _ _ _ => simulateRecursion astData (Some (Int (clampDepth maxDepth)))
  end.

(** ** A sample input: the recursive factorial of the example gallery

<<
    int factorial(int n) {            // line 3
        if (n <= 1) {
            return 1;
        }
        return n * factorial(n - 1);  // line 7
    }
>> *)

Definition refTo (name : string) (line : Z) : ASTNode :=
  Node "UNEXPOSED_EXPR" name line [Node "DECL_REF_EXPR" name line []].

Definition factorialDecl : ASTNode :=
  Node "FUNCTION_DECL" "factorial" 3
    [ Node "PARM_DECL" "n" 3 [];
      Node "COMPOUND_STMT" "" 3
        [ Node "IF_STMT" "" 4
            [ Node "BINARY_OPERATOR" "" 4
                [refTo "n" 4; Node "INTEGER_LITERAL" "1" 4 []];
              Node "COMPOUND_STMT" "" 4
                [Node "RETURN_STMT" "" 5 [Node "INTEGER_LITERAL" "1" 5 []]] ];
          Node "RETURN_STMT" "" 7
            [ Node "BINARY_OPERATOR" "" 7
                [ refTo "n" 7;
                  Node "CALL_EXPR" "factorial" 7
                    [ refTo "factorial" 7;
                      Node "BINARY_OPERATOR" "" 7
                        [refTo "n" 7; Node "INTEGER_LITERAL" "1" 7 []] ] ] ] ] ].

Definition factorialAST : ASTNode :=
  Node "TRANSLATION_UNIT" "example.c" 0 [factorialDecl].

Definition mainDecl : ASTNode :=
  Node "FUNCTION_DECL" "main" 10
    [Node "COMPOUND_STMT" "" 10
       [Node "RETURN_STMT" "" 11 [Node "INTEGER_LITERAL" "0" 11 []]]].

(** A program with [main] only. *)
Definition mainOnlyAST : ASTNode :=
  Node "TRANSLATION_UNIT" "example.c" 0 [mainDecl].

(** A tree without any function declaration. *)
Definition noFunctionAST : ASTNode :=
  Node "TRANSLATION_UNIT" "example.c" 0 [Node "VAR_DECL" "x" 1 []].

(** A function declaration with a null entry in its children. *)
Definition nullChildAST : ASTNode :=
  Node "TRANSLATION_UNIT" "example.c" 0 [Node "FUNCTION_DECL" "f" 1 [Null]].

(** ** Notions used to state the properties *)

(** The loops over children, as functions of their own. *)
Fixpoint extractFunctions_each (cs : list ASTNode) (functions : Functions)
  : result Functions :=
  match cs with
  | [] => Ok functions
  | child :: cs' =>
      functions <- extractFunctions_traverse child functions ;;
      extractFunctions_each cs' functions
  end.

Fixpoint searchForName_each (cs : list ASTNode) : option string :=
  match cs with
  | [] => None
  | child :: cs' =>
      match searchForName child with
      | Some found => if JS.truthy found then Some found else searchForName_each cs'
      | None => searchForName_each cs'
      end
  end.

Fixpoint findAllCalls_each (funcNames : list string) (cs : list ASTNode)
  (st : CallsState) : CallsState :=
  match cs with
  | [] => st
  | child :: cs' =>
      findAllCalls_each funcNames cs' (findAllCalls_traverse funcNames child st)
  end.

Fixpoint findCallNode_each (recursiveFunc : string) (cs : list ASTNode)
  : result (option ASTNode) :=
  match cs with
  | [] => Ok None
  | child :: cs' =>
      found <- findCallNode recursiveFunc child ;;
      match found with
      | Some n => Ok (Some n)
      | None => findCallNode_each recursiveFunc cs'
      end
  end.

(** The nodes of a tree in depth-first order, parents before children. *)
Fixpoint subnodes (n : ASTNode) : list ASTNode :=
  match n with
  | Null => []
  | Node _ _ _ children => n :: flat_map subnodes children
  end.

(** No null anywhere: the shape the parser promises. *)
Fixpoint nullFree (n : ASTNode) : bool :=
  match n with
  | Null => false
  | Node _ _ _ children => forallb nullFree children
  end.

Definition nodeType (n : ASTNode) : string :=
  match n with
  | Null => ""
  | Node type _ _ _ => type
  end.

Definition nodeName (n : ASTNode) : string :=
  match n with
  | Null => ""
  | Node _ name _ _ => name
  end.

Definition nodeLine (n : ASTNode) : Z :=
  match n with
  | Null => 0
  | Node _ _ line _ => line
  end.

Definition nodeChildren (n : ASTNode) : list ASTNode :=
  match n with
  | Null => []
  | Node _ _ _ children => children
  end.

(** The table the simulator works on: extraction, then flagging. *)
Definition analyse (ast : ASTNode) : result Functions :=
  functions <- extractFunctions ast ;;
  Ok (detectRecursiveFunctions functions).

(** [ast] declares a function called [name]. *)
Definition declares (ast : ASTNode) (name : string) : Prop :=
  exists line children,
    In (Node "FUNCTION_DECL" name line children) (subnodes ast).

(** A blank name: nothing but white space (TAB, LF, VT, FF, CR, SPACE,
    NO-BREAK SPACE), the empty name included. *)
Definition isSpace (c : ascii) : bool :=
  existsb (Ascii.eqb c)
    ["009"%char; "010"%char; "011"%char; "012"%char; "013"%char; " "%char;
     "160"%char].

Definition blank (name : string) : bool :=
  forallb isSpace (list_ascii_of_string name).

(** A node that ends the search for a callee name: a declaration reference
    with a non-empty name, or any node whose name is not blank. *)
Definition answers (n : ASTNode) : bool :=
  ((nodeType n =? "DECL_REF_EXPR")%string
   && negb (nodeName n =? "")%string)
  || negb (blank (nodeName n)).

(** The rule as the specification words it: the name of a declaration
    reference found depth-first below the first child or, failing that, of
    any node there with a non-empty name. *)
Definition isNamedReference (n : ASTNode) : bool :=
  (nodeType n =? "DECL_REF_EXPR")%string && negb (nodeName n =? "")%string.

Definition hasName (n : ASTNode) : bool :=
  negb (nodeName n =? "")%string.

Definition specifiedCallee (callExprNode : ASTNode) : option string :=
  match nodeChildren callExprNode with
  | [] => None
  | firstChild :: _ =>
      match find isNamedReference (subnodes firstChild) with
      | Some n => Some (nodeName n)
      | None => option_map nodeName (find hasName (subnodes firstChild))
      end
  end.

(** A call through a member, [table.handler(n)]: the first child is the
    member reference, and the declaration reference of the object lies
    below it. *)
Definition memberCall : ASTNode :=
  Node "CALL_EXPR" "handler" 4
    [ Node "MEMBER_REF_EXPR" "handler" 4
        [Node "UNEXPOSED_EXPR" "table" 4 [Node "DECL_REF_EXPR" "table" 4 []]];
      refTo "n" 4 ].

(** The calls to [callee] below [body], in depth-first order. *)
Definition isCallTo (callee : string) (n : ASTNode) : bool :=
  (nodeType n =? "CALL_EXPR")%string
  && calleeIs callee (findCalleeFromFirstChild n).

Definition callSites (callee : string) (body : ASTNode) : list ASTNode :=
  filter (isCallTo callee) (subnodes body).

(** The literal operand of a binary-operator argument, as the specification
    words it: the value of the first integer-literal child whose name reads
    as an integer, 1 when there is none. *)
Definition isLiteralOperand (n : ASTNode) : bool :=
  (nodeType n =? "INTEGER_LITERAL")%string
  && match JS.parseInt (nodeName n) with Some _ => true | None => false end.

Definition literalOperand (argNode : ASTNode) : Z :=
  match find isLiteralOperand (nodeChildren argNode) with
  | Some literal =>
      match JS.parseInt (nodeName literal) with
      | Some v => v
      | None => 1
      end
  | None => 1
  end.

(** The step rule of a call site, as the specification words it. *)
Definition stepOfCall (callNode : ASTNode) : StepRule.t :=
  match nodeChildren callNode with
  | _ :: argNode :: _ =>
      if (nodeType argNode =? "BINARY_OPERATOR")%string
      then StepRule.mk "-" (literalOperand argNode)
      else StepRule.mk "-" 1
  | _ => StepRule.mk "-" 1
  end.

Definition countAction (a : Action) (trace : list TraceEvent.t) : nat :=
  length (filter (fun e => match TraceEvent.action e, a with
                           | push, push | pop, pop => true
                           | _, _ => false
                           end) trace).

(** Two snapshots of the same frame occurrence. *)
Definition sameFrame (f g : Frame.t) : Prop :=
  Frame.name f = Frame.name g /\ Frame.line f = Frame.line g
  /\ Frame.depth f = Frame.depth g /\ Frame.argName f = Frame.argName g
  /\ Frame.returnValue f = Frame.returnValue g.

(** A trace in which every push is closed by one later pop of the same
    frame, pairs being nested or disjoint. *)
Inductive Balanced : list TraceEvent.t -> Prop :=
| Balanced_nil : Balanced []
| Balanced_call (e1 e2 : TraceEvent.t) (inner rest : list TraceEvent.t) :
    TraceEvent.action e1 = push ->
    TraceEvent.action e2 = pop ->
    sameFrame (TraceEvent.frame e1) (TraceEvent.frame e2) ->
    Balanced inner ->
    Balanced rest ->
    Balanced (e1 :: inner ++ e2 :: rest).

(** The stack replayed from the events: a push opens its frame, a pop must
    close the innermost open frame.  [None] when a pop finds no frame to
    close or closes another one. *)
Definition frameKey (f : Frame.t) : string * Z * Z :=
  (Frame.name f, Frame.line f, Frame.depth f).

Definition frameKey_eqb (a b : string * Z * Z) : bool :=
  let '(n1, l1, d1) := a in
  let '(n2, l2, d2) := b in
  (n1 =? n2)%string && (l1 =? l2) && (d1 =? d2).

Fixpoint replay (trace : list TraceEvent.t) (open : list (string * Z * Z))
  : option (list (string * Z * Z)) :=
  match trace with
  | [] => Some open
  | e :: trace' =>
      match TraceEvent.action e with
      | push => replay trace' (frameKey (TraceEvent.frame e) :: open)
      | pop =>
          match open with
          | top :: open' =>
              if frameKey_eqb top (frameKey (TraceEvent.frame e))
              then replay trace' open'
              else None
          | [] => None
          end
      end
  end.

(** The frames an event carries: its own and those of the snapshot. *)
Definition eventFrames (e : TraceEvent.t) : list Frame.t :=
  TraceEvent.frame e :: TraceEvent.fullStack e.

(** The argument after the default has been filled in. *)
Definition effectiveDepth (maxDepth : option Num) : Num :=
  match maxDepth with
  | Some d => d
  | None => Int 5
  end.

(** [depth] is not beyond the bound; NaN bounds nothing. *)
Definition withinDepth (maxDepth : option Num) (depth : Z) : Prop :=
  match effectiveDepth maxDepth with
  | Int d => depth <= d
  | NaN => True
  end.

(** The Fibonacci numbers, from 0 and 1. *)
Fixpoint fibonacci (n : nat) : Z :=
  match n with
  | O => 0
  | S m =>
      match m with
      | O => 1
      | S k => fibonacci k + fibonacci m
      end
  end.

(** The product 1 * 2 * ... * n. *)
Fixpoint productTo (n : nat) : Z :=
  match n with
  | O => 1
  | S m => productTo m * Z.of_nat n
  end.

(** The summary of an event that the factorial scenario lists. *)
Definition summary (e : TraceEvent.t) : Action * option ArgValue * option Z :=
  (TraceEvent.action e, Frame.argValue (TraceEvent.frame e),
   TraceEvent.returnValue e).

(** The frame does not lie beyond the depth bound. *)
Definition depthOk (maxDepth : Num) (f : Frame.t) : Prop :=
  exceeds (Frame.depth f) maxDepth = false.

(** The descent of [simulateCall] as a relation between the arguments of a
    call and the events it appends: nothing when a safety bound or an unknown
    name stops it, otherwise a push, the events of the nested call if there
    is one, and a pop. *)
Inductive Descent (functions : Functions) (stepInfo : StepRule.t)
  (maxDepth : Num) (funcName : string)
  : Z -> Z -> list Frame.t -> list TraceEvent.t -> Prop :=
| Descent_halt (argValue depth : Z) (stack : list Frame.t) :
    exceeds depth maxDepth || (20 <? length stack)%nat = true ->
    Descent functions stepInfo maxDepth funcName argValue depth stack []
| Descent_unknown (argValue depth : Z) (stack : list Frame.t) :
    Obj.get funcName functions = None ->
    Descent functions stepInfo maxDepth funcName argValue depth stack []
| Descent_leaf (argValue depth : Z) (stack : list Frame.t)
    (func : FunctionRecord.t) :
    exceeds depth maxDepth || (20 <? length stack)%nat = false ->
    Obj.get funcName functions = Some func ->
    FunctionRecord.isRecursive func && negb (argValue <=? 1) = false ->
    Descent functions stepInfo maxDepth funcName argValue depth stack
      [ pushEvent funcName argValue (newFrame funcName func argValue depth)
          (stack ++ [newFrame funcName func argValue depth]);
        popEvent funcName argValue (newFrame funcName func argValue depth)
          (argValue <=? 1) stack ]
| Descent_call (argValue depth : Z) (stack : list Frame.t)
    (func : FunctionRecord.t) (inner : list TraceEvent.t) :
    exceeds depth maxDepth || (20 <? length stack)%nat = false ->
    Obj.get funcName functions = Some func ->
    FunctionRecord.isRecursive func && negb (argValue <=? 1) = true ->
    Descent functions stepInfo maxDepth funcName
      (nextArgument stepInfo argValue) (depth + 1)
      (stack ++ [newFrame funcName func argValue depth]) inner ->
    Descent functions stepInfo maxDepth funcName argValue depth stack
      (pushEvent funcName argValue (newFrame funcName func argValue depth)
         (stack ++ [newFrame funcName func argValue depth])
       :: inner
       ++ [popEvent funcName argValue (newFrame funcName func argValue depth)
             (argValue <=? 1) stack]).

(** What the table records under [key]: a named function declaration of the
    tree, with its line and the names of its parameter children. *)
Definition Declared (ast : ASTNode) (entry : string * FunctionRecord.t) : Prop :=
  exists children,
    FunctionRecord.body (snd entry)
    = Node "FUNCTION_DECL" (fst entry) (FunctionRecord.line (snd entry)) children
    /\ In (FunctionRecord.body (snd entry)) (subnodes ast)
    /\ FunctionRecord.name (snd entry) = fst entry
    /\ collectParams children [] = Ok (FunctionRecord.params (snd entry))
    /\ JS.truthy (fst entry) = true.

(** The factorial scenario: five nested pushes for 5, 4, 3, 2, 1, then the
    pops in reverse order, each with the value its call returns. *)
Definition factorialSummary : list (Action * option ArgValue * option Z) :=
  [ (push, Some (ArgNumber 5), None);
    (push, Some (ArgNumber 4), None);
    (push, Some (ArgNumber 3), None);
    (push, Some (ArgNumber 2), None);
    (push, Some (ArgNumber 1), None);
    (pop, Some (ArgNumber 1), Some 1);
    (pop, Some (ArgNumber 2), Some 2);
    (pop, Some (ArgNumber 3), Some 6);
    (pop, Some (ArgNumber 4), Some 24);
    (pop, Some (ArgNumber 5), Some 120) ].

Definition isPush (e : TraceEvent.t) : bool :=
  match TraceEvent.action e with
  | push => true
  | pop => false
  end.

Definition isPop (e : TraceEvent.t) : bool :=
  match TraceEvent.action e with
  | push => false
  | pop => true
  end.

(** [ast] declares a function [name] whose body holds a call that resolves
    to [name]. *)
Definition selfRecursive (ast : ASTNode) (name : string) : Prop :=
  exists line children,
    In (Node "FUNCTION_DECL" name line children) (subnodes ast)
    /\ callSites name (Node "FUNCTION_DECL" name line children) <> [].

(** A function whose argument is halved at each call:
<<
    int halve(int n) {               // line 1
        if (n <= 1) return 0;
        return 1 + halve(n / 2);     // line 3
    }
>> *)
Definition halveAST : ASTNode :=
  Node "TRANSLATION_UNIT" "example.c" 0
    [ Node "FUNCTION_DECL" "halve" 1
        [ Node "PARM_DECL" "n" 1 [];
          Node "COMPOUND_STMT" "" 1
            [ Node "IF_STMT" "" 2
                [ Node "BINARY_OPERATOR" "" 2
                    [refTo "n" 2; Node "INTEGER_LITERAL" "1" 2 []];
                  Node "RETURN_STMT" "" 2 [Node "INTEGER_LITERAL" "0" 2 []] ];
              Node "RETURN_STMT" "" 3
                [ Node "BINARY_OPERATOR" "" 3
                    [ Node "INTEGER_LITERAL" "1" 3 [];
                      Node "CALL_EXPR" "halve" 3
                        [ refTo "halve" 3;
                          Node "BINARY_OPERATOR" "" 3
                            [refTo "n" 3; Node "INTEGER_LITERAL" "2" 3 []] ] ] ] ] ] ].

(** The push at position [i] is closed by the pop at position [j]: the pop
    comes later, belongs to the same frame, and what lies between the two
    is balanced. *)
Definition closedAt (trace : list TraceEvent.t) (i j : nat) : Prop :=
  exists before e1 inner e2 after,
    trace = before ++ e1 :: inner ++ e2 :: after
    /\ length before = i
    /\ j = (i + 1 + length inner)%nat
    /\ TraceEvent.action e1 = push
    /\ TraceEvent.action e2 = pop
    /\ sameFrame (TraceEvent.frame e1) (TraceEvent.frame e2)
    /\ Balanced inner.

(** The three ways a run can end well: null input, a simulated descent, or
    the fallback (two events for [main], none without it). *)
Inductive Run (ast : ASTNode) (maxDepth : option Num)
  : list TraceEvent.t -> Prop :=
| Run_null :
    ast = Null -> Run ast maxDepth []
| Run_descent functions recursiveFunc stepInfo :
    ast <> Null ->
    analyse ast = Ok functions ->
    firstRecursive functions = Some recursiveFunc ->
    inferStep functions recursiveFunc = Ok stepInfo ->
    Run ast maxDepth
      (simulateCall functions stepInfo (effectiveDepth maxDepth) recursiveFunc
         (initialValue (effectiveDepth maxDepth)) 0 [] [])
| Run_main functions main :
    ast <> Null ->
    analyse ast = Ok functions ->
    firstRecursive functions = None ->
    Obj.get "main" functions = Some main ->
    Run ast maxDepth (mainFallback main)
| Run_empty functions :
    ast <> Null ->
    analyse ast = Ok functions ->
    firstRecursive functions = None ->
    Obj.get "main" functions = None ->
    Run ast maxDepth [].

(** The call site was resolved at a call expression below [body]. *)
Definition resolvedIn (body : ASTNode) (c : CallSite.t) : Prop :=
  exists n, In n (subnodes body) /\ isCallTo (CallSite.name c) n = true.

(** ** Notions used by the further properties *)

(** The names a function declaration hands to [params]: those of its
    parameter-declaration children that have one, in order. *)
Definition isParam (n : ASTNode) : bool :=
  (nodeType n =? "PARM_DECL")%string && JS.truthy (nodeName n).

Definition paramNames (children : list ASTNode) : list string :=
  map nodeName (filter isParam children).

(** A node that [extractFunctions] records, and the record it makes. *)
Definition isNamedDecl (n : ASTNode) : bool :=
  (nodeType n =? "FUNCTION_DECL")%string && JS.truthy (nodeName n).

Definition recordOf (n : ASTNode) : FunctionRecord.t :=
  FunctionRecord.mk (nodeName n) (nodeLine n) (paramNames (nodeChildren n))
    n false [].

(** The named function declarations of a tree, in depth-first order. *)
Definition declarations (ast : ASTNode) : list ASTNode :=
  filter isNamedDecl (subnodes ast).

Definition nameIs (k : string) (n : ASTNode) : bool :=
  (nodeName n =? k)%string.

(** The distinct entries of a list, each at the place of its first
    occurrence. *)
Definition firstSeen (names : list string) : list string :=
  fold_left (fun seen k => if member k seen then seen else seen ++ [k]) names [].

(** The names under which declarations become properties of the table. *)
Definition tableNames (ast : ASTNode) : list string :=
  firstSeen
    (filter (fun k => negb (k =? "__proto__")%string)
       (map nodeName (declarations ast))).

(** The string under which [findAllCalls] remembers a call. *)
Definition keyOf (c : CallSite.t) : string :=
  (CallSite.name c ++ "-" ++ JS.toString (CallSite.line c))%string.

(** A name without the character that separates name and line in a key. *)
Fixpoint noDash (s : string) : bool :=
  match s with
  | EmptyString => true
  | String c s' => negb (Ascii.eqb c "-"%char) && noDash s'
  end.

(** The numeric argument of a frame (0 for the fallback frame of [main],
    which has none). *)
Definition frameArg (f : Frame.t) : Z :=
  match Frame.argValue f with
  | Some (ArgNumber z) => z
  | _ => 0
  end.

(** [n; n - 1; ...; 1]. *)
Fixpoint countdown (n : nat) : list Z :=
  match n with
  | O => []
  | S m => Z.of_nat n :: countdown m
  end.

(** The trace of a complete descent from [start] by steps of 1, as far as
    [summary] shows it. *)
Definition completeDescent (funcName : string) (start : nat)
  : list (Action * option ArgValue * option Z) :=
  map (fun a => (push, Some (ArgNumber a), None)) (countdown start)
  ++ map (fun a => (pop, Some (ArgNumber a), Some (calculateReturn funcName a)))
       (rev (countdown start)).

(** ** The playback state of StackVisualizer

    The component keeps [currentStep], [isPlaying], [playSpeed] and
    [maxDepth]; every handler runs in the render whose state it closes
    over, so a handler is a function from that state to the next one.
    [steps] enters through its length. *)

Module Player.
Record t : Type := mk {
  currentStep : Z;
  isPlaying : bool;
  playSpeed : Z;
  maxDepth : DepthInput
}.
End Player.

Definition initialPlayer : Player.t := Player.mk 0 false 800 (Typed 5).

Definition setCurrentStep (step : Z) (s : Player.t) : Player.t :=
  Player.mk step (Player.isPlaying s) (Player.playSpeed s) (Player.maxDepth s).

Definition setIsPlaying (playing : bool) (s : Player.t) : Player.t :=
  Player.mk (Player.currentStep s) playing (Player.playSpeed s) (Player.maxDepth s).

Definition setPlaySpeed (speed : Z) (s : Player.t) : Player.t :=
  Player.mk (Player.currentStep s) (Player.isPlaying s) speed (Player.maxDepth s).

Definition setMaxDepth (maxDepth : DepthInput) (s : Player.t) : Player.t :=
  Player.mk (Player.currentStep s) (Player.isPlaying s) (Player.playSpeed s) maxDepth.

Definition handleStepForward (stepsLength : Z) (s : Player.t) : Player.t :=
  if Player.currentStep s <? stepsLength - 1
  then setCurrentStep (Player.currentStep s + 1) s
  else s.

Definition handleStepBack (s : Player.t) : Player.t :=
  if 0 <? Player.currentStep s
  then setCurrentStep (Player.currentStep s - 1) s
  else s.

Definition handleReset (s : Player.t) : Player.t :=
  setIsPlaying false (setCurrentStep 0 s).

Definition handlePlayPause (stepsLength : Z) (s : Player.t) : Player.t :=
  setIsPlaying (negb (Player.isPlaying s))
    (if stepsLength - 1 <=? Player.currentStep s then setCurrentStep 0 s else s).

(** The auto-play effect, which runs after every render in which the step
    index, the play flag, the number of steps or the speed has changed:
    playback stops when it is paused or has reached the last step;
    otherwise a timer is armed (and the one armed before is cleared). *)
Definition autoPlay (stepsLength : Z) (s : Player.t) : Player.t :=
  if negb (Player.isPlaying s) || (stepsLength - 1 <=? Player.currentStep s)
  then setIsPlaying false s
  else s.

(** The timer is pending exactly when the effect has left playback on. *)
Definition timerArmed (stepsLength : Z) (s : Player.t) : bool :=
  Player.isPlaying s && (Player.currentStep s <? stepsLength - 1).

(** The timer fires: [setCurrentStep(prev => prev + 1)]. *)
Definition timerFires (stepsLength : Z) (s : Player.t) : Player.t :=
  if timerArmed stepsLength s
  then setCurrentStep (Player.currentStep s + 1) s
  else s.

(** The effect that runs when [maxDepth] changes. *)
Definition resetOnDepthChange (s : Player.t) : Player.t :=
  setIsPlaying false (setCurrentStep 0 s).

(** The [onChange] handler of the start-value field, on the text typed. *)
Definition onChange (val : string) (s : Player.t) : Player.t :=
  if JS.truthy val
  then match JS.parseInt val with
       | Some num => setMaxDepth (Typed num) s
       | None => s
       end
  else setMaxDepth Blank s.

(** The [onBlur] handler: [parseInt] of the state is NaN for the empty
    string and the number itself otherwise. *)
Definition onBlur (s : Player.t) : Player.t :=
  let val := match Player.maxDepth s with Blank => None | Typed n => Some n end in
  let val := match val with
             | None => 1
             | Some v => if v <? 1 then 1 else v
             end in
  let val := if 20 <? val then 20 else val in
  setMaxDepth (Typed val) s.

(** What [currentState] evaluates to: the placeholder for an empty list of
    steps, an event, or undefined when the index falls outside the array. *)
Inductive Shown : Type :=
| Placeholder
| Event (e : TraceEvent.t)
| Undefined.

Definition currentState (steps : list TraceEvent.t) (currentStep : Z) : Shown :=
  match steps with
  | [] => Placeholder
  | _ :: _ =>
      let index := Z.min currentStep (Z.of_nat (length steps) - 1) in
      if index <? 0 then Undefined
      else match nth_error steps (Z.to_nat index) with
           | Some e => Event e
           | None => Undefined
           end
  end.

(** What can happen to the player, and the step of the component: the
    event meets the state as the auto-play effect has left it for the
    steps of the current render, and the effect runs again on the state
    the event leaves. *)
Inductive PlayerAction : Type :=
| StepForward
| StepBack
| Reset
| PlayPause
| TimerFires
| Speed (value : Z).

Definition playerStep (stepsLength : Z) (a : PlayerAction) (s : Player.t)
  : Player.t :=
  let s := autoPlay stepsLength s in
  autoPlay stepsLength
    match a with
    | StepForward => handleStepForward stepsLength s
    | StepBack => handleStepBack s
    | Reset => handleReset s
    | PlayPause => handlePlayPause stepsLength s
    | TimerFires => timerFires stepsLength s
    | Speed value => setPlaySpeed value s
    end.


(** The step of the traversal at a named declaration. *)
Definition setDecl (functions : Functions) (decl : ASTNode) : Functions :=
  Obj.set (nodeName decl) (recordOf decl) functions.

(** What holds of the [calls] array and the [seen] set all along the
    traversal of [findAllCalls] below [body]. *)
Definition CallsInv (funcNames : list string) (body : ASTNode) (st : CallsState)
  : Prop :=
  map keyOf (fst st) = rev (snd st)
  /\ NoDup (snd st)
  /\ Forall (fun c =>
               JS.truthy (CallSite.name c) = true
               /\ In (CallSite.name c) funcNames
               /\ exists n,
                    In n (subnodes body)
                    /\ isCallTo (CallSite.name c) n = true
                    /\ nodeLine n = CallSite.line c)
            (fst st).

(** A call expression that resolves to a known function. *)
Definition knownCall (funcNames : list string) (callee : string) (n : ASTNode)
  : Prop :=
  nodeType n = "CALL_EXPR"
  /\ findCalleeFromFirstChild n = Some callee
  /\ In callee funcNames.

(** [Object.is] on the values [maxDepth] takes: a state update to the same
    value starts no render and no effect. *)
Definition sameDepth (a b : DepthInput) : bool :=
  match a, b with
  | Blank, Blank => true
  | Typed m, Typed n => m =? n
  | _, _ => false
  end.

(** An event of the component together with the effects that follow it: an
    action of the player, on the steps of the current render, or an edit of
    the start-value field, after which the reset effect runs when [maxDepth]
    has changed. *)
Inductive UiEvent : Type :=
| Act (stepsLength : Z) (a : PlayerAction)
| Change (val : string)
| Blur.

Definition afterDepthEdit (before after : Player.t) : Player.t :=
  if sameDepth (Player.maxDepth before) (Player.maxDepth after)
  then after
  else resetOnDepthChange after.

Definition uiStep (s : Player.t) (ev : UiEvent) : Player.t :=
  match ev with
  | Act stepsLength a => playerStep stepsLength a s
  | Change val => afterDepthEdit s (onChange val s)
  | Blur => afterDepthEdit s (onBlur s)
  end.

(** The event is an edit of the field or an action on steps of the given
    length. *)
Definition onSteps (stepsLength : Z) (ev : UiEvent) : Prop :=
  match ev with
  | Act l _ => l = stepsLength
  | Change _ | Blur => True
  end.


(** The bound given as [maxDepth] is a double that holds its integer
    exactly: at most 2^53 in magnitude (or NaN). *)
Definition safeDepth (maxDepth : option Num) : Prop :=
  match effectiveDepth maxDepth with
  | Int d => Z.abs d <= 2 ^ 53
  | NaN => True
  end.

(** * Properties *)

(** Bring nested appends to the right-nested form. *)
Ltac reassociate :=
  repeat first [progress cbn [app] | rewrite <- app_assoc].


(** ** Induction on trees *)

Lemma ASTNode_induction (P : ASTNode -> Prop) :
  P Null ->
  (forall type name line children,
      Forall P children -> P (Node type name line children)) ->
  forall n, P n.
Proof.
  intros HNull HNode.
  fix IH 1.
  intros [|type name line children].
  - exact HNull.
  - apply HNode.
    induction children as [|c cs IHcs].
    + constructor.
    + constructor; [apply IH | exact IHcs].
Qed.

Lemma bind_Ok {A B : Type} (r : result A) (k : A -> result B) (b : B) :
  bind r k = Ok b -> exists a, r = Ok a /\ k a = Ok b.
Proof.
  destruct r as [a|]; simpl; intros H; [exists a; auto | discriminate].
Qed.

(** ** Numbers *)

(** Integers up to 2^53 in magnitude are doubles. *)
Lemma roundToDouble_exact z :
  Z.abs z <= 2 ^ 53 -> JS.roundToDouble z = z.
Proof.
  intros Hz. unfold JS.roundToDouble.
  destruct (Z.abs z <? 2 ^ 53) eqn:Hlt; [reflexivity|].
  apply Z.ltb_ge in Hlt.
  assert (E : z = 2 ^ 53 \/ z = - 2 ^ 53) by lia.
  destruct E as [-> | ->]; reflexivity.
Qed.

(** Rounding does not take a number below 2^53 that lies above it. *)
Lemma roundToDouble_large x : 2 ^ 53 <= x -> 2 ^ 53 <= JS.roundToDouble x.
Proof.
  intros Hx. unfold JS.roundToDouble.
  assert (Hpos : 0 < x) by lia.
  rewrite (Z.abs_eq x) by lia.
  destruct (x <? 2 ^ 53) eqn:Hlt; [apply Z.ltb_lt in Hlt; lia|].
  rewrite (Z.sgn_pos x) by lia. rewrite Z.mul_1_l.
  pose proof (Z.log2_spec x Hpos) as [Hlo _].
  assert (Hlog : 53 <= Z.log2 x).
  { apply Z.log2_le_pow2; lia. }
  set (e := Z.log2 x - 52) in *.
  assert (He : 1 <= e) by (unfold e; lia).
  rewrite !Z.shiftl_mul_pow2 by lia.
  rewrite Z.shiftr_div_pow2 by lia.
  assert (Hq : 2 ^ 52 <= x / 2 ^ e).
  { apply Z.div_le_lower_bound; [apply Z.pow_pos_nonneg; lia|].
    rewrite <- Z.pow_add_r by lia.
    replace (e + 52) with (Z.log2 x) by (unfold e; lia). exact Hlo. }
  assert (Hp : 2 <= 2 ^ e).
  { change 2 with (2 ^ 1) at 1. apply Z.pow_le_mono_r; lia. }
  match goal with
  | |- _ <= (if ?b then _ else _) * _ => destruct b
  end; nia.
Qed.

Lemma parseIntOfNumber_small z :
  Z.abs z < 10 ^ 21 -> JS.parseIntOfNumber z = z.
Proof.
  intros Hz. unfold JS.parseIntOfNumber.
  apply Z.ltb_lt in Hz. now rewrite Hz.
Qed.

(** ** The simulated descent *)

Section Descent_facts.

Variable functions : Functions.
Variable stepInfo : StepRule.t.
Variable maxDepth : Num.

Lemma simulateCall_eq funcName argValue depth stack trace :
  simulateCall functions stepInfo maxDepth funcName argValue depth stack trace =
  if exceeds depth maxDepth || (20 <? length stack)%nat then trace
  else match Obj.get funcName functions with
       | None => trace
       | Some func =>
           let frame := newFrame funcName func argValue depth in
           let pushed :=
             trace ++ [pushEvent funcName argValue frame (stack ++ [frame])] in
           (if FunctionRecord.isRecursive func && negb (argValue <=? 1)
            then simulateCall functions stepInfo maxDepth funcName
                   (nextArgument stepInfo argValue) (depth + 1)
                   (stack ++ [frame]) pushed
            else pushed)
           ++ [popEvent funcName argValue frame (argValue <=? 1) stack]
       end.
Proof.
  funelim (simulateCall functions stepInfo maxDepth funcName argValue depth
             stack trace).
  - rewrite e. reflexivity.
  - rewrite Hgo. reflexivity.
Qed.

Lemma room_grow (stack : list Frame.t) (frame : Frame.t) :
  (20 <? length stack)%nat = false ->
  (room (stack ++ [frame]) < room stack)%nat.
Proof.
  intros H. apply Nat.ltb_ge in H.
  unfold room. rewrite length_app, Nat.add_1_r. lia.
Qed.

(** The events of a call do not depend on what [trace] already holds. *)
Lemma simulateCall_app funcName argValue depth stack trace :
  simulateCall functions stepInfo maxDepth funcName argValue depth stack trace =
  trace
  ++ simulateCall functions stepInfo maxDepth funcName argValue depth stack [].
Proof.
  remember (room stack) as n eqn:Hn.
  revert argValue depth stack trace Hn.
  induction n as [n IH] using lt_wf_ind.
  intros argValue depth stack trace Hn.
  rewrite (simulateCall_eq funcName argValue depth stack trace).
  rewrite (simulateCall_eq funcName argValue depth stack []).
  destruct (exceeds depth maxDepth || (20 <? length stack)%nat) eqn:Hgo.
  - now rewrite app_nil_r.
  - destruct (Obj.get funcName functions) as [func|]; [|now rewrite app_nil_r].
    cbv zeta.
    apply orb_false_elim in Hgo. destruct Hgo as [_ Hlen].
    destruct (FunctionRecord.isRecursive func && negb (argValue <=? 1)).
    + rewrite (IH (room (stack ++ [newFrame funcName func argValue depth])));
        [| subst n; now apply room_grow | reflexivity].
      rewrite (IH (room (stack ++ [newFrame funcName func argValue depth]))
                 ltac:(subst n; now apply room_grow) _ _ _ ([] ++ _) eq_refl).
      simpl. now rewrite <- !app_assoc.
    + simpl. now rewrite <- app_assoc.
Qed.

(** [simulateCall] always returns, and what it appends is a descent. *)
Lemma simulateCall_Descent funcName argValue depth stack :
  Descent functions stepInfo maxDepth funcName argValue depth stack
    (simulateCall functions stepInfo maxDepth funcName argValue depth stack []).
Proof.
  remember (room stack) as n eqn:Hn.
  revert argValue depth stack Hn.
  induction n as [n IH] using lt_wf_ind.
  intros argValue depth stack Hn.
  rewrite simulateCall_eq.
  destruct (exceeds depth maxDepth || (20 <? length stack)%nat) eqn:Hgo.
  - now apply Descent_halt.
  - destruct (Obj.get funcName functions) as [func|] eqn:Hget;
      [|now apply Descent_unknown].
    cbv zeta.
    destruct (FunctionRecord.isRecursive func && negb (argValue <=? 1)) eqn:Hrec.
    + rewrite simulateCall_app. simpl.
      apply Descent_call; auto.
      apply orb_false_elim in Hgo. destruct Hgo as [_ Hlen].
      apply (IH (room (stack ++ [newFrame funcName func argValue depth])));
        [subst n; now apply room_grow | reflexivity].
    + simpl. now apply Descent_leaf.
Qed.

End Descent_facts.

(** ** Balanced traces *)

Lemma countAction_app a t1 t2 :
  countAction a (t1 ++ t2) = (countAction a t1 + countAction a t2)%nat.
Proof.
  unfold countAction. now rewrite filter_app, length_app.
Qed.

Lemma countAction_cons a e t :
  countAction a (e :: t) = (countAction a [e] + countAction a t)%nat.
Proof.
  apply (countAction_app a [e] t).
Qed.

Lemma countAction_push_one e :
  TraceEvent.action e = push ->
  countAction push [e] = 1%nat /\ countAction pop [e] = 0%nat.
Proof.
  unfold countAction; simpl; intros ->; auto.
Qed.

Lemma countAction_pop_one e :
  TraceEvent.action e = pop ->
  countAction push [e] = 0%nat /\ countAction pop [e] = 1%nat.
Proof.
  unfold countAction; simpl; intros ->; auto.
Qed.

Lemma Balanced_count trace :
  Balanced trace -> countAction pop trace = countAction push trace.
Proof.
  induction 1 as [|e1 e2 inner rest H1 H2 _ _ IHi _ IHr]; [reflexivity|].
  rewrite (countAction_cons pop), (countAction_cons push), !countAction_app.
  rewrite (countAction_cons pop e2), (countAction_cons push e2).
  destruct (countAction_push_one e1 H1) as [-> ->].
  destruct (countAction_pop_one e2 H2) as [-> ->].
  lia.
Qed.

(** In a balanced trace no prefix has popped more than it has pushed. *)
Lemma Balanced_prefix trace :
  Balanced trace ->
  forall pre post, trace = pre ++ post ->
    (countAction pop pre <= countAction push pre)%nat.
Proof.
  induction 1 as [|e1 e2 inner rest H1 H2 _ Hi IHi _ IHr]; intros pre post E.
  - symmetry in E. apply app_eq_nil in E. destruct E as [-> _]. auto.
  - destruct pre as [|e pre]; [auto|].
    simpl in E. injection E as <- E.
    rewrite (countAction_cons pop), (countAction_cons push).
    destruct (countAction_push_one e1 H1) as [-> ->].
    apply app_eq_app in E. destruct E as [m [[E1 E2]|[E1 E2]]].
    + (* the prefix ends inside [inner] *)
      specialize (IHi pre m E1). lia.
    + (* the prefix runs past [inner] *)
      destruct m as [|e m].
      * rewrite app_nil_r in E1. subst pre.
        rewrite (Balanced_count inner Hi). lia.
      * simpl in E2. injection E2 as <- E2.
        subst pre. rewrite !countAction_app.
        rewrite (countAction_cons pop e2), (countAction_cons push e2).
        destruct (countAction_pop_one e2 H2) as [-> ->].
        rewrite (Balanced_count inner Hi).
        specialize (IHr m post E2). lia.
Qed.

Lemma Balanced_firstn trace n :
  Balanced trace ->
  (countAction pop (firstn n trace) <= countAction push (firstn n trace))%nat.
Proof.
  intros H. apply (Balanced_prefix trace H _ (skipn n trace)).
  symmetry. apply firstn_skipn.
Qed.

Lemma app_same_length {A : Type} (l1 l1' l2 l2' : list A) :
  length l1 = length l1' -> l1 ++ l2 = l1' ++ l2' -> l1 = l1' /\ l2 = l2'.
Proof.
  revert l1'. induction l1 as [|a l1 IH]; intros [|a' l1'] Hl E;
    try discriminate.
  - auto.
  - injection E as <- E. injection Hl as Hl.
    destruct (IH l1' Hl E) as [<- <-]. auto.
Qed.

(** Every push of a balanced trace is closed by a later pop. *)
Lemma Balanced_closedAt trace :
  Balanced trace ->
  forall i e,
    nth_error trace i = Some e -> TraceEvent.action e = push ->
    exists j, closedAt trace i j.
Proof.
  induction 1 as [|e1 e2 inner rest H1 H2 Hs Hi IHi Hr IHr]; intros i e He Hp.
  - destruct i; discriminate.
  - destruct i as [|i].
    + injection He as <-.
      exists (0 + 1 + length inner)%nat.
      exists [], e1, inner, e2, rest.
      split; [reflexivity|]. split; [reflexivity|]. split; [reflexivity|].
      auto.
    + cbn [nth_error] in He.
      destruct (Nat.lt_ge_cases i (length inner)) as [Hlt|Hge].
      * rewrite nth_error_app1 in He by assumption.
        destruct (IHi i e He Hp)
          as (j & before & a & inn & b & after & E & Hl & Hj & Ha & Hb & Hab & Hinn).
        exists (S j).
        exists (e1 :: before), a, inn, b, (after ++ e2 :: rest).
        split; [|split; [|split; [|auto]]].
        -- rewrite E. now reassociate.
        -- cbn [length]. now rewrite Hl.
        -- lia.
      * rewrite nth_error_app2 in He by assumption.
        destruct (i - length inner)%nat as [|k] eqn:Hk.
        -- cbn [nth_error] in He. injection He as <-. congruence.
        -- cbn [nth_error] in He.
           destruct (IHr k e He Hp)
             as (j & before & a & inn & b & after & E & Hl & Hj & Ha & Hb & Hab & Hinn).
           exists (S (length inner) + 1 + j)%nat.
           exists (e1 :: inner ++ e2 :: before), a, inn, b, after.
           split; [|split; [|split; [|auto]]].
           ++ rewrite E. now reassociate.
           ++ cbn [length]. rewrite length_app. cbn [length]. lia.
           ++ lia.
Qed.

(** A push has one closing pop only: a second candidate further on would
    leave, in the balanced stretch before it, a prefix with one pop too
    many. *)
Lemma closedAt_unique trace i j1 j2 :
  closedAt trace i j1 -> closedAt trace i j2 -> j1 = j2.
Proof.
  assert (Hlt : forall j1 j2,
             closedAt trace i j1 -> closedAt trace i j2 -> ~ (j1 < j2)%nat).
  { clear j1 j2. intros j1 j2
      (before1 & a1 & inn1 & b1 & after1 & E1 & Hl1 & Hj1 & _ & Hb1 & _ & Hinn1)
      (before2 & a2 & inn2 & b2 & after2 & E2 & Hl2 & Hj2 & _ & _ & _ & Hinn2)
      Hlt.
    assert (Hsplit : before1 = before2
                     /\ a1 :: inn1 ++ b1 :: after1 = a2 :: inn2 ++ b2 :: after2).
    { apply app_same_length; congruence. }
    destruct Hsplit as [_ Hrest]. injection Hrest as _ Hrest.
    apply app_eq_app in Hrest. destruct Hrest as (m & [[Ea Eb]|[Ea Eb]]).
    - (* [inn1] would be the longer one *)
      assert (length inn1 = (length inn2 + length m)%nat)
        by (rewrite Ea; apply length_app).
      lia.
    - destruct m as [|e m].
      + rewrite app_nil_r in Ea. subst inn2. lia.
      + cbn [app] in Eb. injection Eb as <- _.
        pose proof (Balanced_prefix inn2 Hinn2 (inn1 ++ [b1]) m) as Hpre.
        rewrite <- app_assoc in Hpre. specialize (Hpre Ea).
        rewrite !countAction_app in Hpre.
        destruct (countAction_pop_one b1 Hb1) as [Hz Ho].
        rewrite Hz, Ho, (Balanced_count inn1 Hinn1) in Hpre. lia. }
  intros H1 H2.
  destruct (Nat.lt_trichotomy j1 j2) as [H|[H|H]]; [|exact H|].
  - destruct (Hlt j1 j2 H1 H2 H).
  - destruct (Hlt j2 j1 H2 H1 H).
Qed.

Lemma frameKey_eqb_refl k : frameKey_eqb k k = true.
Proof.
  destruct k as [[n l] d]. unfold frameKey_eqb.
  now rewrite String.eqb_refl, !Z.eqb_refl.
Qed.

Lemma sameFrame_key f g : sameFrame f g -> frameKey f = frameKey g.
Proof.
  intros (Hn & Hl & Hd & _). unfold frameKey. now rewrite Hn, Hl, Hd.
Qed.

(** Replaying a balanced trace closes every frame it opens and touches none
    that was open before. *)
Lemma Balanced_replay trace :
  Balanced trace ->
  forall rest open, replay (trace ++ rest) open = replay rest open.
Proof.
  induction 1 as [|e1 e2 inner more H1 H2 Hs _ IHi _ IHr]; intros rest open.
  - reflexivity.
  - cbn [app replay]. rewrite H1. rewrite <- app_assoc. rewrite IHi.
    cbn [app replay]. rewrite H2.
    rewrite (sameFrame_key _ _ Hs), frameKey_eqb_refl.
    apply IHr.
Qed.

Lemma Balanced_replay_nil trace :
  Balanced trace -> replay trace [] = Some [].
Proof.
  intros H. rewrite <- (app_nil_r trace). now rewrite Balanced_replay.
Qed.

Lemma Balanced_mainFallback main : Balanced (mainFallback main).
Proof.
  apply (Balanced_call _ _ [] []);
    [reflexivity | reflexivity | repeat split | constructor | constructor].
Qed.

Lemma sameFrame_push_pop funcName argValue frame stack newStack base :
  sameFrame
    (TraceEvent.frame (pushEvent funcName argValue frame newStack))
    (TraceEvent.frame (popEvent funcName argValue frame base stack)).
Proof.
  repeat split.
Qed.

Lemma Descent_Balanced functions stepInfo maxDepth funcName argValue depth stack events :
  Descent functions stepInfo maxDepth funcName argValue depth stack events ->
  Balanced events.
Proof.
  induction 1 as [| | a d st func Hgo Hget Hrec
                 | a d st func inner Hgo Hget Hrec _ IH].
  - constructor.
  - constructor.
  - apply (Balanced_call _ _ [] []);
      [reflexivity | reflexivity | apply sameFrame_push_pop
      | constructor | constructor].
  - apply (Balanced_call _ _ inner []);
      [reflexivity | reflexivity | apply sameFrame_push_pop
      | exact IH | constructor].
Qed.

(** The stack snapshot of an event is as high as the events so far say:
    the frames on the stack when the descent started, plus the pushes, minus
    the pops, the event itself included. *)
Lemma Descent_height functions stepInfo maxDepth funcName argValue depth stack events :
  Descent functions stepInfo maxDepth funcName argValue depth stack events ->
  forall before e after,
    events = before ++ e :: after ->
    (length (TraceEvent.stack e) + countAction pop (before ++ [e])
     = length stack + countAction push (before ++ [e]))%nat.
Proof.
  induction 1 as [| | a d st func Hgo Hget Hrec
                 | a d st func inner Hgo Hget Hrec HD IH];
    intros before e after E.
  - destruct before; discriminate.
  - destruct before; discriminate.
  - destruct before as [|x [|y before]]; cbn [app] in E.
    + injection E as <- _. cbn. rewrite length_map, length_app. cbn. lia.
    + injection E as <- <- _. cbn. rewrite length_map. lia.
    + injection E as _ _ E. destruct before; discriminate.
  - pose proof (Descent_Balanced _ _ _ _ _ _ _ _ HD) as Hbal.
    assert (Hlast :
              (length (TraceEvent.stack
                         (popEvent funcName a (newFrame funcName func a d)
                            (a <=? 1)%Z st))
               + countAction pop
                   ((pushEvent funcName a (newFrame funcName func a d)
                       (st ++ [newFrame funcName func a d]) :: inner)
                    ++ [popEvent funcName a (newFrame funcName func a d)
                          (a <=? 1)%Z st])
               = length st
                 + countAction push
                     ((pushEvent funcName a (newFrame funcName func a d)
                         (st ++ [newFrame funcName func a d]) :: inner)
                      ++ [popEvent funcName a (newFrame funcName func a d)
                            (a <=? 1)%Z st]))%nat).
    { rewrite !countAction_app, (countAction_cons pop), (countAction_cons push).
      rewrite (Balanced_count inner Hbal). cbn. rewrite length_map. lia. }
    destruct before as [|x before]; cbn [app] in E.
    + injection E as <- _. cbn. rewrite length_map, length_app. cbn. lia.
    + injection E as <- E.
      apply app_eq_app in E. destruct E as (m & [[Ea Eb]|[Ea Eb]]).
      * destruct m as [|e' m]; cbn [app] in Eb.
        -- injection Eb as -> _. rewrite app_nil_r in Ea. subst before.
           exact Hlast.
        -- injection Eb as <- _.
           specialize (IH before e m Ea).
           rewrite length_app in IH. cbn [length] in IH.
           cbn [app]. rewrite (countAction_cons pop), (countAction_cons push).
           cbn [countAction filter TraceEvent.action pushEvent length].
           lia.
      * destruct m as [|x m]; cbn [app] in Eb.
        -- injection Eb as <- _. rewrite app_nil_r in Ea. subst before.
           exact Hlast.
        -- injection Eb as _ Eb. destruct m; discriminate.
Qed.

Lemma mainFallback_height main before e after :
  mainFallback main = before ++ e :: after ->
  (length (TraceEvent.stack e) + countAction pop (before ++ [e])
   = countAction push (before ++ [e]))%nat.
Proof.
  intros E. unfold mainFallback in E.
  destruct before as [|x [|y before]]; cbn [app] in E.
  - injection E as <- _. reflexivity.
  - injection E as <- <- _. reflexivity.
  - injection E as _ _ E. destruct before; discriminate.
Qed.

(** ** Bounds on the frames of a descent *)

Lemma Descent_depth functions stepInfo maxDepth funcName argValue depth stack events :
  Descent functions stepInfo maxDepth funcName argValue depth stack events ->
  Forall (depthOk maxDepth) stack ->
  forall e f, In e events -> In f (eventFrames e) -> depthOk maxDepth f.
Proof.
  induction 1 as [| | a d st func Hgo Hget Hrec
                 | a d st func inner Hgo Hget Hrec HD IH];
    intros Hstack e f He Hf.
  - destruct He.
  - destruct He.
  - apply orb_false_elim in Hgo. destruct Hgo as [Hd _].
    rewrite Forall_forall in Hstack.
    destruct He as [<-|[<-|[]]]; simpl in Hf.
    + destruct Hf as [<-|Hf]; [exact Hd|].
      apply in_app_or in Hf. destruct Hf as [Hf|[<-|[]]]; auto.
    + destruct Hf as [<-|Hf]; [exact Hd | auto].
  - apply orb_false_elim in Hgo. destruct Hgo as [Hd _].
    assert (Hnew : Forall (depthOk maxDepth)
                     (st ++ [newFrame funcName func a d])).
    { apply Forall_app; split; [assumption|]. constructor; [exact Hd|constructor]. }
    rewrite Forall_forall in Hstack.
    destruct He as [<-|He]; simpl in Hf.
    + destruct Hf as [<-|Hf]; [exact Hd|].
      apply in_app_or in Hf. destruct Hf as [Hf|[<-|[]]]; auto.
    + apply in_app_or in He. destruct He as [He|[<-|[]]].
      * apply (IH Hnew e f He Hf).
      * simpl in Hf. destruct Hf as [<-|Hf]; [exact Hd | auto].
Qed.

(** No snapshot holds more than 21 frames: a call that finds more than 20
    frames on the stack appends nothing. *)
Lemma Descent_snapshot functions stepInfo maxDepth funcName argValue depth stack events :
  Descent functions stepInfo maxDepth funcName argValue depth stack events ->
  forall e, In e events -> (length (TraceEvent.fullStack e) <= 21)%nat.
Proof.
  induction 1 as [| | a d st func Hgo Hget Hrec
                 | a d st func inner Hgo Hget Hrec HD IH];
    intros e He; try (now destruct He).
  - apply orb_false_elim in Hgo. destruct Hgo as [_ Hlen].
    apply Nat.ltb_ge in Hlen.
    destruct He as [<-|[<-|[]]]; simpl;
      [rewrite length_app; simpl; lia | lia].
  - apply orb_false_elim in Hgo. destruct Hgo as [_ Hlen].
    apply Nat.ltb_ge in Hlen.
    destruct He as [<-|He]; [simpl; rewrite length_app; simpl; lia|].
    apply in_app_or in He. destruct He as [He|[<-|[]]]; [auto | simpl; lia].
Qed.

(** A descent that is let in starts by pushing its own frame. *)
Lemma Descent_first functions stepInfo maxDepth funcName argValue depth stack events :
  Descent functions stepInfo maxDepth funcName argValue depth stack events ->
  exceeds depth maxDepth || (20 <? length stack)%nat = false ->
  forall func, Obj.get funcName functions = Some func ->
  exists rest,
    events =
    pushEvent funcName argValue (newFrame funcName func argValue depth)
      (stack ++ [newFrame funcName func argValue depth]) :: rest.
Proof.
  intros HD Hgo func Hget.
  inversion HD; subst; try congruence.
  - replace func0 with func in * by congruence. eauto.
  - replace func0 with func in * by congruence. eauto.
Qed.

Lemma Descent_halted functions stepInfo maxDepth funcName argValue depth stack events :
  Descent functions stepInfo maxDepth funcName argValue depth stack events ->
  exceeds depth maxDepth || (20 <? length stack)%nat = true ->
  events = [].
Proof.
  intros HD Hgo. inversion HD; subst; congruence.
Qed.

(** ** The shape of a run of [simulateRecursion] *)

Lemma firstRecursive_get functions funcName :
  firstRecursive functions = Some funcName ->
  exists func,
    Obj.get funcName functions = Some func
    /\ FunctionRecord.isRecursive func = true.
Proof.
  unfold firstRecursive. intros H.
  apply find_some in H. destruct H as [_ H].
  destruct (Obj.get funcName functions) as [func|]; [eauto | discriminate].
Qed.

Lemma simulateRecursion_Run ast maxDepth trace :
  simulateRecursion ast maxDepth = Ok trace -> Run ast maxDepth trace.
Proof.
  unfold simulateRecursion.
  destruct ast as [|type name line children].
  - intros [= <-]. now apply Run_null.
  - intros H. apply bind_Ok in H. destruct H as (fs & Hfs & H).
    assert (Han : analyse (Node type name line children)
                  = Ok (detectRecursiveFunctions fs))
      by (unfold analyse; now rewrite Hfs).
    destruct (firstRecursive (detectRecursiveFunctions fs)) as [rf|] eqn:Hrf.
    + apply bind_Ok in H. destruct H as (step & Hstep & [= <-]).
      eapply Run_descent; eauto. discriminate.
    + destruct (Obj.get "main" (detectRecursiveFunctions fs)) as [main|] eqn:Hm.
      * injection H as <-. eapply Run_main; eauto. discriminate.
      * injection H as <-. eapply Run_empty; eauto. discriminate.
Qed.

Lemma Run_simulateRecursion ast maxDepth trace :
  Run ast maxDepth trace -> simulateRecursion ast maxDepth = Ok trace.
Proof.
  unfold simulateRecursion, analyse.
  intros [->|fs rf step Hn Han Hrf Hstep|fs main Hn Han Hrf Hm|fs Hn Han Hrf Hm];
    [reflexivity | | |];
    (destruct ast; [congruence|]);
    apply bind_Ok in Han; destruct Han as (fs0 & -> & [= <-]); simpl;
    rewrite Hrf.
  - now rewrite Hstep.
  - now rewrite Hm.
  - now rewrite Hm.
Qed.

Lemma Run_Balanced ast maxDepth trace :
  Run ast maxDepth trace -> Balanced trace.
Proof.
  intros [?|fs rf step _ _ _ _|fs main _ _ _ _|fs _ _ _ _].
  - constructor.
  - eapply Descent_Balanced, simulateCall_Descent.
  - apply Balanced_mainFallback.
  - constructor.
Qed.

Lemma Run_height ast maxDepth trace :
  Run ast maxDepth trace ->
  forall before e after,
    trace = before ++ e :: after ->
    (length (TraceEvent.stack e) + countAction pop (before ++ [e])
     = countAction push (before ++ [e]))%nat.
Proof.
  intros [?|fs rf step _ _ _ _|fs main _ _ _ _|fs _ _ _ _] before e after E.
  - destruct before; discriminate.
  - apply (Descent_height _ _ _ _ _ _ _ _
             (simulateCall_Descent fs step _ rf _ 0 []) before e after E).
  - eapply mainFallback_height; eauto.
  - destruct before; discriminate.
Qed.

(** C1. Whatever the AST and whatever [maxDepth], the trace that
    [simulateRecursion] returns is balanced.  It has as many pops as pushes.
    Every push is closed by exactly one later pop of the same frame
    occurrence: the pairs are properly nested ([Balanced]), each push has
    one and only one position that closes it ([closedAt]), and replaying the
    events on a stack closes the innermost open frame at each pop and ends
    with the empty stack.  The simulated stack depth never goes below zero:
    no prefix of the trace pops more than it has pushed, and the stack
    snapshot of each event is exactly as high as the pushes so far exceed
    the pops. *)
Theorem simulateRecursion_balanced
  (ast : ASTNode) (maxDepth : option Num) (trace : list TraceEvent.t) :
  simulateRecursion ast maxDepth = Ok trace ->
  countAction pop trace = countAction push trace
  /\ Balanced trace
  /\ (forall i e,
        nth_error trace i = Some e -> TraceEvent.action e = push ->
        exists j, closedAt trace i j /\ forall j', closedAt trace i j' -> j' = j)
  /\ replay trace [] = Some []
  /\ (forall n,
        (countAction pop (firstn n trace) <= countAction push (firstn n trace))%nat)
  /\ (forall before e after,
        trace = before ++ e :: after ->
        (length (TraceEvent.stack e) + countAction pop (before ++ [e])
         = countAction push (before ++ [e]))%nat).
Proof.
  intros H. apply simulateRecursion_Run in H.
  pose proof (Run_Balanced _ _ _ H) as HB.
  split; [now apply Balanced_count|].
  split; [assumption|].
  split.
  { intros i e He Hp.
    destruct (Balanced_closedAt trace HB i e He Hp) as (j & Hj).
    exists j. split; [exact Hj|].
    intros j' Hj'. exact (closedAt_unique trace i j' j Hj' Hj). }
  split; [now apply Balanced_replay_nil|].
  split; [intros n; now apply Balanced_firstn|].
  exact (Run_height ast maxDepth trace H).
Qed.

Lemma simulateRecursion_balanced_witness :
  exists trace,
    simulateRecursion factorialAST (Some (Int 4)) = Ok trace
    /\ length trace = 8%nat
    /\ Balanced trace.
Proof.
  eexists. split; [vm_compute; reflexivity|]. split; [reflexivity|].
  refine (proj1 (proj2
            (simulateRecursion_balanced factorialAST (Some (Int 4)) _ _))).
  vm_compute. reflexivity.
Defined.

(** ** The depth bound and the stack-size bound *)

Lemma depthOk_withinDepth maxDepth f :
  depthOk (effectiveDepth maxDepth) f -> withinDepth maxDepth (Frame.depth f).
Proof.
  unfold depthOk, withinDepth, exceeds.
  destruct (effectiveDepth maxDepth) as [d|]; [|trivial].
  intros H. now apply Z.ltb_ge in H.
Qed.

Lemma mainFallback_depth main e f :
  In e (mainFallback main) -> In f (eventFrames e) -> Frame.depth f = 0.
Proof.
  intros [<-|[<-|[]]]; simpl; intros [<-|H]; try reflexivity.
  - destruct H as [<-|[]]. reflexivity.
  - destruct H.
Qed.

Lemma mainFallback_snapshot main e :
  In e (mainFallback main) -> (length (TraceEvent.fullStack e) <= 21)%nat.
Proof.
  intros [<-|[<-|[]]]; simpl; lia.
Qed.

(** The safety break: a call that finds more than 20 frames on the stack
    returns at once and leaves the trace as it is. *)
Lemma simulateCall_stack_guard functions stepInfo maxDepth funcName argValue depth
  stack trace :
  (20 < length stack)%nat ->
  simulateCall functions stepInfo maxDepth funcName argValue depth stack trace
  = trace.
Proof.
  intros H. rewrite simulateCall_eq.
  apply Nat.ltb_lt in H. rewrite H. now rewrite orb_true_r.
Qed.

(** The depth bound: a call beyond [maxDepth] returns at once as well. *)
Lemma simulateCall_depth_guard functions stepInfo maxDepth funcName argValue depth
  stack trace :
  exceeds depth maxDepth = true ->
  simulateCall functions stepInfo maxDepth funcName argValue depth stack trace
  = trace.
Proof.
  intros H. rewrite simulateCall_eq. now rewrite H.
Qed.

(** C2. For every AST and every bound [maxDepth = d] that 0 does not
    exceed (every [d >= 0], which covers the integers from 1 to 20 that a
    bound is by contract, and NaN), no frame carried by an event of the
    trace, its own frame or one of the stack snapshot, has a depth beyond
    [d].  (Whatever the bound, a frame has a depth within it or is the
    depth-0 frame of the fallback for [main].)  Independently, a simulated
    call that finds more than 20 frames on the stack returns at once
    without adding an event, so that no snapshot holds more than 21 frames;
    and the trace is balanced all the same. *)
Theorem simulateRecursion_bounds
  (ast : ASTNode) (maxDepth : option Num) (trace : list TraceEvent.t) :
  simulateRecursion ast maxDepth = Ok trace ->
  (forall e f, In e trace -> In f (eventFrames e) ->
     withinDepth maxDepth (Frame.depth f) \/ Frame.depth f = 0)
  /\ (withinDepth maxDepth 0 ->
      forall e f, In e trace -> In f (eventFrames e) ->
        withinDepth maxDepth (Frame.depth f))
  /\ (forall functions stepInfo bound funcName argValue depth stack events,
        (20 < length stack)%nat ->
        simulateCall functions stepInfo bound funcName argValue depth stack events
        = events)
  /\ (forall e, In e trace -> (length (TraceEvent.fullStack e) <= 21)%nat)
  /\ Balanced trace
  /\ countAction pop trace = countAction push trace.
Proof.
  intros H. apply simulateRecursion_Run in H.
  pose proof (Run_Balanced _ _ _ H) as HB.
  assert (Hdepth : forall e f, In e trace -> In f (eventFrames e) ->
            withinDepth maxDepth (Frame.depth f) \/ Frame.depth f = 0).
  { destruct H as [?|fs rf step _ _ _ _|fs main _ _ _ _|fs _ _ _ _];
      intros e f He Hf.
    - destruct He.
    - left. apply depthOk_withinDepth.
      eapply Descent_depth; eauto using simulateCall_Descent.
    - right. eapply mainFallback_depth; eauto.
    - destruct He. }
  split; [exact Hdepth|].
  split; [|split; [|split; [|split]]].
  - intros H0 e f He Hf.
    destruct (Hdepth e f He Hf) as [Hw| ->]; assumption.
  - intros. now apply simulateCall_stack_guard.
  - destruct H as [?|fs rf step _ _ _ _|fs main _ _ _ _|fs _ _ _ _];
      intros e He.
    + destruct He.
    + eapply Descent_snapshot; eauto using simulateCall_Descent.
    + eapply mainFallback_snapshot; eauto.
    + destruct He.
  - exact HB.
  - now apply Balanced_count.
Qed.

Lemma simulateRecursion_bounds_witness :
  exists trace,
    simulateRecursion factorialAST (Some (Int 30)) = Ok trace
    /\ length trace = 42%nat
    /\ (forall e f, In e trace -> In f (eventFrames e) ->
          withinDepth (Some (Int 30)) (Frame.depth f))
    /\ Balanced trace.
Proof.
  eexists. split; [vm_compute; reflexivity|]. split; [reflexivity|].
  refine ((fun H =>
             conj (proj1 (proj2 H) _)
               (proj1 (proj2 (proj2 (proj2 (proj2 H))))))
            (simulateRecursion_bounds factorialAST (Some (Int 30)) _ _)).
  - unfold withinDepth. cbn. lia.
  - vm_compute. reflexivity.
Defined.

(** Below the bounds of the contract: with [maxDepth = -1] a program made
    of [main] alone still yields the frame of [main], at depth 0, because
    the fallback does not look at the bound. *)
Example fallback_under_negative_bound :
  exists trace e f,
    simulateRecursion mainOnlyAST (Some (Int (-1))) = Ok trace
    /\ In e trace /\ In f (eventFrames e)
    /\ ~ withinDepth (Some (Int (-1))) (Frame.depth f).
Proof.
  eexists. eexists. eexists.
  split; [vm_compute; reflexivity|].
  split; [left; reflexivity|].
  split; [left; reflexivity|].
  unfold withinDepth. simpl. lia.
Qed.

(** ** The traversals, one level at a time *)

Lemma extractFunctions_traverse_Node type name line children functions :
  extractFunctions_traverse (Node type name line children) functions =
  (functions <-
     (if (type =? "FUNCTION_DECL")%string && JS.truthy name
      then
        params <- collectParams children [] ;;
        Ok (Obj.set name
              (FunctionRecord.mk name line params
                 (Node type name line children) false [])
              functions)
      else Ok functions) ;;
   extractFunctions_each children functions).
Proof. reflexivity. Qed.

Lemma searchForName_Node type name line children :
  searchForName (Node type name line children) =
  if (type =? "DECL_REF_EXPR")%string && JS.truthy name then Some name
  else if JS.truthy name && JS.truthy (JS.trim name) then Some name
  else searchForName_each children.
Proof. reflexivity. Qed.

Lemma findAllCalls_traverse_Node funcNames type name line children st :
  findAllCalls_traverse funcNames (Node type name line children) st =
  findAllCalls_each funcNames children
    (if (type =? "CALL_EXPR")%string
     then recordCall funcNames (Node type name line children) line st
     else st).
Proof.
  cbn [findAllCalls_traverse].
  generalize (if (type =? "CALL_EXPR")%string
              then recordCall funcNames (Node type name line children) line st
              else st).
  induction children as [|c cs IH]; intros st'; [reflexivity|].
  cbn [findAllCalls_each]. apply IH.
Qed.

Lemma findCallNode_Node recursiveFunc type name line children :
  findCallNode recursiveFunc (Node type name line children) =
  if isCallTo recursiveFunc (Node type name line children)
  then Ok (Some (Node type name line children))
  else findCallNode_each recursiveFunc children.
Proof.
  cbn [findCallNode]. unfold isCallTo. cbn [nodeType].
  destruct ((type =? "CALL_EXPR")%string
            && calleeIs recursiveFunc
                 (findCalleeFromFirstChild (Node type name line children)));
    [reflexivity|].
  induction children as [|c cs IH]; [reflexivity|].
  cbn [findCallNode_each]. now rewrite IH.
Qed.

Lemma subnodes_child type name line children child :
  In child children ->
  incl (subnodes child) (subnodes (Node type name line children)).
Proof.
  intros Hc n Hn. cbn [subnodes]. right.
  apply in_flat_map. eauto.
Qed.

Lemma subnodes_trans n m :
  In m (subnodes n) -> incl (subnodes m) (subnodes n).
Proof.
  revert m. induction n as [|type name line children IH] using ASTNode_induction;
    intros m Hm; [destruct Hm|].
  cbn [subnodes] in Hm. destruct Hm as [<-|Hm]; [apply incl_refl|].
  apply in_flat_map in Hm. destruct Hm as (c & Hc & Hm).
  rewrite Forall_forall in IH.
  eapply incl_tran; [apply (IH c Hc m Hm)|].
  now apply subnodes_child.
Qed.

Lemma subnodes_self type name line children :
  In (Node type name line children) (subnodes (Node type name line children)).
Proof. now left. Qed.

(** ** The table of functions *)

Lemma get_In {V : Type} (k : string) (o : Obj.t V) (v : V) :
  Obj.get k o = Some v -> In (k, v) o.
Proof.
  induction o as [|[k' v'] o IH]; simpl; [discriminate|].
  destruct (String.eqb_spec k' k) as [->|_].
  - intros [= ->]. now left.
  - intros H. right. auto.
Qed.

Lemma In_assign {V : Type} (k : string) (v : V) (o : Obj.t V) entry :
  In entry (Obj.assign k v o) -> entry = (k, v) \/ In entry o.
Proof.
  induction o as [|[k' v'] o IH]; simpl.
  - intros [<-|[]]. now left.
  - destruct (String.eqb_spec k' k) as [->|_]; simpl.
    + intros [<-|H]; auto.
    + intros [<-|H]; auto. destruct (IH H); auto.
Qed.

Lemma In_set {V : Type} (k : string) (v : V) (o : Obj.t V) entry :
  In entry (Obj.set k v o) -> entry = (k, v) \/ In entry o.
Proof.
  unfold Obj.set. destruct (k =? "__proto__")%string; [auto|apply In_assign].
Qed.

Lemma get_assign_same {V : Type} (k : string) (v : V) (o : Obj.t V) :
  Obj.get k (Obj.assign k v o) = Some v.
Proof.
  induction o as [|[k' v'] o IH]; simpl.
  - now rewrite String.eqb_refl.
  - destruct (String.eqb_spec k' k) as [->|Hne]; simpl.
    + now rewrite String.eqb_refl.
    + apply String.eqb_neq in Hne. now rewrite Hne.
Qed.

Lemma get_assign_other {V : Type} (k k' : string) (v : V) (o : Obj.t V) :
  k <> k' -> Obj.get k' (Obj.assign k v o) = Obj.get k' o.
Proof.
  intros Hne. induction o as [|[k0 v0] o IH]; simpl.
  - apply String.eqb_neq in Hne. now rewrite Hne.
  - destruct (String.eqb_spec k0 k) as [->|Hne0]; simpl.
    + apply String.eqb_neq in Hne. now rewrite Hne.
    + now rewrite IH.
Qed.

(** A property stays once assigned: later assignments replace records but
    never remove a key. *)
Lemma get_set_keeps {V : Type} (k k' : string) (v : V) (o : Obj.t V) :
  Obj.get k' o <> None -> Obj.get k' (Obj.set k v o) <> None.
Proof.
  unfold Obj.set. destruct (k =? "__proto__")%string; [auto|].
  destruct (String.eqb_spec k k') as [->|Hne].
  - now rewrite get_assign_same.
  - now rewrite get_assign_other.
Qed.

Lemma get_set_new {V : Type} (k : string) (v : V) (o : Obj.t V) :
  k <> "__proto__" -> Obj.get k (Obj.set k v o) = Some v.
Proof.
  intros Hne. unfold Obj.set. apply String.eqb_neq in Hne. rewrite Hne.
  apply get_assign_same.
Qed.

Section Extraction.

Variable ast : ASTNode.

Lemma extractFunctions_traverse_Declared node :
  incl (subnodes node) (subnodes ast) ->
  forall functions functions',
    extractFunctions_traverse node functions = Ok functions' ->
    Forall (Declared ast) functions -> Forall (Declared ast) functions'.
Proof.
  induction node as [|type name line children IH] using ASTNode_induction;
    intros Hsub functions functions' H HF.
  - injection H as <-. exact HF.
  - rewrite extractFunctions_traverse_Node in H.
    apply bind_Ok in H. destruct H as (fs1 & H1 & H).
    assert (HF1 : Forall (Declared ast) fs1).
    { destruct ((type =? "FUNCTION_DECL")%string && JS.truthy name) eqn:Hdecl.
      - apply bind_Ok in H1. destruct H1 as (params & Hp & [= <-]).
        apply andb_prop in Hdecl. destruct Hdecl as [Ht Hn].
        apply String.eqb_eq in Ht. subst type.
        rewrite Forall_forall in *. intros entry He.
        apply In_set in He. destruct He as [->|He]; [|auto].
        exists children. simpl. repeat split; auto.
        apply Hsub, subnodes_self.
      - injection H1 as <-. exact HF. }
    clear H1 HF.
    assert (Hcs : forall c, In c children -> incl (subnodes c) (subnodes ast)).
    { intros c Hc. eapply incl_tran; [|exact Hsub].
      now apply subnodes_child. }
    clear Hsub. revert fs1 H HF1.
    induction children as [|c cs IHcs]; intros fs1 H HF1.
    + injection H as <-. exact HF1.
    + cbn [extractFunctions_each] in H.
      apply bind_Ok in H. destruct H as (fs2 & H2 & H).
      inversion IH as [|? ? IHc IHrest]; subst.
      apply (IHcs IHrest (fun c' Hc' => Hcs c' (or_intror Hc')) fs2 H).
      apply (IHc (Hcs c (or_introl eq_refl)) fs1 fs2 H2 HF1).
Qed.

Lemma extractFunctions_Declared functions :
  extractFunctions ast = Ok functions -> Forall (Declared ast) functions.
Proof.
  intros H.
  apply (extractFunctions_traverse_Declared ast (incl_refl _) Obj.empty functions H).
  constructor.
Qed.

End Extraction.

Lemma get_detectRecursiveFunctions functions k :
  Obj.get k (detectRecursiveFunctions functions)
  = option_map (markRecursive (Obj.keys functions) k) (Obj.get k functions).
Proof.
  unfold detectRecursiveFunctions.
  generalize (Obj.keys functions) as names. intros names.
  induction functions as [|[k' v] o IH]; simpl; [reflexivity|].
  destruct (String.eqb_spec k' k) as [->|_]; [reflexivity | exact IH].
Qed.

Lemma Declared_detectRecursiveFunctions ast functions :
  Forall (Declared ast) functions ->
  Forall (Declared ast) (detectRecursiveFunctions functions).
Proof.
  unfold detectRecursiveFunctions. intros H.
  apply Forall_map. revert H. apply Forall_impl.
  intros [k func] (children & Hb & Hin & Hn & Hp & Ht).
  exists children. simpl in *. auto.
Qed.

(** Every record of the analysed table comes from a declaration of the
    tree. *)
Lemma analyse_Declared ast functions k func :
  analyse ast = Ok functions ->
  Obj.get k functions = Some func ->
  Declared ast (k, func).
Proof.
  unfold analyse. intros H Hget.
  apply bind_Ok in H. destruct H as (fs & Hfs & [= <-]).
  apply extractFunctions_Declared, Declared_detectRecursiveFunctions in Hfs.
  rewrite Forall_forall in Hfs. now apply Hfs, get_In.
Qed.

(** Conversely every named declaration reaches the table, apart from the
    name that assignment treats specially. *)
Lemma extractFunctions_traverse_complete node :
  forall functions functions',
    extractFunctions_traverse node functions = Ok functions' ->
    (forall k, Obj.get k functions <> None -> Obj.get k functions' <> None)
    /\ (forall k line children,
          In (Node "FUNCTION_DECL" k line children) (subnodes node) ->
          JS.truthy k = true -> k <> "__proto__" ->
          Obj.get k functions' <> None).
Proof.
  induction node as [|type name line children IH] using ASTNode_induction;
    intros functions functions' H.
  - injection H as <-. split; [auto|]. intros k l cs [].
  - rewrite extractFunctions_traverse_Node in H.
    apply bind_Ok in H. destruct H as (fs1 & H1 & H).
    assert (Hkeep1 : forall k, Obj.get k functions <> None -> Obj.get k fs1 <> None).
    { destruct ((type =? "FUNCTION_DECL")%string && JS.truthy name).
      - apply bind_Ok in H1. destruct H1 as (params & _ & [= <-]).
        intros k. apply get_set_keeps.
      - injection H1 as <-. auto. }
    assert (Hself : forall k l cs,
               Node "FUNCTION_DECL" k l cs = Node type name line children ->
               JS.truthy k = true -> k <> "__proto__" ->
               Obj.get k fs1 <> None).
    { intros k l cs [= <- <- <- <-] Ht Hp. simpl in H1. rewrite Ht in H1.
      simpl in H1.
      apply bind_Ok in H1. destruct H1 as (params & _ & [= <-]).
      now rewrite get_set_new. }
    clear H1.
    assert (Heach : (forall k, Obj.get k fs1 <> None -> Obj.get k functions' <> None)
                    /\ (forall k l cs,
                          In (Node "FUNCTION_DECL" k l cs) (flat_map subnodes children) ->
                          JS.truthy k = true -> k <> "__proto__" ->
                          Obj.get k functions' <> None)).
    { clear Hkeep1 Hself. revert fs1 H.
      induction children as [|c cs IHcs]; intros fs1 H.
      - injection H as <-. split; [auto|]. intros k l cs [].
      - cbn [extractFunctions_each] in H.
        apply bind_Ok in H. destruct H as (fs2 & H2 & H).
        inversion IH as [|? ? IHc IHrest]; subst.
        destruct (IHc fs1 fs2 H2) as [Hk2 Hd2].
        destruct (IHcs IHrest fs2 H) as [Hk3 Hd3].
        split; [auto|].
        intros k l cs' Hin Ht Hp. cbn [flat_map] in Hin.
        apply in_app_or in Hin. destruct Hin as [Hin|Hin]; eauto. }
    destruct Heach as [Hk Hd]. split; [auto|].
    intros k l cs Hin Ht Hp. cbn [subnodes] in Hin.
    destruct Hin as [Heq|Hin]; eauto.
Qed.

Lemma analyse_declares ast functions k :
  analyse ast = Ok functions ->
  declares ast k -> JS.truthy k = true -> k <> "__proto__" ->
  Obj.get k functions <> None.
Proof.
  unfold analyse. intros H (line & children & Hin) Ht Hp.
  apply bind_Ok in H. destruct H as (fs & Hfs & [= <-]).
  rewrite get_detectRecursiveFunctions.
  destruct (extractFunctions_traverse_complete ast Obj.empty fs Hfs) as [_ Hd].
  specialize (Hd k line children Hin Ht Hp).
  destruct (Obj.get k fs); [discriminate | congruence].
Qed.

Lemma analyse_get_declares ast functions k func :
  analyse ast = Ok functions ->
  Obj.get k functions = Some func ->
  exists children,
    In (Node "FUNCTION_DECL" k (FunctionRecord.line func) children) (subnodes ast).
Proof.
  intros H Hget.
  destruct (analyse_Declared ast functions k func H Hget)
    as (children & Hb & Hin & _).
  simpl in *. exists children. now rewrite <- Hb.
Qed.

(** ** Trees without null *)

Lemma nullFree_children type name line children :
  nullFree (Node type name line children) = true ->
  forall c, In c children -> nullFree c = true.
Proof.
  cbn [nullFree]. intros H. now apply forallb_forall.
Qed.

Lemma nullFree_subnodes n :
  nullFree n = true -> forall m, In m (subnodes n) -> nullFree m = true.
Proof.
  induction n as [|type name line children IH] using ASTNode_induction;
    intros Hn m Hm; [destruct Hm|].
  cbn [subnodes] in Hm. destruct Hm as [<-|Hm]; [exact Hn|].
  apply in_flat_map in Hm. destruct Hm as (c & Hc & Hm).
  rewrite Forall_forall in IH.
  apply (IH c Hc); [|exact Hm].
  eapply nullFree_children; eauto.
Qed.

Lemma collectParams_total children :
  (forall c, In c children -> nullFree c = true) ->
  forall params, exists params', collectParams children params = Ok params'.
Proof.
  induction children as [|c cs IH]; intros Hcs params; simpl; [eauto|].
  destruct c as [|type name line children'].
  - specialize (Hcs Null (or_introl eq_refl)). discriminate.
  - apply IH. intros c Hc. apply Hcs. now right.
Qed.

Lemma extractFunctions_traverse_total node :
  nullFree node = true ->
  forall functions, exists functions',
    extractFunctions_traverse node functions = Ok functions'.
Proof.
  induction node as [|type name line children IH] using ASTNode_induction;
    intros Hn functions; [discriminate|].
  rewrite extractFunctions_traverse_Node.
  pose proof (nullFree_children _ _ _ _ Hn) as Hcs.
  assert (H1 : exists fs1,
             (if (type =? "FUNCTION_DECL")%string && JS.truthy name
              then
                params <- collectParams children [] ;;
                Ok (Obj.set name
                      (FunctionRecord.mk name line params
                         (Node type name line children) false [])
                      functions)
              else Ok functions) = Ok fs1).
  { destruct ((type =? "FUNCTION_DECL")%string && JS.truthy name); [|eauto].
    destruct (collectParams_total children Hcs []) as (params & ->).
    simpl. eauto. }
  destruct H1 as (fs1 & ->). simpl.
  clear Hn. revert fs1.
  induction children as [|c cs IHcs]; intros fs1; simpl; [eauto|].
  inversion IH as [|? ? IHc IHrest]; subst.
  destruct (IHc (Hcs c (or_introl eq_refl)) fs1) as (fs2 & ->). simpl.
  apply (IHcs IHrest). intros c' Hc'. apply Hcs. now right.
Qed.

(** ** The first recursive call site *)

Lemma findCallNode_first recursiveFunc node :
  forall found,
    findCallNode recursiveFunc node = Ok found ->
    found = hd_error (callSites recursiveFunc node).
Proof.
  unfold callSites.
  induction node as [|type name line children IH] using ASTNode_induction;
    intros found H; [discriminate|].
  rewrite findCallNode_Node in H. cbn [subnodes filter].
  destruct (isCallTo recursiveFunc (Node type name line children)).
  - now injection H as <-.
  - revert H. induction children as [|c cs IHcs]; intros H.
    + now injection H as <-.
    + cbn [findCallNode_each] in H.
      apply bind_Ok in H. destruct H as (r & Hr & H).
      inversion IH as [|? ? IHc IHrest]; subst.
      specialize (IHc r Hr).
      cbn [flat_map]. rewrite filter_app.
      destruct r as [n|].
      * injection H as <-.
        destruct (filter (isCallTo recursiveFunc) (subnodes c)); [discriminate|].
        exact IHc.
      * destruct (filter (isCallTo recursiveFunc) (subnodes c)); [|discriminate].
        now apply IHcs.
Qed.

Lemma findCallNode_total recursiveFunc node :
  nullFree node = true ->
  exists found, findCallNode recursiveFunc node = Ok found.
Proof.
  induction node as [|type name line children IH] using ASTNode_induction;
    intros Hn; [discriminate|].
  rewrite findCallNode_Node.
  destruct (isCallTo recursiveFunc (Node type name line children)); [eauto|].
  pose proof (nullFree_children _ _ _ _ Hn) as Hcs. clear Hn.
  induction children as [|c cs IHcs]; simpl; [eauto|].
  inversion IH as [|? ? IHc IHrest]; subst.
  destruct (IHc (Hcs c (or_introl eq_refl))) as ([n|] & ->); simpl; [eauto|].
  apply (IHcs IHrest). intros c' Hc'. apply Hcs. now right.
Qed.

(** ** The inferred step *)

Lemma parseInt_truthy name v : JS.parseInt name = Some v -> JS.truthy name = true.
Proof.
  destruct name; [discriminate | reflexivity].
Qed.

Lemma extractOperand_loop_spec children v :
  extractOperand_loop children = Ok v ->
  v = match find isLiteralOperand children with
      | Some literal =>
          match JS.parseInt (nodeName literal) with
          | Some v => v
          | None => 1
          end
      | None => 1
      end.
Proof.
  induction children as [|c cs IH]; cbn [extractOperand_loop find].
  - now intros [= <-].
  - destruct c as [|type name line children']; [discriminate|].
    unfold isLiteralOperand at 1. cbn [nodeType nodeName].
    destruct (type =? "INTEGER_LITERAL")%string; cbn [andb]; [|exact IH].
    destruct (JS.parseInt name) as [w|] eqn:Hp.
    + rewrite (parseInt_truthy name w Hp). cbn [nodeName]. rewrite Hp.
      now intros [= <-].
    + destruct (JS.truthy name); exact IH.
Qed.

Lemma extractOperand_loop_total children :
  (forall c, In c children -> nullFree c = true) ->
  exists v, extractOperand_loop children = Ok v.
Proof.
  induction children as [|c cs IH]; intros Hcs; cbn [extractOperand_loop];
    [eauto|].
  destruct c as [|type name line children'].
  - specialize (Hcs Null (or_introl eq_refl)). discriminate.
  - assert (IH' := IH (fun c Hc => Hcs c (or_intror Hc))).
    destruct ((type =? "INTEGER_LITERAL")%string && JS.truthy name); [|exact IH'].
    destruct (JS.parseInt name); eauto.
Qed.

(** Whatever [detectRecursiveStep] returns, the rule in force afterwards is
    the one the specification describes for that call site. *)
Lemma detectRecursiveStep_spec callNode detected :
  detectRecursiveStep callNode = Ok detected ->
  match detected with
  | Some rule => rule
  | None => defaultStep
  end = stepOfCall callNode.
Proof.
  unfold detectRecursiveStep, stepOfCall.
  destruct callNode as [|type name line children]; [now intros [= <-]|].
  cbn [nodeChildren].
  destruct children as [|callee [|argNode rest]]; try now intros [= <-].
  destruct argNode as [|argType argName argLine argChildren]; [discriminate|].
  cbn [nodeType].
  destruct (argType =? "BINARY_OPERATOR")%string; [|now intros [= <-]].
  intros H. apply bind_Ok in H. destruct H as (v & Hv & H).
  simpl in H. injection H as <-.
  unfold literalOperand. cbn [nodeChildren].
  simpl in Hv. now rewrite (extractOperand_loop_spec _ _ Hv).
Qed.

Lemma detectRecursiveStep_total callNode :
  nullFree callNode = true ->
  exists detected, detectRecursiveStep callNode = Ok detected.
Proof.
  unfold detectRecursiveStep.
  destruct callNode as [|type name line children]; [eauto|].
  intros Hn. pose proof (nullFree_children _ _ _ _ Hn) as Hcs.
  destruct children as [|callee [|argNode rest]]; eauto.
  assert (Harg : nullFree argNode = true) by (apply Hcs; simpl; auto).
  destruct argNode as [|argType argName argLine argChildren]; [discriminate|].
  destruct (argType =? "BINARY_OPERATOR")%string; [|eauto].
  destruct (extractOperand_loop_total argChildren
              (nullFree_children _ _ _ _ Harg)) as (v & Hv).
  simpl. rewrite Hv. simpl. eauto.
Qed.

(** The operator of a detected rule is the constant of [extractOperator]. *)
Lemma detectRecursiveStep_operator callNode rule :
  detectRecursiveStep callNode = Ok (Some rule) ->
  StepRule.operator rule = "-".
Proof.
  intros H. apply detectRecursiveStep_spec in H. rewrite H.
  unfold stepOfCall.
  destruct (nodeChildren callNode) as [|c [|a r]]; try reflexivity.
  destruct (nodeType a =? "BINARY_OPERATOR")%string; reflexivity.
Qed.

(** ** What the recursion flag means *)

Section Calls_sound.

Variable funcNames : list string.
Variable body : ASTNode.

Let resolved : CallSite.t -> Prop := resolvedIn body.

Lemma recordCall_sound type name line children st :
  In (Node type name line children) (subnodes body) ->
  (type =? "CALL_EXPR")%string = true ->
  Forall resolved (fst st) ->
  Forall resolved
    (fst (recordCall funcNames (Node type name line children) line st)).
Proof.
  intros Hin Ht Hst. unfold recordCall.
  destruct (findCalleeFromFirstChild (Node type name line children))
    as [callee|] eqn:Hc; [|exact Hst].
  destruct (JS.truthy callee && member callee funcNames); [|exact Hst].
  destruct (member _ (snd st)); [exact Hst|].
  cbn [fst]. apply Forall_app. split; [exact Hst|].
  constructor; [|constructor].
  exists (Node type name line children). split; [exact Hin|].
  unfold isCallTo. cbn [nodeType CallSite.name].
  rewrite Ht, Hc. simpl. apply String.eqb_refl.
Qed.

Lemma findAllCalls_each_sound children :
  Forall (fun node =>
            incl (subnodes node) (subnodes body) ->
            forall st,
              Forall resolved (fst st) ->
              Forall resolved (fst (findAllCalls_traverse funcNames node st)))
         children ->
  (forall c, In c children -> incl (subnodes c) (subnodes body)) ->
  forall st,
    Forall resolved (fst st) ->
    Forall resolved (fst (findAllCalls_each funcNames children st)).
Proof.
  induction 1 as [|c cs IHc _ IHcs]; intros Hcs st Hst; [exact Hst|].
  cbn [findAllCalls_each].
  apply (IHcs (fun c' Hc' => Hcs c' (or_intror Hc'))).
  apply (IHc (Hcs c (or_introl eq_refl)) st Hst).
Qed.

Lemma findAllCalls_traverse_sound node :
  incl (subnodes node) (subnodes body) ->
  forall st,
    Forall resolved (fst st) ->
    Forall resolved (fst (findAllCalls_traverse funcNames node st)).
Proof.
  induction node as [|type name line children IH] using ASTNode_induction;
    intros Hsub st Hst; [exact Hst|].
  rewrite findAllCalls_traverse_Node.
  apply (findAllCalls_each_sound children IH).
  - intros c Hc. eapply incl_tran; [|exact Hsub]. now apply subnodes_child.
  - destruct (type =? "CALL_EXPR")%string eqn:Ht; [|exact Hst].
    apply recordCall_sound; auto. apply Hsub, subnodes_self.
Qed.

Lemma findAllCalls_sound c :
  In c (findAllCalls body funcNames) ->
  exists n, In n (subnodes body) /\ isCallTo (CallSite.name c) n = true.
Proof.
  unfold findAllCalls. intros Hc.
  pose proof (findAllCalls_traverse_sound body (incl_refl _) ([], [])
                (Forall_nil _)) as H.
  rewrite Forall_forall in H. exact (H c Hc).
Qed.

End Calls_sound.

(** A flagged function has a call to itself in its body. *)
Lemma analyse_isRecursive ast functions k func :
  analyse ast = Ok functions ->
  Obj.get k functions = Some func ->
  FunctionRecord.isRecursive func = true ->
  callSites k (FunctionRecord.body func) <> [].
Proof.
  unfold analyse. intros H Hget Hrec.
  apply bind_Ok in H. destruct H as (fs & _ & [= <-]).
  rewrite get_detectRecursiveFunctions in Hget.
  destruct (Obj.get k fs) as [func0|]; [|discriminate].
  injection Hget as <-.
  change (FunctionRecord.body (markRecursive (Obj.keys fs) k func0))
    with (FunctionRecord.body func0).
  unfold markRecursive in Hrec. cbn [FunctionRecord.isRecursive] in Hrec.
  apply existsb_exists in Hrec. destruct Hrec as (c & Hc & Hname).
  apply String.eqb_eq in Hname.
  apply findAllCalls_sound in Hc. destruct Hc as (n & Hn & Hcall).
  rewrite Hname in Hcall.
  intros Hnil.
  assert (Hin : In n (callSites k (FunctionRecord.body func0)))
    by (apply filter_In; auto).
  rewrite Hnil in Hin. destruct Hin.
Qed.

(** The rule in force is the one of the first call of the selected function
    to itself, in depth-first order. *)
Lemma inferStep_spec functions recursiveFunc func stepInfo :
  Obj.get recursiveFunc functions = Some func ->
  inferStep functions recursiveFunc = Ok stepInfo ->
  stepInfo
  = match callSites recursiveFunc (FunctionRecord.body func) with
    | site :: _ => stepOfCall site
    | [] => defaultStep
    end.
Proof.
  unfold inferStep. intros -> H.
  apply bind_Ok in H. destruct H as (found & Hfound & H).
  apply findCallNode_first in Hfound.
  destruct (callSites recursiveFunc (FunctionRecord.body func)) as [|site rest];
    simpl in Hfound; subst found.
  - now injection H as <-.
  - apply bind_Ok in H. destruct H as (detected & Hd & H).
    apply detectRecursiveStep_spec in Hd. rewrite <- Hd.
    destruct detected; now injection H as <-.
Qed.

(** ** Runs on trees without null *)

Lemma analyse_total ast :
  nullFree ast = true -> exists functions, analyse ast = Ok functions.
Proof.
  intros Hn. unfold analyse, extractFunctions.
  destruct (extractFunctions_traverse_total ast Hn Obj.empty) as (fs & ->).
  simpl. eauto.
Qed.

Lemma inferStep_total ast functions recursiveFunc :
  nullFree ast = true ->
  analyse ast = Ok functions ->
  firstRecursive functions = Some recursiveFunc ->
  exists stepInfo, inferStep functions recursiveFunc = Ok stepInfo.
Proof.
  intros Hn Han Hrf.
  destruct (firstRecursive_get _ _ Hrf) as (func & Hget & _).
  destruct (analyse_Declared _ _ _ _ Han Hget) as (children & _ & Hin & _).
  cbn [snd] in Hin.
  pose proof (nullFree_subnodes ast Hn _ Hin) as Hbody.
  unfold inferStep. rewrite Hget.
  destruct (findCallNode_total recursiveFunc _ Hbody) as (found & Hfound).
  rewrite Hfound. simpl.
  destruct found as [site|]; [|eauto].
  apply findCallNode_first in Hfound.
  assert (Hsite : In site (callSites recursiveFunc (FunctionRecord.body func))).
  { destruct (callSites recursiveFunc (FunctionRecord.body func));
      [discriminate|]. injection Hfound as <-. now left. }
  apply filter_In in Hsite. destruct Hsite as [Hsite _].
  pose proof (nullFree_subnodes _ Hbody _ Hsite) as Hs.
  destruct (detectRecursiveStep_total site Hs) as (detected & ->).
  simpl. destruct detected; eauto.
Qed.

Lemma simulateRecursion_total ast maxDepth :
  nullFree ast = true ->
  exists trace, simulateRecursion ast maxDepth = Ok trace.
Proof.
  intros Hn.
  assert (Hnn : ast <> Null) by (intros ->; discriminate).
  destruct (analyse_total ast Hn) as (fs & Han).
  destruct (firstRecursive fs) as [rf|] eqn:Hrf.
  - destruct (inferStep_total ast fs rf Hn Han Hrf) as (step & Hstep).
    eexists. apply Run_simulateRecursion. eapply Run_descent; eauto.
  - destruct (Obj.get "main" fs) as [main|] eqn:Hm.
    + eexists. apply Run_simulateRecursion. eapply Run_main; eauto.
    + eexists. apply Run_simulateRecursion. eapply Run_empty; eauto.
Qed.

Lemma getRecursiveInfo_analyse ast functions :
  ast <> Null ->
  analyse ast = Ok functions ->
  getRecursiveInfo ast
  = match firstRecursive functions with
    | Some funcName =>
        match Obj.get funcName functions with
        | Some func =>
            Ok (Some (RecursiveInfo.mk funcName
                        (FunctionRecord.params func) (FunctionRecord.line func)))
        | None => TypeError
        end
    | None => Ok None
    end.
Proof.
  unfold getRecursiveInfo, analyse. intros Hn H.
  destruct ast; [congruence|].
  apply bind_Ok in H. destruct H as (fs & -> & [= <-]). reflexivity.
Qed.

Lemma getRecursiveInfo_total ast :
  nullFree ast = true ->
  exists info, getRecursiveInfo ast = Ok info.
Proof.
  intros Hn.
  assert (Hnn : ast <> Null) by (intros ->; discriminate).
  destruct (analyse_total ast Hn) as (fs & Han).
  rewrite (getRecursiveInfo_analyse ast fs Hnn Han).
  destruct (firstRecursive fs) as [rf|] eqn:Hrf; [|eauto].
  destruct (firstRecursive_get _ _ Hrf) as (func & -> & _). eauto.
Qed.

(** ** The factorial scenario *)

Section Scenario.

Variable functions : Functions.
Variable stepInfo : StepRule.t.
Variable maxDepth : Num.
Variable funcName : string.
Variable func : FunctionRecord.t.
Hypothesis Hget : Obj.get funcName functions = Some func.

(** A call that is let in and is not a base case of a recursive function:
    its push, the nested call, its pop. *)
Lemma simulateCall_nested argValue depth stack :
  exceeds depth maxDepth || (20 <? length stack)%nat = false ->
  FunctionRecord.isRecursive func = true ->
  (argValue <=? 1) = false ->
  simulateCall functions stepInfo maxDepth funcName argValue depth stack []
  = pushEvent funcName argValue (newFrame funcName func argValue depth)
      (stack ++ [newFrame funcName func argValue depth])
    :: simulateCall functions stepInfo maxDepth funcName
         (nextArgument stepInfo argValue) (depth + 1)
         (stack ++ [newFrame funcName func argValue depth]) []
    ++ [popEvent funcName argValue (newFrame funcName func argValue depth)
          false stack].
Proof.
  intros Hgo Hrec Hbase.
  rewrite simulateCall_eq, Hgo, Hget. cbv zeta.
  rewrite Hrec, Hbase. cbn [negb andb].
  now rewrite simulateCall_app.
Qed.

(** A base case: its push, then its pop. *)
Lemma simulateCall_base argValue depth stack :
  exceeds depth maxDepth || (20 <? length stack)%nat = false ->
  (argValue <=? 1) = true ->
  simulateCall functions stepInfo maxDepth funcName argValue depth stack []
  = [ pushEvent funcName argValue (newFrame funcName func argValue depth)
        (stack ++ [newFrame funcName func argValue depth]);
      popEvent funcName argValue (newFrame funcName func argValue depth)
        true stack ].
Proof.
  intros Hgo Hbase.
  rewrite simulateCall_eq, Hgo, Hget. cbv zeta.
  rewrite Hbase, andb_false_r. reflexivity.
Qed.

End Scenario.

(** C3, as the code has it. For every AST in which the function the
    simulator selects is [factorial], with the single parameter [n] and the
    step [n - 1], a run with [maxDepth = 5] (which is also the starting
    value) returns exactly five nested pushes with arguments 5, 4, 3, 2, 1
    followed by five pops with arguments 1, 2, 3, 4, 5, and the pops report
    the return values 1, 2, 6, 24, 120; [getRecursiveInfo] returns the name
    [factorial], the parameters [n] and the line of a declaration of
    [factorial] in the tree. *)
Theorem factorial_scenario
  (ast : ASTNode) (functions : Functions) (func : FunctionRecord.t) :
  analyse ast = Ok functions ->
  firstRecursive functions = Some "factorial" ->
  Obj.get "factorial" functions = Some func ->
  FunctionRecord.params func = ["n"] ->
  inferStep functions "factorial" = Ok (StepRule.mk "-" 1) ->
  exists trace,
    simulateRecursion ast (Some (Int 5)) = Ok trace
    /\ map summary trace = factorialSummary
    /\ map TraceEvent.action trace
       = [push; push; push; push; push; pop; pop; pop; pop; pop]
    /\ getRecursiveInfo ast
       = Ok (Some (RecursiveInfo.mk "factorial" ["n"] (FunctionRecord.line func)))
    /\ exists children,
         In (Node "FUNCTION_DECL" "factorial" (FunctionRecord.line func) children)
            (subnodes ast).
Proof.
  intros Han Hrf Hget Hparams Hstep.
  assert (Hnn : ast <> Null).
  { intros ->. unfold analyse, extractFunctions in Han. simpl in Han.
    injection Han as <-. discriminate. }
  destruct (firstRecursive_get _ _ Hrf) as (func' & Hget' & Hrec).
  assert (func' = func) by congruence. subst func'.
  eexists. split; [|split; [|split; [|split]]].
  - apply Run_simulateRecursion. eapply Run_descent; eauto.
  - cbn [effectiveDepth initialValue].
    rewrite (simulateCall_nested _ _ _ _ _ Hget 5 0) by (auto; reflexivity).
    rewrite (simulateCall_nested _ _ _ _ _ Hget _ _) by (auto; reflexivity).
    rewrite (simulateCall_nested _ _ _ _ _ Hget _ _) by (auto; reflexivity).
    rewrite (simulateCall_nested _ _ _ _ _ Hget _ _) by (auto; reflexivity).
    rewrite (simulateCall_base _ _ _ _ _ Hget _ _) by reflexivity.
    reflexivity.
  - cbn [effectiveDepth initialValue].
    rewrite (simulateCall_nested _ _ _ _ _ Hget 5 0) by (auto; reflexivity).
    rewrite (simulateCall_nested _ _ _ _ _ Hget _ _) by (auto; reflexivity).
    rewrite (simulateCall_nested _ _ _ _ _ Hget _ _) by (auto; reflexivity).
    rewrite (simulateCall_nested _ _ _ _ _ Hget _ _) by (auto; reflexivity).
    rewrite (simulateCall_base _ _ _ _ _ Hget _ _) by reflexivity.
    reflexivity.
  - rewrite (getRecursiveInfo_analyse ast functions Hnn Han), Hrf, Hget, Hparams.
    reflexivity.
  - eapply analyse_get_declares; eauto.
Qed.

Lemma factorial_scenario_witness :
  exists trace,
    simulateRecursion factorialAST (Some (Int 5)) = Ok trace
    /\ map summary trace = factorialSummary
    /\ getRecursiveInfo factorialAST
       = Ok (Some (RecursiveInfo.mk "factorial" ["n"] 3)).
Proof.
  edestruct (factorial_scenario factorialAST) as (trace & H1 & H2 & _ & H4 & _).
  - vm_compute. reflexivity.
  - vm_compute. reflexivity.
  - vm_compute. reflexivity.
  - vm_compute. reflexivity.
  - vm_compute. reflexivity.
  - exists trace. split; [exact H1|]. split; [exact H2 | exact H4].
Defined.

(** The scenario as the specification words it lists six return values,
    1, 1, 2, 6, 24, 120, for the arguments 1, 1, 2, 3, 4, 5: the run has
    five pops only, and the argument 1 is popped once. *)
Lemma factorial_pops_counterexample :
  exists trace,
    simulateRecursion factorialAST (Some (Int 5)) = Ok trace
    /\ map summary (filter isPop trace)
       <> [ (pop, Some (ArgNumber 1), Some 1);
            (pop, Some (ArgNumber 1), Some 1);
            (pop, Some (ArgNumber 2), Some 2);
            (pop, Some (ArgNumber 3), Some 6);
            (pop, Some (ArgNumber 4), Some 24);
            (pop, Some (ArgNumber 5), Some 120) ].
Proof.
  eexists. split; [vm_compute; reflexivity|].
  vm_compute. discriminate.
Qed.

(** ** The single numeric parameter *)

Lemma clampDepth_range input : 1 <= clampDepth input <= 20.
Proof.
  destruct input as [|n]; simpl; lia.
Qed.

Lemma StackVisualizer_steps_eq astData input :
  StackVisualizer_steps astData input
  = simulateRecursion astData (Some (Int (clampDepth input))).
Proof.
  destruct astData; reflexivity.
Qed.

(** The clamp of the caller in so many words. *)
Lemma clampDepth_spec n :
  clampDepth (Typed n) = if n <? 1 then 1 else if 20 <? n then 20 else n.
Proof.
  cbn [clampDepth].
  destruct (Z.ltb_spec n 1); [lia|]. destruct (Z.ltb_spec 20 n); lia.
Qed.

(** C4. [simulateRecursion] takes one numeric parameter, [maxDepth] (5 when
    left out), which is both the depth bound and the starting argument:
    whenever a self-recursive function is found, the first push event of the
    trace has a frame of depth 0 whose argument is [parseInt(maxDepth)], or
    5 when that is NaN.  (With a bound below 0 nothing is simulated and the
    trace has no push at all; otherwise the trace starts with that push.)
    [parseInt(maxDepth)] is [maxDepth] itself for an integer below 10^21 in
    magnitude.  The caller hands over that one value and nothing else: 1 for
    an empty field, and otherwise the number typed, raised to 1 when it is
    below 1 and lowered to 20 when it is above 20, so that the simulation
    starts from the clamped value. *)
Theorem starting_value_is_maxDepth
  (ast : ASTNode) (maxDepth : option Num) (functions : Functions)
  (recursiveFunc : string) (trace : list TraceEvent.t) :
  analyse ast = Ok functions ->
  firstRecursive functions = Some recursiveFunc ->
  simulateRecursion ast maxDepth = Ok trace ->
  (forall e, hd_error (filter isPush trace) = Some e ->
     Frame.depth (TraceEvent.frame e) = 0
     /\ Frame.argValue (TraceEvent.frame e)
        = Some (ArgNumber (initialValue (effectiveDepth maxDepth))))
  /\ (exceeds 0 (effectiveDepth maxDepth) = false ->
      exists e rest, trace = e :: rest /\ TraceEvent.action e = push)
  /\ (exceeds 0 (effectiveDepth maxDepth) = true -> trace = [])
  /\ effectiveDepth None = Int 5
  /\ initialValue NaN = 5
  /\ (forall z, initialValue (Int z) = JS.parseIntOfNumber z)
  /\ (forall z, Z.abs z < 10 ^ 21 -> JS.parseIntOfNumber z = z)
  /\ (forall input,
        StackVisualizer_steps ast input
        = simulateRecursion ast (Some (Int (clampDepth input))))
  /\ clampDepth Blank = 1
  /\ (forall n,
        clampDepth (Typed n)
        = if n <? 1 then 1 else if 20 <? n then 20 else n)
  /\ (forall input,
        1 <= clampDepth input <= 20
        /\ initialValue (Int (clampDepth input)) = clampDepth input).
Proof.
  intros Han Hrf H.
  apply simulateRecursion_Run in H.
  assert (Hshape :
            exists stepInfo,
              Descent functions stepInfo (effectiveDepth maxDepth) recursiveFunc
                (initialValue (effectiveDepth maxDepth)) 0 [] trace).
  { destruct H as [->|fs rf step _ Han' Hrf' _|fs main _ Han' Hrf' _|fs _ Han' Hrf' _].
    - unfold analyse, extractFunctions in Han. simpl in Han.
      injection Han as <-. discriminate.
    - assert (fs = functions) by congruence. subst fs.
      assert (rf = recursiveFunc) by congruence. subst rf.
      exists step. apply simulateCall_Descent.
    - congruence.
    - congruence. }
  destruct Hshape as (step & HD).
  destruct (firstRecursive_get _ _ Hrf) as (func & Hget & _).
  split; [|split; [|split]].
  - intros e He.
    destruct (exceeds 0 (effectiveDepth maxDepth)) eqn:Hex.
    + rewrite (Descent_halted _ _ _ _ _ _ _ _ HD) in He by now rewrite Hex.
      discriminate.
    + destruct (Descent_first _ _ _ _ _ _ _ _ HD ltac:(now rewrite Hex)
                  func Hget) as (rest & ->).
      cbn in He. injection He as <-. split; reflexivity.
  - intros Hex.
    destruct (Descent_first _ _ _ _ _ _ _ _ HD ltac:(now rewrite Hex)
                func Hget) as (rest & ->).
    eexists. eexists. split; reflexivity.
  - intros Hex. apply (Descent_halted _ _ _ _ _ _ _ _ HD). now rewrite Hex.
  - split; [reflexivity|]. split; [reflexivity|]. split; [reflexivity|].
    split; [apply parseIntOfNumber_small|].
    split; [apply StackVisualizer_steps_eq|].
    split; [reflexivity|].
    split; [apply clampDepth_spec|].
    intros input. pose proof (clampDepth_range input) as Hr.
    split; [exact Hr|].
    cbn [initialValue]. apply parseIntOfNumber_small. lia.
Qed.

Lemma starting_value_is_maxDepth_witness :
  exists trace e rest,
    StackVisualizer_steps factorialAST (Typed 50) = Ok trace
    /\ trace = e :: rest
    /\ Frame.depth (TraceEvent.frame e) = 0
    /\ Frame.argValue (TraceEvent.frame e) = Some (ArgNumber 20).
Proof.
  edestruct (starting_value_is_maxDepth factorialAST (Some (Int 20)))
    as (Hfirst & Hstart & _ & _ & _ & _ & _ & Hsteps & _ & Hclamp & _).
  - vm_compute. reflexivity.
  - vm_compute. reflexivity.
  - vm_compute. reflexivity.
  - destruct (Hstart eq_refl) as (e & rest & E & Hpush).
    eexists. exists e, rest.
    split; [rewrite (Hsteps (Typed 50)), (Hclamp 50); vm_compute; reflexivity|].
    split; [vm_compute in E |- *; exact E|].
    destruct (Hfirst e) as [Hd Ha].
    + rewrite E. cbn [filter]. unfold isPush. rewrite Hpush. reflexivity.
    + split; [exact Hd|]. rewrite Ha. reflexivity.
Defined.

(** ** Step inference *)

(** C5. The step rule of a recursive call site always has the operator
    [-], whatever the operator in the source.  Its operand is read from an
    integer-literal child of the first positional argument when that
    argument is a binary-operator node; when the argument is something
    else, or no literal operand is found, the rule is exactly {-, 1}
    ([stepOfCall] says just that).  One rule is computed per analysis, from
    the first call of the selected function to itself in depth-first order
    of its body, and the whole simulation runs with it. *)
Theorem step_rule_inference
  (ast : ASTNode) (functions : Functions) (recursiveFunc : string)
  (func : FunctionRecord.t) (stepInfo : StepRule.t) :
  analyse ast = Ok functions ->
  firstRecursive functions = Some recursiveFunc ->
  Obj.get recursiveFunc functions = Some func ->
  inferStep functions recursiveFunc = Ok stepInfo ->
  (exists site rest,
     callSites recursiveFunc (FunctionRecord.body func) = site :: rest
     /\ stepInfo = stepOfCall site)
  /\ StepRule.operator stepInfo = "-"
  /\ (forall maxDepth trace,
        simulateRecursion ast maxDepth = Ok trace ->
        trace = simulateCall functions stepInfo (effectiveDepth maxDepth)
                  recursiveFunc (initialValue (effectiveDepth maxDepth)) 0 [] [])
  /\ (forall callNode rule,
        detectRecursiveStep callNode = Ok (Some rule) ->
        StepRule.operator rule = "-" /\ rule = stepOfCall callNode)
  /\ (forall callNode,
        detectRecursiveStep callNode = Ok None ->
        stepOfCall callNode = StepRule.mk "-" 1).
Proof.
  intros Han Hrf Hget Hstep.
  destruct (firstRecursive_get _ _ Hrf) as (func' & Hget' & Hrec).
  assert (func' = func) by congruence. subst func'.
  pose proof (analyse_isRecursive _ _ _ _ Han Hget Hrec) as Hsites.
  pose proof (inferStep_spec _ _ _ _ Hget Hstep) as Hspec.
  destruct (callSites recursiveFunc (FunctionRecord.body func)) as [|site rest]
    eqn:Hcs; [congruence|].
  split; [eauto|].
  split.
  { rewrite Hspec. unfold stepOfCall.
    destruct (nodeChildren site) as [|c [|a r]]; try reflexivity.
    destruct (nodeType a =? "BINARY_OPERATOR")%string; reflexivity. }
  split.
  { intros maxDepth trace H. apply simulateRecursion_Run in H.
    destruct H as [->|fs rf step _ Han' Hrf' Hstep'|fs main _ Han' Hrf' _
                  |fs _ Han' Hrf' _].
    - unfold analyse, extractFunctions in Han. simpl in Han.
      injection Han as <-. discriminate.
    - assert (fs = functions) by congruence. subst fs.
      assert (rf = recursiveFunc) by congruence. subst rf.
      assert (step = stepInfo) by congruence. now subst step.
    - congruence.
    - congruence. }
  split.
  - intros callNode rule H. split.
    + eapply detectRecursiveStep_operator; eauto.
    + now apply detectRecursiveStep_spec in H.
  - intros callNode H. now apply detectRecursiveStep_spec in H.
Qed.

Lemma step_rule_inference_witness :
  inferStep
    (match analyse halveAST with Ok functions => functions | TypeError => [] end)
    "halve"
  = Ok (StepRule.mk "-" 2)
  /\ StepRule.operator (StepRule.mk "-" 2) = "-".
Proof.
  edestruct (step_rule_inference halveAST) as (_ & Hop & _).
  - vm_compute. reflexivity.
  - vm_compute. reflexivity.
  - vm_compute. reflexivity.
  - vm_compute. reflexivity.
  - split; [vm_compute; reflexivity | exact Hop].
Defined.

(** ** Callee resolution *)

Lemma find_app_first {A : Type} (f : A -> bool) (l1 l2 : list A) :
  find f (l1 ++ l2)
  = match find f l1 with
    | Some x => Some x
    | None => find f l2
    end.
Proof.
  induction l1 as [|a l1 IH]; simpl; [reflexivity|].
  destruct (f a); [reflexivity | exact IH].
Qed.

(** What [trim] leaves of a name: nothing exactly when the name is
    blank. *)
Lemma isWhiteSpace_isSpace c : JS.isWhiteSpace c = isSpace c.
Proof.
  destruct c as [[] [] [] [] [] [] [] []]; reflexivity.
Qed.

Lemma trimStart_blank l :
  forallb isSpace l = true -> JS.trimStart l = [].
Proof.
  induction l as [|c l IH]; cbn [forallb JS.trimStart]; [reflexivity|].
  rewrite isWhiteSpace_isSpace. intros H. apply andb_prop in H.
  destruct H as [-> H]. now apply IH.
Qed.

Lemma trimStart_keeps c l :
  In c l -> isSpace c = false -> JS.trimStart l <> [].
Proof.
  intros Hin Hc.
  induction l as [|d l IH]; cbn [JS.trimStart]; [destruct Hin|].
  destruct (JS.isWhiteSpace d) eqn:Hd; [|discriminate].
  destruct Hin as [->|Hin]; [|now apply IH].
  rewrite isWhiteSpace_isSpace in Hd. congruence.
Qed.

Lemma truthy_string_of_list l :
  JS.truthy (string_of_list_ascii l) = match l with [] => false | _ => true end.
Proof.
  destruct l; reflexivity.
Qed.

Lemma trim_blank name : JS.truthy (JS.trim name) = negb (blank name).
Proof.
  unfold JS.trim, blank. rewrite truthy_string_of_list.
  set (l := list_ascii_of_string name).
  destruct (forallb isSpace l) eqn:Hb; cbn [negb].
  - now rewrite (trimStart_blank l Hb).
  - assert (Hex : exists c, In c l /\ isSpace c = false).
    { clear -Hb. induction l as [|c l IH]; [discriminate|].
      cbn [forallb] in Hb. destruct (isSpace c) eqn:Hc.
      - destruct (IH Hb) as (d & Hd & Hd'). exists d. split; [now right|exact Hd'].
      - exists c. split; [now left|exact Hc]. }
    destruct Hex as (c & Hin & Hc).
    pose proof (trimStart_keeps c l Hin Hc) as Hne.
    destruct (JS.trimStart l) as [|d r] eqn:Ht; [congruence|].
    assert (Hd : isSpace d = false).
    { clear -Ht. induction l as [|x l IH]; [discriminate|].
      cbn [JS.trimStart] in Ht. destruct (JS.isWhiteSpace x) eqn:Hx.
      - now apply IH.
      - injection Ht as -> _. now rewrite isWhiteSpace_isSpace in Hx. }
    assert (Hne' : JS.trimStart (rev (d :: r)) <> []).
    { apply (trimStart_keeps d); [|exact Hd].
      apply in_rev. rewrite rev_involutive. now left. }
    destruct (JS.trimStart (rev (d :: r))) as [|y ys]; [congruence|].
    cbn [rev]. destruct (rev ys); reflexivity.
Qed.

Lemma truthy_nonempty name : JS.truthy name = negb (name =? "")%string.
Proof.
  destruct name; reflexivity.
Qed.

Lemma blank_empty name : JS.truthy name = false -> blank name = true.
Proof.
  destruct name; [reflexivity|discriminate].
Qed.

(** The test the search makes at a node. *)
Lemma answers_test n :
  answers n
  = ((nodeType n =? "DECL_REF_EXPR")%string && JS.truthy (nodeName n))
    || (JS.truthy (nodeName n) && JS.truthy (JS.trim (nodeName n))).
Proof.
  unfold answers. rewrite trim_blank, <- truthy_nonempty.
  destruct (JS.truthy (nodeName n)) eqn:Ht; [reflexivity|].
  now rewrite (blank_empty _ Ht), !andb_false_r.
Qed.

Lemma answers_truthy n : answers n = true -> JS.truthy (nodeName n) = true.
Proof.
  rewrite answers_test. intros H. apply orb_prop in H.
  destruct H as [H|H]; apply andb_prop in H; tauto.
Qed.

(** The search returns the name of the first node, in depth-first order,
    that [answers]. *)
Lemma searchForName_spec node :
  searchForName node = option_map nodeName (find answers (subnodes node)).
Proof.
  induction node as [|type name line children IH] using ASTNode_induction;
    [reflexivity|].
  rewrite searchForName_Node. cbn [subnodes find].
  rewrite answers_test. cbn [nodeType nodeName].
  destruct ((type =? "DECL_REF_EXPR")%string && JS.truthy name); [reflexivity|].
  cbn [orb].
  destruct (JS.truthy name && JS.truthy (JS.trim name)); [reflexivity|].
  induction children as [|c cs IHcs]; [reflexivity|].
  inversion IH as [|? ? IHc IHrest]; subst.
  cbn [searchForName_each flat_map]. rewrite find_app_first, IHc.
  destruct (find answers (subnodes c)) as [m|] eqn:Hm; cbn [option_map].
  - apply find_some in Hm. destruct Hm as [_ Hm].
    now rewrite (answers_truthy m Hm).
  - now apply IHcs.
Qed.

(** C6, as the code has it. The callee of a call expression is looked for
    in the subtree of its first child only, depth-first, in one pass: the
    answer is the name of the first node that is a declaration reference
    with a non-empty name or bears a name that is not blank (a name with a
    character other than white space).  The other children, the arguments,
    play no part: the result is the same whatever they are, and a name that
    no node of the first child's subtree bears is never resolved as the
    callee.  A call expression without children, or a null one, resolves to
    nothing. *)
Theorem callee_from_first_child
  (type name : string) (line : Z) (firstChild : ASTNode) (arguments : list ASTNode) :
  findCalleeFromFirstChild (Node type name line (firstChild :: arguments))
  = option_map nodeName (find answers (subnodes firstChild))
  /\ (forall arguments',
        findCalleeFromFirstChild (Node type name line (firstChild :: arguments'))
        = findCalleeFromFirstChild (Node type name line (firstChild :: arguments)))
  /\ (forall callee,
        (forall n, In n (subnodes firstChild) -> nodeName n <> callee) ->
        findCalleeFromFirstChild (Node type name line (firstChild :: arguments))
        <> Some callee)
  /\ findCalleeFromFirstChild (Node type name line []) = None
  /\ findCalleeFromFirstChild Null = None.
Proof.
  cbn [findCalleeFromFirstChild].
  split; [apply searchForName_spec|].
  split; [reflexivity|].
  split; [|split; reflexivity].
  intros callee Hnone. rewrite searchForName_spec.
  destruct (find answers (subnodes firstChild)) as [m|] eqn:Hm;
    [|discriminate].
  apply find_some in Hm. destruct Hm as [Hin _].
  cbn [option_map]. intros [= E]. exact (Hnone m Hin E).
Qed.

(** The rule as C6 words it, a declaration reference first and any
    non-empty name failing that, is not what the code does.  In the call
    [table.handler(n)] the member reference bears the name [handler] and
    answers before the declaration reference of [table] below it is
    reached; and a name made of a space is non-empty, yet the code passes
    it over. *)
Lemma specified_callee_counterexample :
  findCalleeFromFirstChild memberCall = Some "handler"
  /\ specifiedCallee memberCall = Some "table"
  /\ findCalleeFromFirstChild
       (Node "CALL_EXPR" "" 1 [Node "PAREN_EXPR" " " 1 []]) = None
  /\ specifiedCallee
       (Node "CALL_EXPR" "" 1 [Node "PAREN_EXPR" " " 1 []]) = Some " ".
Proof.
  repeat split.
Qed.

(** ** Closed-form return values *)

Lemma fibonacci_step k :
  fibonacci (S (S k)) = fibonacci k + fibonacci (S k).
Proof. reflexivity. Qed.

Lemma forRounds_fibonacci k :
  forall j i,
    forRounds k i (fun (_ : Z) (ab : Z * Z) => (snd ab, fst ab + snd ab))
      (fibonacci j, fibonacci (S j))
    = (fibonacci (j + k), fibonacci (S (j + k))).
Proof.
  induction k as [|k IH]; intros j i; cbn [forRounds].
  - now rewrite Nat.add_0_r.
  - cbn [fst snd]. rewrite <- fibonacci_step, IH.
    now rewrite Nat.add_succ_r.
Qed.

Lemma forRounds_product k :
  forall m,
    forRounds k (Z.of_nat (S m)) (fun i result => result * i) (productTo m)
    = productTo (m + k).
Proof.
  induction k as [|k IH]; intros m; cbn [forRounds].
  - now rewrite Nat.add_0_r.
  - replace (Z.of_nat (S m) + 1) with (Z.of_nat (S (S m))) by lia.
    change (productTo m * Z.of_nat (S m)) with (productTo (S m)).
    rewrite IH. now rewrite Nat.add_succ_r.
Qed.

Lemma fibLoop_spec n :
  2 <= n ->
  snd (forLoop 2 n (fun (_ : Z) (ab : Z * Z) => (snd ab, fst ab + snd ab)) (0, 1))
  = fibonacci (Z.to_nat n).
Proof.
  intros Hn. unfold forLoop.
  change (0, 1) with (fibonacci 0, fibonacci 1).
  rewrite forRounds_fibonacci. cbn [snd].
  f_equal. lia.
Qed.

Lemma factLoop_spec n :
  forLoop 2 n (fun i result => result * i) 1 = productTo (Z.to_nat n).
Proof.
  unfold forLoop.
  destruct (Z_le_gt_dec n 1) as [Hle|Hgt].
  - replace (Z.to_nat (n - 2 + 1)) with 0%nat by lia. cbn [forRounds].
    destruct (Z.to_nat n) as [|[|k]] eqn:E; try reflexivity. lia.
  - change 2 with (Z.of_nat 2). change 1 with (productTo 1) at 2.
    rewrite forRounds_product. f_equal. lia.
Qed.

Lemma productTo_small n : n <= 1 -> productTo (Z.to_nat n) = 1.
Proof.
  intros Hn. destruct (Z.to_nat n) as [|[|k]] eqn:E; try reflexivity. lia.
Qed.

(** Up to the index 78 the Fibonacci numbers, and up to 22 the factorials,
    are doubles, so that the loops of the source compute them exactly. *)
Lemma fibLoop_exact n :
  2 <= n <= 78 ->
  snd (forLoop 2 n fibStep (0, 1)) = fibonacci (Z.to_nat n).
Proof.
  intros Hn. rewrite <- fibLoop_spec by lia.
  assert (Hin : In n (map Z.of_nat (seq 2 77))).
  { replace n with (Z.of_nat (Z.to_nat n)) by lia.
    apply in_map, in_seq. lia. }
  assert (Hall :
            forallb
              (fun n =>
                 snd (forLoop 2 n fibStep (0, 1))
                 =? snd (forLoop 2 n
                           (fun (_ : Z) (ab : Z * Z) => (snd ab, fst ab + snd ab))
                           (0, 1)))
              (map Z.of_nat (seq 2 77)) = true)
    by (vm_compute; reflexivity).
  rewrite forallb_forall in Hall. apply Z.eqb_eq. exact (Hall n Hin).
Qed.

Lemma factLoop_exact n :
  n <= 22 ->
  forLoop 2 n factStep 1 = productTo (Z.to_nat n).
Proof.
  intros Hn. rewrite <- factLoop_spec.
  destruct (Z_le_gt_dec n 1) as [Hle|Hgt].
  - unfold forLoop. replace (Z.to_nat (n - 2 + 1)) with 0%nat by lia.
    reflexivity.
  - assert (Hin : In n (map Z.of_nat (seq 2 21))).
    { replace n with (Z.of_nat (Z.to_nat n)) by lia.
      apply in_map, in_seq. lia. }
    assert (Hall :
              forallb
                (fun n =>
                   forLoop 2 n factStep 1
                   =? forLoop 2 n (fun i result => result * i) 1)
                (map Z.of_nat (seq 2 21)) = true)
      by (vm_compute; reflexivity).
    rewrite forallb_forall in Hall. apply Z.eqb_eq. exact (Hall n Hin).
Qed.

(** C7, as the code has it. The closed-form return value goes by the
    lower-cased name.  With "fib" in it: [n] itself for [n <= 1] (so 0 at 0
    and 1 at 1, and a negative input unchanged), and the Fibonacci number
    of index [n] up to 78.  Otherwise, with "factorial" or "fact" in it: the
    product 1 * 2 * ... * n up to 22, which is 1 for [n <= 1].  Otherwise
    [n] itself, for every [n].  (Beyond 78 and 22 the loops go on in
    doubles, which no longer hold the exact integers.) *)
Theorem calculateReturn_spec (funcName : string) (n : Z) :
  (JS.includes "fib" (JS.toLowerCase funcName) = true ->
   (n <= 1 -> calculateReturn funcName n = n)
   /\ (0 <= n <= 78 -> calculateReturn funcName n = fibonacci (Z.to_nat n)))
  /\ (JS.includes "fib" (JS.toLowerCase funcName) = false ->
      JS.includes "factorial" (JS.toLowerCase funcName)
      || JS.includes "fact" (JS.toLowerCase funcName) = true ->
      (n <= 22 -> calculateReturn funcName n = productTo (Z.to_nat n))
      /\ (n <= 1 -> calculateReturn funcName n = 1))
  /\ (JS.includes "fib" (JS.toLowerCase funcName) = false ->
      JS.includes "factorial" (JS.toLowerCase funcName)
      || JS.includes "fact" (JS.toLowerCase funcName) = false ->
      calculateReturn funcName n = n)
  /\ fibonacci 0 = 0
  /\ fibonacci 1 = 1
  /\ (forall k, fibonacci (S (S k)) = fibonacci k + fibonacci (S k)).
Proof.
  unfold calculateReturn.
  split; [|split; [|split; [|repeat split]]].
  - intros ->. split.
    + intros Hle. apply Z.leb_le in Hle. now rewrite Hle.
    + intros Hn. destruct (Z.leb_spec n 1) as [Hle|Hgt].
      * assert (n = 0 \/ n = 1) as [->| ->] by lia; reflexivity.
      * apply fibLoop_exact. lia.
  - intros -> ->. split.
    + apply factLoop_exact.
    + intros Hle. rewrite factLoop_exact by lia. now apply productTo_small.
  - intros -> ->. reflexivity.
Qed.

Lemma calculateReturn_spec_witness :
  calculateReturn "Fibonacci" 10 = 55
  /\ calculateReturn "fib" (-4) = -4
  /\ calculateReturn "myFactorial" 5 = 120
  /\ calculateReturn "fact_helper" (-3) = 1
  /\ calculateReturn "sum" 7 = 7.
Proof.
  destruct (calculateReturn_spec "Fibonacci" 10) as (Hfib & _).
  destruct (calculateReturn_spec "fib" (-4)) as (Hneg & _).
  destruct (calculateReturn_spec "myFactorial" 5) as (_ & Hfact & _).
  destruct (calculateReturn_spec "fact_helper" (-3)) as (_ & Hsmall & _).
  destruct (calculateReturn_spec "sum" 7) as (_ & _ & Hid & _).
  split; [|split; [|split; [|split]]].
  - rewrite (proj2 (Hfib eq_refl) ltac:(lia)). reflexivity.
  - apply (proj1 (Hneg eq_refl)). lia.
  - rewrite (proj1 (Hfact eq_refl eq_refl) ltac:(lia)). reflexivity.
  - apply (proj2 (Hsmall eq_refl eq_refl)). lia.
  - apply (Hid eq_refl eq_refl).
Defined.

(** The claim of C7 read over every integer fails where the doubles stop
    being exact: the product computed for 23 is not 23!, and the sum
    computed for 79 is not the Fibonacci number of index 79. *)
Lemma exact_values_counterexample :
  calculateReturn "factorial" 23 = 25852016738884978212864
  /\ calculateReturn "factorial" 23 <> productTo (Z.to_nat 23)
  /\ calculateReturn "fib" 79 = 14472334024676220
  /\ calculateReturn "fib" 79 <> fibonacci (Z.to_nat 79).
Proof.
  split; [vm_compute; reflexivity|].
  split; [vm_compute; discriminate|].
  split; [vm_compute; reflexivity|].
  rewrite <- fibLoop_spec by lia. vm_compute. discriminate.
Qed.

(** ** The fallback for programs without recursion *)

Lemma analyse_Null functions : analyse Null = Ok functions -> functions = [].
Proof.
  unfold analyse, extractFunctions. simpl. now intros [= <-].
Qed.

(** Without a function that calls itself, no record is flagged. *)
Lemma firstRecursive_none ast functions :
  analyse ast = Ok functions ->
  (forall name, ~ selfRecursive ast name) ->
  firstRecursive functions = None.
Proof.
  intros Han Hnone.
  destruct (firstRecursive functions) as [k|] eqn:Hrf; [|reflexivity].
  exfalso.
  destruct (firstRecursive_get _ _ Hrf) as (func & Hget & Hrec).
  pose proof (analyse_isRecursive _ _ _ _ Han Hget Hrec) as Hsites.
  destruct (analyse_Declared _ _ _ _ Han Hget) as (children & Hb & Hin & _).
  cbn [fst snd] in *.
  apply (Hnone k). exists (FunctionRecord.line func), children.
  rewrite <- Hb. auto.
Qed.

(** C8. When no function of the AST calls itself, the trace goes by
    [main]: if the AST declares a function named [main], the trace is
    exactly two events, a push for [main] followed by a pop for [main] with
    return value 0 (carrying the line of a declaration of [main]); if it
    declares none, the trace is empty. *)
Theorem main_fallback
  (ast : ASTNode) (maxDepth : option Num) (trace : list TraceEvent.t) :
  simulateRecursion ast maxDepth = Ok trace ->
  (forall name, ~ selfRecursive ast name) ->
  (declares ast "main" ->
   exists main children,
     In (Node "FUNCTION_DECL" "main" (FunctionRecord.line main) children)
        (subnodes ast)
     /\ trace = mainFallback main
     /\ map TraceEvent.action trace = [push; pop]
     /\ map (fun e => Frame.name (TraceEvent.frame e)) trace = ["main"; "main"]
     /\ map TraceEvent.returnValue trace = [None; Some 0])
  /\ (~ declares ast "main" -> trace = []).
Proof.
  intros H Hnone. apply simulateRecursion_Run in H.
  destruct H as [->|fs rf step _ Han Hrf _|fs main _ Han Hrf Hm|fs _ Han Hrf Hm].
  - split; [|reflexivity].
    intros (line & children & []).
  - rewrite (firstRecursive_none _ _ Han Hnone) in Hrf. discriminate.
  - split.
    + intros _.
      destruct (analyse_get_declares _ _ _ _ Han Hm) as (children & Hin).
      exists main, children. repeat split. exact Hin.
    + intros Hno. exfalso. apply Hno.
      destruct (analyse_get_declares _ _ _ _ Han Hm) as (children & Hin).
      now exists (FunctionRecord.line main), children.
  - split; [|reflexivity].
    intros Hdecl. exfalso.
    apply (analyse_declares _ _ "main" Han Hdecl); [reflexivity | discriminate | exact Hm].
Qed.

Lemma main_fallback_witness :
  exists trace,
    simulateRecursion mainOnlyAST (Some (Int 5)) = Ok trace
    /\ map TraceEvent.action trace = [push; pop]
    /\ map (fun e => Frame.name (TraceEvent.frame e)) trace = ["main"; "main"]
    /\ map TraceEvent.returnValue trace = [None; Some 0].
Proof.
  assert (Hnone : forall name, ~ selfRecursive mainOnlyAST name).
  { intros name (line & children & Hin & Hsites).
    simpl in Hin.
    repeat (destruct Hin as [Hin|Hin]; [try discriminate|]); [|destruct Hin].
    injection Hin as <- <- <-. apply Hsites. reflexivity. }
  assert (Hmain : declares mainOnlyAST "main").
  { eexists. eexists. simpl. right. left. reflexivity. }
  edestruct (main_fallback mainOnlyAST (Some (Int 5))) as (Htwo & _).
  - vm_compute. reflexivity.
  - exact Hnone.
  - destruct (Htwo Hmain) as (main & children & _ & E & Ha & Hn & Hr).
    eexists. split; [vm_compute; reflexivity|].
    split; [exact Ha|]. split; [exact Hn | exact Hr].
Defined.

(** ** Null, malformed and recursion-free input *)

(** A tree that declares no named function leaves the table as it is, nulls
    or not: every traversal step tests for null before it looks at a
    node. *)
Lemma extractFunctions_traverse_none node :
  (forall type name line children,
      In (Node type name line children) (subnodes node) ->
      (type =? "FUNCTION_DECL")%string && JS.truthy name = false) ->
  forall functions, extractFunctions_traverse node functions = Ok functions.
Proof.
  induction node as [|type name line children IH] using ASTNode_induction;
    intros Hnone functions; [reflexivity|].
  rewrite extractFunctions_traverse_Node.
  rewrite (Hnone type name line children (subnodes_self _ _ _ _)).
  cbn [bind].
  assert (Hcs : forall c, In c children ->
                  forall type name line children',
                    In (Node type name line children') (subnodes c) ->
                    (type =? "FUNCTION_DECL")%string && JS.truthy name = false).
  { intros c Hc t n l cs Hin. apply (Hnone t n l cs).
    eapply subnodes_child; eauto. }
  clear Hnone.
  induction children as [|c cs IHcs]; [reflexivity|].
  inversion IH as [|? ? IHc IHrest]; subst.
  cbn [extractFunctions_each].
  rewrite (IHc (Hcs c (or_introl eq_refl))). cbn [bind].
  apply (IHcs IHrest). intros c' Hc'. apply Hcs. now right.
Qed.

Lemma no_declaration_empty_table ast :
  (forall name, JS.truthy name = true -> ~ declares ast name) ->
  analyse ast = Ok [].
Proof.
  intros Hnone. unfold analyse, extractFunctions.
  rewrite extractFunctions_traverse_none; [reflexivity|].
  intros type name line children Hin.
  destruct (String.eqb_spec type "FUNCTION_DECL") as [->|_]; [|reflexivity].
  destruct (JS.truthy name) eqn:Ht; [|reflexivity].
  exfalso. apply (Hnone name Ht). now exists line, children.
Qed.

(** C9. A null AST is handled without failure: [simulateRecursion] returns
    the empty trace and [getRecursiveInfo] returns null.  An AST that
    declares no function yields the empty trace and null as well.  On a
    tree of the input contract, where the children of a node are nodes,
    neither operation raises; when, besides, no function calls itself,
    [getRecursiveInfo] returns null and the trace is empty or the
    two-event fallback for [main]. *)
Theorem null_and_recursion_free_input :
  (forall maxDepth, simulateRecursion Null maxDepth = Ok [])
  /\ getRecursiveInfo Null = Ok None
  /\ (forall ast maxDepth,
        (forall name, JS.truthy name = true -> ~ declares ast name) ->
        simulateRecursion ast maxDepth = Ok []
        /\ getRecursiveInfo ast = Ok None)
  /\ (forall ast maxDepth,
        nullFree ast = true ->
        simulateRecursion ast maxDepth <> TypeError
        /\ getRecursiveInfo ast <> TypeError)
  /\ (forall ast maxDepth,
        nullFree ast = true ->
        (forall name, ~ selfRecursive ast name) ->
        getRecursiveInfo ast = Ok None
        /\ exists trace,
             simulateRecursion ast maxDepth = Ok trace
             /\ (trace = [] \/ exists main, trace = mainFallback main)).
Proof.
  split; [reflexivity|]. split; [reflexivity|].
  split; [|split].
  - intros ast maxDepth Hnone.
    destruct ast as [|type name line children]; [split; reflexivity|].
    pose proof (no_declaration_empty_table _ Hnone) as Han.
    split.
    + apply Run_simulateRecursion.
      apply (Run_empty _ _ []); [discriminate | exact Han | reflexivity | reflexivity].
    + rewrite (getRecursiveInfo_analyse (Node type name line children) []
                 ltac:(discriminate) Han).
      reflexivity.
  - intros ast maxDepth Hn. split.
    + destruct (simulateRecursion_total ast maxDepth Hn) as (trace & ->).
      discriminate.
    + destruct (getRecursiveInfo_total ast Hn) as (info & ->).
      discriminate.
  - intros ast maxDepth Hn Hnone.
    assert (Hnn : ast <> Null) by (intros ->; discriminate).
    destruct (analyse_total ast Hn) as (fs & Han).
    pose proof (firstRecursive_none _ _ Han Hnone) as Hrf.
    split.
    + rewrite (getRecursiveInfo_analyse ast fs Hnn Han), Hrf. reflexivity.
    + destruct (Obj.get "main" fs) as [main|] eqn:Hm.
      * exists (mainFallback main). split; [|right; eauto].
        apply Run_simulateRecursion. eapply Run_main; eauto.
      * exists []. split; [|now left].
        apply Run_simulateRecursion. eapply Run_empty; eauto.
Qed.

Lemma null_and_recursion_free_input_witness :
  simulateRecursion noFunctionAST (Some (Int 5)) = Ok []
  /\ getRecursiveInfo noFunctionAST = Ok None
  /\ simulateRecursion factorialAST None <> TypeError
  /\ getRecursiveInfo mainOnlyAST = Ok None.
Proof.
  destruct null_and_recursion_free_input as (_ & _ & Hnodecl & Htotal & Hnorec).
  assert (Hnone : forall name, JS.truthy name = true -> ~ declares noFunctionAST name).
  { intros name _ (line & children & Hin). simpl in Hin.
    repeat (destruct Hin as [Hin|Hin]; [discriminate|]). destruct Hin. }
  assert (Hself : forall name, ~ selfRecursive mainOnlyAST name).
  { intros name (line & children & Hin & Hsites).
    simpl in Hin.
    repeat (destruct Hin as [Hin|Hin]; [try discriminate|]); [|destruct Hin].
    injection Hin as <- <- <-. apply Hsites. reflexivity. }
  split; [exact (proj1 (Hnodecl noFunctionAST (Some (Int 5)) Hnone))|].
  split; [exact (proj2 (Hnodecl noFunctionAST (Some (Int 5)) Hnone))|].
  split; [exact (proj1 (Htotal factorialAST None eq_refl))|].
  exact (proj1 (Hnorec mainOnlyAST None eq_refl Hself)).
Defined.

(** Outside the input contract, on a tree with a null entry among the
    children of a function declaration, both operations raise: the loop
    that collects the parameters reads [child.type] without the null test
    that the traversals make. *)
Example null_child_raises :
  (forall name, ~ selfRecursive nullChildAST name)
  /\ getRecursiveInfo nullChildAST = TypeError
  /\ simulateRecursion nullChildAST (Some (Int 5)) = TypeError.
Proof.
  split; [|split; reflexivity].
  intros name (line & children & Hin & Hsites).
  simpl in Hin.
  repeat (destruct Hin as [Hin|Hin]; [try discriminate|]); [|destruct Hin].
  injection Hin as <- <- <-. apply Hsites. reflexivity.
Qed.

(** ** Worked examples *)

(** Enumeration puts the array-index keys first, in numeric order. *)
Example keys_order :
  Obj.keys (Obj.set "2" 2 (Obj.set "a" 1 (Obj.set "10" 10 (Obj.set "b" 0 Obj.empty))))
  = ["2"; "10"; "b"; "a"].
Proof. reflexivity. Qed.

(** A name in an argument is not the callee. *)
Example callee_ignores_arguments :
  findCalleeFromFirstChild
    (Node "CALL_EXPR" "" 1 [refTo "apply" 1; refTo "factorial" 1; refTo "n" 1])
  = Some "apply".
Proof. reflexivity. Qed.

(** The two tests of the search are made node by node: a named node met
    first wins over a declaration reference below it. *)
Example callee_first_named_node :
  findCalleeFromFirstChild
    (Node "CALL_EXPR" "" 1
       [Node "MEMBER_REF_EXPR" "handler" 1 [Node "DECL_REF_EXPR" "table" 1 []]])
  = Some "handler".
Proof. reflexivity. Qed.

(** The source divides by 2; the simulation subtracts 2. *)
Example halve_descent :
  match simulateRecursion halveAST (Some (Int 7)) with
  | Ok trace => map summary trace
  | TypeError => []
  end
  = [ (push, Some (ArgNumber 7), None);
      (push, Some (ArgNumber 5), None);
      (push, Some (ArgNumber 3), None);
      (push, Some (ArgNumber 1), None);
      (pop, Some (ArgNumber 1), Some 1);
      (pop, Some (ArgNumber 3), Some 3);
      (pop, Some (ArgNumber 5), Some 5);
      (pop, Some (ArgNumber 7), Some 7) ].
Proof. vm_compute. reflexivity. Qed.

(** With a starting value of 30 the stack-size bound cuts the descent after
    21 frames. *)
Example truncated_descent :
  match simulateRecursion factorialAST (Some (Int 30)) with
  | Ok trace =>
      (length trace,
       map (fun e => Frame.depth (TraceEvent.frame e)) (filter isPush trace))
  | TypeError => (0%nat, [])
  end
  = (42%nat,
     [0; 1; 2; 3; 4; 5; 6; 7; 8; 9; 10; 11; 12; 13; 14; 15; 16; 17; 18; 19; 20]).
Proof. vm_compute. reflexivity. Qed.

(** * Further properties of the simulator and of its caller *)

(** ** The table of functions, read off the declarations *)

Lemma collectParams_spec children :
  forall params params',
    collectParams children params = Ok params' ->
    params' = params ++ paramNames children.
Proof.
  unfold paramNames.
  induction children as [|c cs IH]; intros params params' H; simpl in H.
  - injection H as <-. simpl. now rewrite app_nil_r.
  - destruct c as [|type name line children']; [discriminate|].
    apply IH in H. cbn [filter]. unfold isParam at 1. cbn [nodeType nodeName].
    destruct ((type =? "PARM_DECL")%string && JS.truthy name); [|exact H].
    rewrite H. cbn [map nodeName]. now rewrite <- app_assoc.
Qed.

Lemma fold_setDecl_declarations_children children :
  Forall (fun node =>
            forall functions functions',
              extractFunctions_traverse node functions = Ok functions' ->
              functions' = fold_left setDecl (declarations node) functions)
         children ->
  forall functions functions',
    extractFunctions_each children functions = Ok functions' ->
    functions'
    = fold_left setDecl (filter isNamedDecl (flat_map subnodes children)) functions.
Proof.
  induction 1 as [|c cs IHc _ IHcs]; intros functions functions' H.
  - now injection H as <-.
  - cbn [extractFunctions_each] in H.
    apply bind_Ok in H. destruct H as (fs1 & H1 & H).
    cbn [flat_map]. rewrite filter_app, fold_left_app.
    unfold declarations in IHc.
    rewrite <- (IHc _ _ H1). now apply IHcs.
Qed.

(** The traversal assigns the records of the named declarations one after
    the other, in depth-first order. *)
Lemma extractFunctions_traverse_fold node :
  forall functions functions',
    extractFunctions_traverse node functions = Ok functions' ->
    functions' = fold_left setDecl (declarations node) functions.
Proof.
  induction node as [|type name line children IH] using ASTNode_induction;
    intros functions functions' H.
  - now injection H as <-.
  - rewrite extractFunctions_traverse_Node in H.
    apply bind_Ok in H. destruct H as (fs1 & H1 & H).
    apply (fold_setDecl_declarations_children children IH) in H.
    unfold declarations. cbn [subnodes filter].
    unfold isNamedDecl at 1. cbn [nodeType nodeName].
    destruct ((type =? "FUNCTION_DECL")%string && JS.truthy name).
    + apply bind_Ok in H1. destruct H1 as (params & Hp & [= <-]).
      apply collectParams_spec in Hp. cbn [app] in Hp. subst params.
      exact H.
    + injection H1 as <-. exact H.
Qed.

Lemma get_set_other {V : Type} (k k' : string) (v : V) (o : Obj.t V) :
  k <> k' -> Obj.get k' (Obj.set k v o) = Obj.get k' o.
Proof.
  intros Hne. unfold Obj.set.
  destruct (k =? "__proto__")%string; [reflexivity|].
  now apply get_assign_other.
Qed.

Lemma get_fold_setDecl k decls :
  k <> "__proto__" ->
  forall functions,
    Obj.get k (fold_left setDecl decls functions)
    = match find (nameIs k) (rev decls) with
      | Some decl => Some (recordOf decl)
      | None => Obj.get k functions
      end.
Proof.
  intros Hk. induction decls as [|d ds IH]; intros functions; [reflexivity|].
  cbn [fold_left rev]. rewrite IH, find_app_first.
  destruct (find (nameIs k) (rev ds)); [reflexivity|].
  cbn [find]. unfold nameIs, setDecl.
  destruct (String.eqb_spec (nodeName d) k) as [E|E].
  - rewrite E. now apply get_set_new.
  - now apply get_set_other.
Qed.

(** X1. The record the table holds for a function is read off one named
    function declaration of the tree, its [body]: the name and the line are
    those of that node, and [params] lists the names of its direct
    parameter-declaration children that have a name, in their order. *)
Theorem record_fields_from_body
  (ast : ASTNode) (functions : Functions) (k : string) (func : FunctionRecord.t) :
  analyse ast = Ok functions ->
  Obj.get k functions = Some func ->
  In (FunctionRecord.body func) (declarations ast)
  /\ FunctionRecord.name func = k
  /\ nodeName (FunctionRecord.body func) = k
  /\ FunctionRecord.line func = nodeLine (FunctionRecord.body func)
  /\ FunctionRecord.params func
     = paramNames (nodeChildren (FunctionRecord.body func)).
Proof.
  intros Han Hget.
  destruct (analyse_Declared _ _ _ _ Han Hget)
    as (children & Hb & Hin & Hn & Hp & Ht).
  cbn [fst snd] in *.
  apply collectParams_spec in Hp. cbn [app] in Hp.
  rewrite Hb. cbn [nodeName nodeLine nodeChildren].
  repeat split; auto.
  unfold declarations. apply filter_In. split; [now rewrite <- Hb|].
  unfold isNamedDecl. cbn [nodeType nodeName]. now rewrite Ht.
Qed.

Lemma record_fields_from_body_witness :
  exists func,
    Obj.get "factorial"
      (match analyse factorialAST with Ok fs => fs | TypeError => [] end)
    = Some func
    /\ FunctionRecord.body func = factorialDecl
    /\ FunctionRecord.params func = ["n"]
    /\ FunctionRecord.line func = 3.
Proof.
  eexists. split; [vm_compute; reflexivity|].
  split; [reflexivity|].
  edestruct (fun fs => record_fields_from_body factorialAST fs "factorial")
    as (_ & _ & _ & Hl & Hp).
  - vm_compute. reflexivity.
  - vm_compute. reflexivity.
  - split; [exact Hp | exact Hl].
Defined.

(** X2. Under a name, the table holds the last declaration of that name in
    depth-first order: a later declaration replaces an earlier one, and a
    name is absent exactly when the tree has no named declaration for it.
    The name ["__proto__"] never gets a record. *)
Theorem last_declaration_wins
  (ast : ASTNode) (functions : Functions) (k : string) :
  analyse ast = Ok functions ->
  option_map FunctionRecord.body (Obj.get k functions)
  = if (k =? "__proto__")%string then None
    else find (nameIs k) (rev (declarations ast)).
Proof.
  unfold analyse. intros H.
  apply bind_Ok in H. destruct H as (fs & Hfs & [= <-]).
  rewrite get_detectRecursiveFunctions.
  apply extractFunctions_traverse_fold in Hfs. subst fs.
  destruct (String.eqb_spec k "__proto__") as [->|Hk].
  - assert (Hnone : forall decls functions,
               Obj.get "__proto__" functions = None ->
               Obj.get "__proto__" (fold_left setDecl decls functions) = None).
    { induction decls as [|d ds IH]; intros functions Hf; [exact Hf|].
      cbn [fold_left]. apply IH. unfold setDecl, Obj.set.
      destruct (String.eqb_spec (nodeName d) "__proto__") as [E|E]; [exact Hf|].
      now rewrite get_assign_other. }
    now rewrite (Hnone (declarations ast) Obj.empty eq_refl).
  - rewrite (get_fold_setDecl k (declarations ast) Hk Obj.empty).
    destruct (find (nameIs k) (rev (declarations ast))); reflexivity.
Qed.

Lemma last_declaration_wins_witness :
  option_map FunctionRecord.line
    (Obj.get "f"
       (match analyse
                (Node "TRANSLATION_UNIT" "" 0
                   [Node "FUNCTION_DECL" "f" 1 []; Node "FUNCTION_DECL" "f" 5 []])
        with Ok fs => fs | TypeError => [] end))
  = Some 5
  /\ option_map FunctionRecord.body
       (Obj.get "f"
          (match analyse
                   (Node "TRANSLATION_UNIT" "" 0
                      [Node "FUNCTION_DECL" "f" 1 []; Node "FUNCTION_DECL" "f" 5 []])
           with Ok fs => fs | TypeError => [] end))
     = Some (Node "FUNCTION_DECL" "f" 5 []).
Proof.
  split; [reflexivity|].
  exact (last_declaration_wins
           (Node "TRANSLATION_UNIT" "" 0
              [Node "FUNCTION_DECL" "f" 1 []; Node "FUNCTION_DECL" "f" 5 []])
           _ "f" eq_refl).
Defined.

(** ** The order in which the functions are considered *)

Lemma member_In s l : member s l = true <-> In s l.
Proof.
  unfold member. rewrite existsb_exists. split.
  - intros (x & Hx & E). apply String.eqb_eq in E. now subst.
  - intros H. exists s. split; [exact H | apply String.eqb_refl].
Qed.

Lemma map_fst_assign {V : Type} (k : string) (v : V) (o : Obj.t V) :
  map fst (Obj.assign k v o)
  = if member k (map fst o) then map fst o else map fst o ++ [k].
Proof.
  induction o as [|[k' v'] o IH]; [reflexivity|].
  cbn [Obj.assign map fst member existsb].
  rewrite (String.eqb_sym k k').
  destruct (k' =? k)%string; [reflexivity|].
  cbn [map fst orb]. rewrite IH.
  fold (member k (map fst o)).
  destruct (member k (map fst o)); reflexivity.
Qed.

Lemma map_fst_fold_setDecl decls :
  forall functions,
    map fst (fold_left setDecl decls functions)
    = fold_left (fun seen k => if member k seen then seen else seen ++ [k])
        (filter (fun k => negb (k =? "__proto__")%string) (map nodeName decls))
        (map fst functions).
Proof.
  induction decls as [|d ds IH]; intros functions; [reflexivity|].
  cbn [fold_left map filter]. rewrite IH. unfold setDecl, Obj.set.
  destruct (nodeName d =? "__proto__")%string; cbn [negb]; [reflexivity|].
  cbn [fold_left]. now rewrite map_fst_assign.
Qed.

Lemma map_fst_detectRecursiveFunctions functions :
  map fst (detectRecursiveFunctions functions) = map fst functions.
Proof.
  unfold detectRecursiveFunctions. rewrite map_map. reflexivity.
Qed.

(** Without array-index keys, enumeration is creation order. *)
Lemma keys_creation_order {V : Type} (o : Obj.t V) :
  (forall k, In k (map fst o) -> Obj.arrayIndex k = None) ->
  Obj.keys o = map fst o.
Proof.
  unfold Obj.keys. induction o as [|[k v] o IH]; intros H; [reflexivity|].
  cbn [Obj.indexKeys Obj.nameKeys map fst] in *.
  rewrite (H k (or_introl eq_refl)).
  assert (Ho : forall k', In k' (map fst o) -> Obj.arrayIndex k' = None)
    by (intros k' Hk'; apply H; now right).
  specialize (IH Ho).
  destruct (Obj.indexKeys o) as [|p l] eqn:E.
  - cbn [map app] in *. now rewrite IH.
  - exfalso. clear IH.
    assert (Hin : forall (o' : Obj.t V) q,
               In q (Obj.indexKeys o') ->
               exists k', In k' (map fst o') /\ Obj.arrayIndex k' <> None).
    { clear. induction o' as [|[k v] o' IH]; intros q Hq; [destruct Hq|].
      cbn [Obj.indexKeys] in Hq.
      destruct (Obj.arrayIndex k) as [n|] eqn:Ek.
      - exists k. split; [now left | congruence].
      - destruct (IH q Hq) as (k' & Hk' & Hn). exists k'. split; [now right | exact Hn]. }
    destruct (Hin o p) as (k' & Hk' & Hn); [rewrite E; now left|].
    apply Hn, Ho, Hk'.
Qed.

(** X3. The functions are enumerated in the order in which their names
    first appear among the declarations, whatever is redeclared later
    (names that read as array indices apart, which JavaScript enumerates
    first): so the function that [getRecursiveInfo] reports and
    [simulateRecursion] simulates is the first flagged one in that order. *)
Theorem functions_in_declaration_order
  (ast : ASTNode) (functions : Functions) :
  analyse ast = Ok functions ->
  (forall k, In k (tableNames ast) -> Obj.arrayIndex k = None) ->
  Obj.keys functions = tableNames ast
  /\ firstRecursive functions
     = find (fun k => match Obj.get k functions with
                      | Some func => FunctionRecord.isRecursive func
                      | None => false
                      end)
            (tableNames ast).
Proof.
  unfold analyse. intros H Hidx.
  apply bind_Ok in H. destruct H as (fs & Hfs & [= <-]).
  apply extractFunctions_traverse_fold in Hfs.
  assert (Hnames : map fst (detectRecursiveFunctions fs) = tableNames ast).
  { rewrite map_fst_detectRecursiveFunctions, Hfs, map_fst_fold_setDecl.
    reflexivity. }
  assert (Hkeys : Obj.keys (detectRecursiveFunctions fs) = tableNames ast).
  { rewrite keys_creation_order; [exact Hnames|].
    intros k Hk. apply Hidx. now rewrite <- Hnames. }
  split; [exact Hkeys|].
  unfold firstRecursive. now rewrite Hkeys.
Qed.

Lemma functions_in_declaration_order_witness :
  Obj.keys
    (match analyse
             (Node "TRANSLATION_UNIT" "" 0
                [Node "FUNCTION_DECL" "g" 1 []; mainDecl; factorialDecl;
                 Node "FUNCTION_DECL" "g" 20 []])
     with Ok fs => fs | TypeError => [] end)
  = ["g"; "main"; "factorial"].
Proof.
  refine (proj1 (functions_in_declaration_order
                   (Node "TRANSLATION_UNIT" "" 0
                      [Node "FUNCTION_DECL" "g" 1 []; mainDecl; factorialDecl;
                       Node "FUNCTION_DECL" "g" 20 []])
                   _ eq_refl _)).
  intros k Hk. vm_compute in Hk.
  destruct Hk as [<-|[<-|[<-|[]]]]; reflexivity.
Defined.

(** ** The calls found in a body *)

Lemma findCalleeFromFirstChild_truthy n callee :
  findCalleeFromFirstChild n = Some callee -> JS.truthy callee = true.
Proof.
  destruct n as [|type name line [|c cs]]; try discriminate.
  cbn [findCalleeFromFirstChild]. rewrite searchForName_spec.
  destruct (find answers (subnodes c)) as [m|] eqn:Hm; [|discriminate].
  apply find_some in Hm. destruct Hm as [_ Hm].
  intros [= <-]. now apply answers_truthy.
Qed.

Section Calls_invariant.

Variable funcNames : list string.
Variable body : ASTNode.

Lemma recordCall_CallsInv type name line children st :
  In (Node type name line children) (subnodes body) ->
  (type =? "CALL_EXPR")%string = true ->
  CallsInv funcNames body st ->
  CallsInv funcNames body
    (recordCall funcNames (Node type name line children) line st).
Proof.
  intros Hin Ht (Hkeys & Hnd & Hall). unfold recordCall.
  destruct (findCalleeFromFirstChild (Node type name line children))
    as [callee|] eqn:Hc; [|now repeat split].
  destruct (JS.truthy callee && member callee funcNames) eqn:Hknown;
    [|now repeat split].
  apply andb_prop in Hknown. destruct Hknown as [Htr Hmem].
  destruct (member _ (snd st)) eqn:Hseen; [now repeat split|].
  split; [|split]; cbn [fst snd].
  - rewrite map_app, Hkeys. reflexivity.
  - constructor; [|exact Hnd].
    intros Hk. apply member_In in Hk. congruence.
  - apply Forall_app. split; [exact Hall|].
    constructor; [|constructor]. cbn [CallSite.name CallSite.line].
    split; [exact Htr|]. split; [now apply member_In|].
    exists (Node type name line children). split; [exact Hin|].
    split; [|reflexivity].
    unfold isCallTo. cbn [nodeType]. rewrite Ht, Hc. simpl.
    apply String.eqb_refl.
Qed.

Lemma findAllCalls_each_CallsInv children :
  Forall (fun node =>
            incl (subnodes node) (subnodes body) ->
            forall st, CallsInv funcNames body st ->
                       CallsInv funcNames body
                         (findAllCalls_traverse funcNames node st))
         children ->
  (forall c, In c children -> incl (subnodes c) (subnodes body)) ->
  forall st, CallsInv funcNames body st ->
             CallsInv funcNames body (findAllCalls_each funcNames children st).
Proof.
  induction 1 as [|c cs IHc _ IHcs]; intros Hcs st Hst; [exact Hst|].
  cbn [findAllCalls_each].
  apply (IHcs (fun c' Hc' => Hcs c' (or_intror Hc'))).
  apply (IHc (Hcs c (or_introl eq_refl)) st Hst).
Qed.

Lemma findAllCalls_traverse_CallsInv node :
  incl (subnodes node) (subnodes body) ->
  forall st, CallsInv funcNames body st ->
             CallsInv funcNames body (findAllCalls_traverse funcNames node st).
Proof.
  induction node as [|type name line children IH] using ASTNode_induction;
    intros Hsub st Hst; [exact Hst|].
  rewrite findAllCalls_traverse_Node.
  apply (findAllCalls_each_CallsInv children IH).
  - intros c Hc. eapply incl_tran; [|exact Hsub]. now apply subnodes_child.
  - destruct (type =? "CALL_EXPR")%string eqn:Ht; [|exact Hst].
    apply recordCall_CallsInv; auto. apply Hsub, subnodes_self.
Qed.

(** The [seen] set only grows, and after a node has been visited it holds
    the key of every known call below the node. *)
Lemma recordCall_seen type name line children st :
  incl (snd st) (snd (recordCall funcNames (Node type name line children) line st))
  /\ (forall callee,
        findCalleeFromFirstChild (Node type name line children) = Some callee ->
        In callee funcNames ->
        In (callee ++ "-" ++ JS.toString line)%string
           (snd (recordCall funcNames (Node type name line children) line st))).
Proof.
  unfold recordCall.
  destruct (findCalleeFromFirstChild (Node type name line children))
    as [callee|] eqn:Hc.
  - destruct (JS.truthy callee && member callee funcNames) eqn:Hknown.
    + destruct (member _ (snd st)) eqn:Hseen.
      * split; [apply incl_refl|].
        intros c [= <-] _. now apply member_In.
      * split; [apply incl_tl, incl_refl|].
        intros c [= <-] _. now left.
    + split; [apply incl_refl|].
      intros c [= <-] Hin. exfalso.
      rewrite (findCalleeFromFirstChild_truthy _ _ Hc) in Hknown.
      apply member_In in Hin. rewrite Hin in Hknown. discriminate.
  - split; [apply incl_refl | discriminate].
Qed.

Lemma findAllCalls_traverse_seen node :
  forall st,
    incl (snd st) (snd (findAllCalls_traverse funcNames node st))
    /\ (forall n callee,
          In n (subnodes node) -> knownCall funcNames callee n ->
          In (callee ++ "-" ++ JS.toString (nodeLine n))%string
             (snd (findAllCalls_traverse funcNames node st))).
Proof.
  induction node as [|type name line children IH] using ASTNode_induction;
    intros st.
  - split; [apply incl_refl | intros n callee []].
  - rewrite findAllCalls_traverse_Node.
    set (st1 := if (type =? "CALL_EXPR")%string
                then recordCall funcNames (Node type name line children) line st
                else st).
    assert (H1 : incl (snd st) (snd st1)
                 /\ (forall callee,
                       knownCall funcNames callee (Node type name line children) ->
                       In (callee ++ "-" ++ JS.toString line)%string (snd st1))).
    { subst st1. destruct (String.eqb_spec type "CALL_EXPR") as [Ht|Ht].
      - destruct (recordCall_seen type name line children st) as [Hi Hk].
        split; [exact Hi|]. intros callee (_ & Hc & Hin). now apply Hk.
      - split; [apply incl_refl|]. intros callee (Hty & _). now cbn in Hty. }
    destruct H1 as [Hi1 Hk1]. clearbody st1.
    assert (Heach : forall cs st',
               Forall (fun node => forall st,
                         incl (snd st) (snd (findAllCalls_traverse funcNames node st))
                         /\ (forall n callee,
                               In n (subnodes node) -> knownCall funcNames callee n ->
                               In (callee ++ "-" ++ JS.toString (nodeLine n))%string
                                  (snd (findAllCalls_traverse funcNames node st))))
                      cs ->
               incl (snd st') (snd (findAllCalls_each funcNames cs st'))
               /\ (forall n callee,
                     In n (flat_map subnodes cs) -> knownCall funcNames callee n ->
                     In (callee ++ "-" ++ JS.toString (nodeLine n))%string
                        (snd (findAllCalls_each funcNames cs st')))).
    { clear. induction cs as [|c cs IHcs]; intros st' HF.
      - split; [apply incl_refl | intros n callee []].
      - inversion HF as [|? ? Hc Hrest]; subst.
        cbn [findAllCalls_each flat_map].
        destruct (Hc st') as [Hi Hk].
        destruct (IHcs (findAllCalls_traverse funcNames c st') Hrest) as [Hi' Hk'].
        split; [eapply incl_tran; eauto|].
        intros n callee Hn Hkn. apply in_app_or in Hn.
        destruct Hn as [Hn|Hn]; [apply Hi'; eauto | eauto]. }
    destruct (Heach children st1 IH) as [Hi Hk].
    split; [eapply incl_tran; eauto|].
    intros n callee Hn Hkn. cbn [subnodes] in Hn.
    destruct Hn as [<-|Hn]; [|eauto].
    apply Hi. cbn [nodeLine]. now apply Hk1.
Qed.

End Calls_invariant.

(** X4. [findAllCalls] returns each call once: the calls have pairwise
    distinct keys, hence distinct (name, line) pairs.  Every call it returns
    names a function of [funcNames], never the empty name, and stands for a
    call expression of the body on that line that resolves to that name.
    Conversely every call expression of the body that resolves to a name of
    [funcNames] is covered: a returned call has its key. *)
Theorem findAllCalls_distinct_and_known
  (body : ASTNode) (funcNames : list string) :
  NoDup (map keyOf (findAllCalls body funcNames))
  /\ NoDup (findAllCalls body funcNames)
  /\ (forall c,
        In c (findAllCalls body funcNames) ->
        In (CallSite.name c) funcNames
        /\ CallSite.name c <> ""
        /\ exists n,
             In n (subnodes body)
             /\ isCallTo (CallSite.name c) n = true
             /\ nodeLine n = CallSite.line c)
  /\ (forall n callee,
        In n (subnodes body) -> knownCall funcNames callee n ->
        exists c,
          In c (findAllCalls body funcNames)
          /\ keyOf c = (callee ++ "-" ++ JS.toString (nodeLine n))%string).
Proof.
  unfold findAllCalls.
  assert (Hinit : CallsInv funcNames body ([], [])).
  { split; [reflexivity|]. split; constructor. }
  pose proof (findAllCalls_traverse_CallsInv funcNames body body
                (incl_refl _) ([], []) Hinit) as (Hkeys & Hnd & Hall).
  destruct (findAllCalls_traverse_seen funcNames body ([], [])) as [_ Hseen].
  set (st := findAllCalls_traverse funcNames body ([], [])) in *.
  assert (Hndk : NoDup (map keyOf (fst st))).
  { rewrite Hkeys. now apply NoDup_rev. }
  split; [exact Hndk|].
  split; [eapply NoDup_map_inv; exact Hndk|].
  split.
  - intros c Hc. rewrite Forall_forall in Hall.
    destruct (Hall c Hc) as (Ht & Hin & Hn).
    split; [exact Hin|]. split; [|exact Hn].
    intros E. rewrite E in Ht. discriminate.
  - intros n callee Hn Hk.
    specialize (Hseen n callee Hn Hk).
    apply in_rev in Hseen. rewrite <- Hkeys in Hseen.
    apply in_map_iff in Hseen. destruct Hseen as (c & E & Hc). eauto.
Qed.

(** ** What the recursion flag means, exactly *)

Lemma In_insertIndex n k l q :
  In q (Obj.insertIndex n k l) <-> q = (n, k) \/ In q l.
Proof.
  induction l as [|[n' k'] l IH]; cbn [Obj.insertIndex].
  - simpl. intuition congruence.
  - destruct (n <? n'); simpl in *; [intuition congruence|].
    rewrite IH. intuition congruence.
Qed.

Lemma keys_In {V : Type} (o : Obj.t V) k :
  In k (Obj.keys o) <-> In k (map fst o).
Proof.
  unfold Obj.keys. rewrite in_app_iff.
  induction o as [|[k' v] o IH]; [simpl; tauto|].
  cbn [Obj.indexKeys Obj.nameKeys map fst].
  destruct (Obj.arrayIndex k') as [n|].
  - rewrite in_map_iff.
    assert (E : (exists x, snd x = k /\ In x (Obj.insertIndex n k' (Obj.indexKeys o)))
                <-> k' = k \/ In k (map snd (Obj.indexKeys o))).
    { split.
      - intros ([n0 k0] & E & Hin). apply In_insertIndex in Hin.
        destruct Hin as [[= -> ->]|Hin]; [now left|].
        right. apply in_map_iff. eauto.
      - intros [<-|Hin].
        + exists (n, k'). split; [reflexivity|]. apply In_insertIndex. now left.
        + apply in_map_iff in Hin. destruct Hin as (x & E & Hin).
          exists x. split; [exact E|]. apply In_insertIndex. now right. }
    rewrite E. simpl. tauto.
  - simpl. tauto.
Qed.

Lemma get_In_fst {V : Type} (k : string) (o : Obj.t V) (v : V) :
  Obj.get k o = Some v -> In k (map fst o).
Proof.
  intros H. apply get_In in H. apply in_map_iff. now exists (k, v).
Qed.

Lemma keys_detectRecursiveFunctions functions k :
  In k (Obj.keys (detectRecursiveFunctions functions))
  <-> In k (Obj.keys functions).
Proof.
  now rewrite !keys_In, map_fst_detectRecursiveFunctions.
Qed.

(** A key tells the name of the call apart when names hold no dash. *)
Lemma key_name_inj k k' s s' :
  noDash k = true -> noDash k' = true ->
  (k ++ "-" ++ s)%string = (k' ++ "-" ++ s')%string -> k = k'.
Proof.
  revert k'. induction k as [|c k IH]; intros [|c' k'] Hk Hk' E; simpl in *.
  - reflexivity.
  - injection E as E _. subst c'. discriminate.
  - injection E as E _. subst c. discriminate.
  - injection E as -> E.
    apply andb_prop in Hk, Hk'. f_equal. apply IH; tauto.
Qed.

(** X5. For function names without a dash (as C identifiers are), the flag
    says exactly what the glossary says: a function is flagged if and only
    if its body holds a call expression that resolves to its own name.  In
    particular a function that is only part of a mutual recursion is not
    flagged. *)
Theorem flagged_iff_calls_itself
  (ast : ASTNode) (functions : Functions) (k : string) (func : FunctionRecord.t) :
  analyse ast = Ok functions ->
  (forall name, In name (Obj.keys functions) -> noDash name = true) ->
  Obj.get k functions = Some func ->
  (FunctionRecord.isRecursive func = true
   <-> callSites k (FunctionRecord.body func) <> []).
Proof.
  intros Han Hdash Hget. split.
  - now apply (analyse_isRecursive ast functions).
  - intros Hsites.
    assert (Hk : In k (Obj.keys functions))
      by (apply keys_In; eapply get_In_fst; eauto).
    unfold analyse in Han.
    apply bind_Ok in Han. destruct Han as (fs & _ & [= <-]).
    rewrite get_detectRecursiveFunctions in Hget.
    destruct (Obj.get k fs) as [func0|]; [|discriminate].
    injection Hget as <-.
    change (FunctionRecord.body (markRecursive (Obj.keys fs) k func0))
      with (FunctionRecord.body func0) in Hsites.
    unfold markRecursive. cbn [FunctionRecord.isRecursive].
    destruct (callSites k (FunctionRecord.body func0)) as [|n rest] eqn:Hcs;
      [congruence|].
    assert (Hn : In n (callSites k (FunctionRecord.body func0)))
      by (rewrite Hcs; now left).
    apply filter_In in Hn. destruct Hn as [Hn Hcall].
    unfold isCallTo in Hcall. apply andb_prop in Hcall.
    destruct Hcall as [Hty Hcallee]. apply String.eqb_eq in Hty.
    destruct (findCalleeFromFirstChild n) as [callee|] eqn:Hc; [|discriminate].
    apply String.eqb_eq in Hcallee. subst callee.
    assert (Hknown : knownCall (Obj.keys fs) k n).
    { split; [exact Hty|]. split; [exact Hc|].
      now apply keys_detectRecursiveFunctions. }
    destruct (findAllCalls_traverse_seen (Obj.keys fs) (FunctionRecord.body func0)
                ([], [])) as [_ Hseen].
    specialize (Hseen n k Hn Hknown).
    pose proof (findAllCalls_traverse_CallsInv (Obj.keys fs)
                  (FunctionRecord.body func0) (FunctionRecord.body func0)
                  (incl_refl _) ([], [])
                  (conj eq_refl (conj (NoDup_nil _) (Forall_nil _))))
      as (Hkeys & _ & Hall).
    apply in_rev in Hseen. rewrite <- Hkeys in Hseen.
    apply in_map_iff in Hseen. destruct Hseen as (c & E & Hcin).
    apply existsb_exists. exists c. split; [exact Hcin|].
    apply String.eqb_eq.
    rewrite Forall_forall in Hall. destruct (Hall c Hcin) as (_ & Hcn & _).
    unfold keyOf in E.
    apply (key_name_inj _ _ _ _
             (Hdash _ (proj2 (keys_detectRecursiveFunctions fs _) Hcn))
             (Hdash _ Hk) E).
Qed.

Lemma flagged_iff_calls_itself_witness :
  exists func,
    Obj.get "factorial"
      (match analyse factorialAST with Ok fs => fs | TypeError => [] end)
    = Some func
    /\ FunctionRecord.isRecursive func = true
    /\ callSites "factorial" (FunctionRecord.body func) <> [].
Proof.
  eexists. split; [vm_compute; reflexivity|].
  split; [reflexivity|].
  refine (proj1 (flagged_iff_calls_itself factorialAST _ "factorial" _
                   eq_refl _ eq_refl) eq_refl).
  intros name Hname. vm_compute in Hname.
  destruct Hname as [<-|[]]. reflexivity.
Defined.

(** ** Invariants of the simulated descent *)

(** What holds of the arguments of every call of a descent ([Inv]) gives
    what holds of every event it appends ([Q]). *)
Lemma Descent_invariant functions stepInfo maxDepth funcName
  (Inv : Z -> Z -> list Frame.t -> Prop) (Q : TraceEvent.t -> Prop) :
  (forall argValue depth stack func,
      exceeds depth maxDepth || (20 <? length stack)%nat = false ->
      Obj.get funcName functions = Some func ->
      Inv argValue depth stack ->
      Q (pushEvent funcName argValue (newFrame funcName func argValue depth)
           (stack ++ [newFrame funcName func argValue depth]))
      /\ Q (popEvent funcName argValue (newFrame funcName func argValue depth)
              (argValue <=? 1) stack)) ->
  (forall argValue depth stack func,
      exceeds depth maxDepth || (20 <? length stack)%nat = false ->
      Obj.get funcName functions = Some func ->
      FunctionRecord.isRecursive func && negb (argValue <=? 1) = true ->
      Inv argValue depth stack ->
      Inv (nextArgument stepInfo argValue) (depth + 1)
        (stack ++ [newFrame funcName func argValue depth])) ->
  forall argValue depth stack events,
    Descent functions stepInfo maxDepth funcName argValue depth stack events ->
    Inv argValue depth stack ->
    forall e, In e events -> Q e.
Proof.
  intros HQ Hnext argValue depth stack events HD.
  induction HD as [| | a d st func Hgo Hget Hrec
                  | a d st func inner Hgo Hget Hrec HD IH];
    intros HI e He.
  - destruct He.
  - destruct He.
  - destruct (HQ a d st func Hgo Hget HI) as [Hpush Hpop].
    destruct He as [<-|[<-|[]]]; assumption.
  - destruct (HQ a d st func Hgo Hget HI) as [Hpush Hpop].
    destruct He as [<-|He]; [exact Hpush|].
    apply in_app_or in He. destruct He as [He|[<-|[]]]; [|exact Hpop].
    apply IH; [|exact He]. now apply (Hnext a d st func).
Qed.

(** A run that selects a function is the descent of [simulateCall] for
    it. *)
Lemma simulateRecursion_descent ast maxDepth functions recursiveFunc trace :
  analyse ast = Ok functions ->
  firstRecursive functions = Some recursiveFunc ->
  simulateRecursion ast maxDepth = Ok trace ->
  exists stepInfo,
    inferStep functions recursiveFunc = Ok stepInfo
    /\ trace = simulateCall functions stepInfo (effectiveDepth maxDepth)
                 recursiveFunc (initialValue (effectiveDepth maxDepth)) 0 [] []
    /\ Descent functions stepInfo (effectiveDepth maxDepth) recursiveFunc
         (initialValue (effectiveDepth maxDepth)) 0 [] trace.
Proof.
  intros Han Hrf H. apply simulateRecursion_Run in H.
  destruct H as [->|fs rf step _ Han' Hrf' Hstep|fs main _ Han' Hrf' _
                |fs _ Han' Hrf' _].
  - apply analyse_Null in Han. subst functions. discriminate.
  - assert (fs = functions) by congruence. subst fs.
    assert (rf = recursiveFunc) by congruence. subst rf.
    exists step. split; [exact Hstep|]. split; [reflexivity|].
    apply simulateCall_Descent.
  - congruence.
  - congruence.
Qed.

(** What a non-null summary says about the analysis. *)
Lemma getRecursiveInfo_Some ast info :
  getRecursiveInfo ast = Ok (Some info) ->
  exists functions func,
    analyse ast = Ok functions
    /\ firstRecursive functions = Some (RecursiveInfo.name info)
    /\ Obj.get (RecursiveInfo.name info) functions = Some func
    /\ FunctionRecord.isRecursive func = true
    /\ RecursiveInfo.params info = FunctionRecord.params func
    /\ RecursiveInfo.line info = FunctionRecord.line func.
Proof.
  unfold getRecursiveInfo. destruct ast as [|type name line children];
    [discriminate|].
  intros H. apply bind_Ok in H. destruct H as (fs & Hfs & H).
  exists (detectRecursiveFunctions fs).
  destruct (firstRecursive (detectRecursiveFunctions fs)) as [rf|] eqn:Hrf;
    [|discriminate].
  destruct (firstRecursive_get _ _ Hrf) as (func & Hget & Hrec).
  rewrite Hget in H. injection H as <-. cbn.
  exists func. unfold analyse. rewrite Hfs. cbn. auto 10.
Qed.

Lemma inferStep_operator functions recursiveFunc stepInfo :
  inferStep functions recursiveFunc = Ok stepInfo ->
  StepRule.operator stepInfo = "-".
Proof.
  unfold inferStep.
  destruct (Obj.get recursiveFunc functions) as [func|]; [|discriminate].
  intros H. apply bind_Ok in H. destruct H as ([site|] & _ & H).
  - apply bind_Ok in H. destruct H as ([rule|] & Hd & H); injection H as <-.
    + now apply (detectRecursiveStep_operator site).
    + reflexivity.
  - now injection H as <-.
Qed.

Lemma nextArgument_lt stepInfo argValue :
  StepRule.operator stepInfo <> "+" ->
  1 < argValue <= 2 ^ 53 ->
  nextArgument stepInfo argValue < argValue.
Proof.
  intros Hop Ha. unfold nextArgument.
  apply String.eqb_neq in Hop. rewrite Hop. cbn [negb].
  rewrite (roundToDouble_exact (argValue - 1)) by lia.
  repeat match goal with
         | |- context [if ?b then _ else _] => destruct b eqn:?
         end;
    try rewrite andb_true_r in *; try lia;
    repeat match goal with
           | H : (_ <=? _) = false |- _ => apply Z.leb_gt in H
           end; lia.
Qed.

(** ** The trace and the summary of [getRecursiveInfo] agree *)

Lemma Forall_snoc {A : Type} (P : A -> Prop) (l : list A) (x : A) :
  Forall P l -> P x -> Forall P (l ++ [x]).
Proof.
  intros Hl Hx. apply Forall_app. split; [exact Hl|]. now constructor.
Qed.



(** ** When nothing is reported *)

(** X7. Whenever [simulateRecursion] returns a trace, [getRecursiveInfo]
    returns as well, and if it reports no function the trace does not depend
    on the depth argument: it is the same for every bound, and it has no
    event or the two of the [main] fallback. *)
Theorem no_info_trace_ignores_depth
  (ast : ASTNode) (maxDepth : option Num) (trace : list TraceEvent.t) :
  simulateRecursion ast maxDepth = Ok trace ->
  exists info,
    getRecursiveInfo ast = Ok info
    /\ (info = None ->
        (forall maxDepth', simulateRecursion ast maxDepth' = Ok trace)
        /\ (trace = [] \/ map TraceEvent.stack trace = [["main"]; []])).
Proof.
  intros H. apply simulateRecursion_Run in H.
  destruct H as [->|fs rf step Hn Han Hrf Hstep|fs main Hn Han Hrf Hm
                |fs Hn Han Hrf Hm].
  - exists None. split; [reflexivity|]. intros _. split; [|now left].
    reflexivity.
  - rewrite (getRecursiveInfo_analyse _ _ Hn Han), Hrf.
    destruct (firstRecursive_get _ _ Hrf) as (func & -> & _).
    eexists. split; [reflexivity|]. discriminate.
  - rewrite (getRecursiveInfo_analyse _ _ Hn Han), Hrf.
    exists None. split; [reflexivity|]. intros _. split; [|now right].
    intros md'. apply Run_simulateRecursion. now apply (Run_main _ _ fs).
  - rewrite (getRecursiveInfo_analyse _ _ Hn Han), Hrf.
    exists None. split; [reflexivity|]. intros _. split; [|now left].
    intros md'. apply Run_simulateRecursion. now apply (Run_empty _ _ fs).
Qed.

Lemma no_info_trace_ignores_depth_witness :
  getRecursiveInfo mainOnlyAST = Ok None
  /\ simulateRecursion mainOnlyAST (Some (Int 7))
     = simulateRecursion mainOnlyAST (Some (Int 2)).
Proof.
  destruct (no_info_trace_ignores_depth mainOnlyAST (Some (Int 2))
              (mainFallback (FunctionRecord.mk "main" 10 [] mainDecl false [])))
    as (info & Hinfo & Hnone).
  - vm_compute. reflexivity.
  - assert (E : info = None).
    { vm_compute in Hinfo. now injection Hinfo as <-. }
    split; [rewrite Hinfo; now rewrite E|].
    destruct (Hnone E) as [Hall _].
    now rewrite (Hall (Some (Int 7))), (Hall (Some (Int 2))).
Defined.

(** ** The stack snapshots *)

Lemma map_depth_snoc (l : list Frame.t) (f : Frame.t) :
  map Frame.depth l = map Z.of_nat (seq 0 (length l)) ->
  Frame.depth f = Z.of_nat (length l) ->
  map Frame.depth (l ++ [f])
  = map Z.of_nat (seq 0 (length (l ++ [f]))).
Proof.
  intros Hl Hf. rewrite length_app. cbn [length].
  rewrite Nat.add_1_r, seq_S, !map_app, Hl. cbn. now rewrite Hf.
Qed.

(** X8. In every event of a trace the list of names is the list of the
    names of the snapshot frames, the frame at position k of the snapshot
    has depth k, and the event's own frame has the depth of the stack below
    it: the snapshot of a push holds one frame more than that depth, the
    snapshot of a pop exactly as many. *)
Theorem snapshot_structure
  (ast : ASTNode) (maxDepth : option Num) (trace : list TraceEvent.t) :
  simulateRecursion ast maxDepth = Ok trace ->
  forall e, In e trace ->
    TraceEvent.stack e = map Frame.name (TraceEvent.fullStack e)
    /\ map Frame.depth (TraceEvent.fullStack e)
       = map Z.of_nat (seq 0 (length (TraceEvent.fullStack e)))
    /\ Z.of_nat (length (TraceEvent.fullStack e))
       = Frame.depth (TraceEvent.frame e) + (if isPush e then 1 else 0).
Proof.
  intros H. apply simulateRecursion_Run in H.
  destruct H as [->|fs rf step _ _ _ _|fs main _ _ _ _|fs _ _ _ _].
  - intros e [].
  - refine (Descent_invariant fs step (effectiveDepth maxDepth) rf
              (fun _ depth stack =>
                 depth = Z.of_nat (length stack)
                 /\ map Frame.depth stack = map Z.of_nat (seq 0 (length stack)))
              _ _ _ _ _ _ _ (simulateCall_Descent _ _ _ _ _ _ _) _).
    + intros a d st func _ _ [Hd Hst]. split; cbn.
      * split; [reflexivity|]. split.
        -- now apply map_depth_snoc.
        -- rewrite length_app. cbn. lia.
      * split; [reflexivity|]. split; [exact Hst|]. lia.
    + intros a d st func _ _ _ [Hd Hst]. split.
      * rewrite length_app. cbn. lia.
      * now apply map_depth_snoc.
    + split; reflexivity.
  - intros e [<-|[<-|[]]]; cbn; auto.
  - intros e [].
Qed.

Lemma snapshot_structure_witness :
  Forall (fun e => TraceEvent.stack e = map Frame.name (TraceEvent.fullStack e))
    (match simulateRecursion factorialAST (Some (Int 3)) with
     | Ok trace => trace
     | TypeError => []
     end).
Proof.
  apply Forall_forall. intros e He.
  refine (proj1 (snapshot_structure factorialAST (Some (Int 3)) _ _ e He)).
  vm_compute. reflexivity.
Defined.

(** ** The argument of the next call *)

Lemma nextArgument_minus (stepInfo : StepRule.t) (argValue : Z) :
  StepRule.operator stepInfo = "-" ->
  1 < argValue <= 2 ^ 53 ->
  StepRule.value stepInfo <= 2 ^ 53 ->
  nextArgument stepInfo argValue
  = argValue - (if 0 <? StepRule.value stepInfo
                then StepRule.value stepInfo
                else 1).
Proof.
  intros Hop Ha Hv. unfold nextArgument. rewrite Hop. cbn.
  rewrite andb_true_r.
  rewrite (roundToDouble_exact (argValue - 1)) by lia.
  destruct (0 <? StepRule.value stepInfo) eqn:Hpos.
  - apply Z.ltb_lt in Hpos.
    rewrite (roundToDouble_exact (argValue - StepRule.value stepInfo)) by lia.
    destruct (argValue <=? argValue - StepRule.value stepInfo) eqn:Hle;
      [apply Z.leb_le in Hle; lia | reflexivity].
  - apply Z.ltb_ge in Hpos.
    destruct (argValue <=? JS.roundToDouble (argValue - StepRule.value stepInfo))
      eqn:Hle; [reflexivity|].
    apply Z.leb_gt in Hle.
    destruct (Z_le_gt_dec (2 ^ 53) (argValue - StepRule.value stepInfo))
      as [Hbig|Hsmall].
    + pose proof (roundToDouble_large _ Hbig). lia.
    + rewrite roundToDouble_exact in Hle by lia. lia.
Qed.

(** X9. For an argument above 1 that is a double holding its integer
    exactly (at most 2^53), with any operator other than ["+"] the next
    argument is strictly smaller than the current one, whatever the step
    value; with ["-"] and a step value of at most 2^53 it is the current
    argument less the step value when that value is positive, and the
    current argument less 1 otherwise. *)
Theorem nextArgument_decreases (stepInfo : StepRule.t) (argValue : Z) :
  1 < argValue <= 2 ^ 53 ->
  (StepRule.operator stepInfo <> "+" ->
   nextArgument stepInfo argValue < argValue)
  /\ (StepRule.operator stepInfo = "-" ->
      StepRule.value stepInfo <= 2 ^ 53 ->
      nextArgument stepInfo argValue
      = if 0 <? StepRule.value stepInfo
        then argValue - StepRule.value stepInfo
        else argValue - 1).
Proof.
  intros Ha. split.
  - intros Hop. now apply nextArgument_lt.
  - intros Hop Hv. rewrite (nextArgument_minus _ _ Hop Ha Hv).
    now destruct (0 <? StepRule.value stepInfo).
Qed.

Lemma nextArgument_decreases_witness :
  nextArgument (StepRule.mk "/" 0) 9 < 9
  /\ nextArgument (StepRule.mk "-" (-3)) 9 = 8.
Proof.
  split.
  - refine (proj1 (nextArgument_decreases (StepRule.mk "/" 0) 9 _) _).
    + cbn. lia.
    + discriminate.
  - refine (proj2 (nextArgument_decreases (StepRule.mk "-" (-3)) 9 _) _ _).
    + cbn. lia.
    + reflexivity.
    + cbn. lia.
Defined.

(** The double rounds back where the exact difference cannot go: from 2^54
    the argument less 1 is the argument again. *)
Example next_argument_beyond_exact_range :
  nextArgument defaultStep (2 ^ 54) = 2 ^ 54.
Proof. reflexivity. Qed.

(** ** Arguments along the stack *)

Lemma ForallOrdPairs_snoc {A : Type} (R : A -> A -> Prop) (l : list A) (x : A) :
  ForallOrdPairs R l -> Forall (fun y => R y x) l ->
  ForallOrdPairs R (l ++ [x]).
Proof.
  induction 1 as [|y l Hy Hl IH]; intros Hx; cbn.
  - constructor; constructor.
  - inversion Hx as [|? ? Hyx Hlx]; subst.
    constructor; [|now apply IH].
    apply Forall_app. split; [exact Hy|]. now constructor.
Qed.

Lemma initialValue_safe maxDepth :
  safeDepth maxDepth ->
  initialValue (effectiveDepth maxDepth) <= 2 ^ 53
  /\ forall d, effectiveDepth maxDepth = Int d -> initialValue (Int d) = d.
Proof.
  unfold safeDepth. destruct (effectiveDepth maxDepth) as [d|]; intros Hd.
  - assert (E : initialValue (Int d) = d).
    { cbn [initialValue]. apply parseIntOfNumber_small. lia. }
    rewrite E. split; [lia|]. now intros d' [= <-].
  - split; [cbn; lia|discriminate].
Qed.

Lemma recursive_call_argument func argValue :
  FunctionRecord.isRecursive func && negb (argValue <=? 1) = true ->
  1 < argValue.
Proof.
  intros H. apply andb_prop in H. destruct H as [_ H].
  apply negb_true_iff, Z.leb_gt in H. exact H.
Qed.

(** X10. When [maxDepth] is a double that holds its integer exactly (at
    most 2^53 in magnitude, or NaN), in every stack snapshot of a trace the
    arguments strictly decrease from the bottom frame to the top one, and
    the frame a pop event removes has a smaller argument than every frame
    left on the stack. *)
Theorem arguments_decrease_along_stack
  (ast : ASTNode) (maxDepth : option Num) (trace : list TraceEvent.t) :
  safeDepth maxDepth ->
  simulateRecursion ast maxDepth = Ok trace ->
  forall e, In e trace ->
    ForallOrdPairs (fun f g => frameArg g < frameArg f) (TraceEvent.fullStack e)
    /\ (TraceEvent.action e = pop ->
        Forall (fun f => frameArg (TraceEvent.frame e) < frameArg f)
          (TraceEvent.fullStack e)).
Proof.
  intros Hsafe H. apply simulateRecursion_Run in H.
  destruct H as [->|fs rf step _ _ _ Hstep|fs main _ _ _ _|fs _ _ _ _].
  - intros e [].
  - apply inferStep_operator in Hstep.
    assert (Hlt : forall a, 1 < a <= 2 ^ 53 -> nextArgument step a < a).
    { intros a. apply nextArgument_lt. rewrite Hstep. discriminate. }
    refine (Descent_invariant fs step (effectiveDepth maxDepth) rf
              (fun a _ stack =>
                 a <= 2 ^ 53
                 /\ ForallOrdPairs (fun f g => frameArg g < frameArg f) stack
                 /\ Forall (fun f => a < frameArg f) stack)
              _ _ _ _ _ _ _ (simulateCall_Descent _ _ _ _ _ _ _) _).
    + intros a d st func _ _ (_ & Hord & Hall). split; cbn.
      * split; [|discriminate]. now apply ForallOrdPairs_snoc.
      * split; [exact Hord|]. intros _. exact Hall.
    + intros a d st func _ _ Hrec (Ha & Hord & Hall).
      apply recursive_call_argument in Hrec.
      specialize (Hlt a (conj Hrec Ha)).
      split; [lia|]. split.
      * now apply ForallOrdPairs_snoc.
      * apply Forall_app. split.
        -- eapply Forall_impl; [|exact Hall]. cbn. intros f Hf. lia.
        -- constructor; [|constructor]. exact Hlt.
    + split; [apply (initialValue_safe _ Hsafe)|]. split; constructor.
  - intros e [<-|[<-|[]]]; cbn.
    + split; [|discriminate]. constructor; constructor.
    + split; [constructor|]. intros _. constructor.
  - intros e [].
Qed.

Lemma arguments_decrease_along_stack_witness :
  Forall (fun e =>
            ForallOrdPairs (fun f g => frameArg g < frameArg f)
              (TraceEvent.fullStack e))
    (match simulateRecursion halveAST (Some (Int 6)) with
     | Ok trace => trace
     | TypeError => []
     end).
Proof.
  apply Forall_forall. intros e He.
  refine (proj1 (arguments_decrease_along_stack halveAST (Some (Int 6)) _ _ _
                   e He)).
  - cbn. lia.
  - vm_compute. reflexivity.
Defined.

(** Beyond the exact range the arguments stop decreasing: started at 2^55,
    a function that goes down by 2 is pushed again and again with the same
    argument, until the stack is full. *)
Example arguments_beyond_exact_range :
  exists trace,
    simulateRecursion halveAST (Some (Int (2 ^ 55))) = Ok trace
    /\ length trace = 42%nat
    /\ Forall (fun e => frameArg (TraceEvent.frame e) = 2 ^ 55) trace.
Proof.
  eexists. split; [vm_compute; reflexivity|]. split; [reflexivity|].
  repeat constructor.
Qed.

(** ** How long a trace can be *)

Lemma length_countAction trace :
  length trace = (countAction push trace + countAction pop trace)%nat.
Proof.
  induction trace as [|e trace IH]; [reflexivity|].
  rewrite (countAction_cons push), (countAction_cons pop). cbn [length].
  rewrite IH. unfold countAction. cbn.
  destruct (TraceEvent.action e); cbn; lia.
Qed.

Lemma countAction_descent a funcName argValue frame newStack inner base stack :
  countAction a
    (pushEvent funcName argValue frame newStack
     :: inner ++ [popEvent funcName argValue frame base stack])
  = (countAction a inner + 1)%nat.
Proof.
  rewrite countAction_cons, countAction_app.
  destruct a; unfold countAction; cbn; lia.
Qed.

Lemma countAction_leaf a funcName argValue frame newStack base stack :
  countAction a
    [pushEvent funcName argValue frame newStack;
     popEvent funcName argValue frame base stack]
  = 1%nat.
Proof.
  apply (countAction_descent a funcName argValue frame newStack []).
Qed.

(** A descent pushes no more frames than the stack has room for. *)
Lemma Descent_pushes_room functions stepInfo maxDepth funcName argValue depth
  stack events :
  Descent functions stepInfo maxDepth funcName argValue depth stack events ->
  (countAction push events <= room stack)%nat.
Proof.
  induction 1 as [| | a d st func Hgo Hget Hrec
                 | a d st func inner Hgo Hget Hrec _ IH].
  - apply Nat.le_0_l.
  - apply Nat.le_0_l.
  - apply orb_false_iff in Hgo. destruct Hgo as [_ Hgo].
    apply Nat.ltb_ge in Hgo.
    rewrite countAction_leaf. unfold room. lia.
  - apply orb_false_iff in Hgo. destruct Hgo as [_ Hgo].
    apply Nat.ltb_ge in Hgo.
    rewrite countAction_descent.
    unfold room in *. rewrite length_app in IH. cbn [length] in IH. lia.
Qed.

(** Nor more than there are depths up to the bound. *)
Lemma Descent_pushes_depth functions stepInfo bound funcName argValue depth
  stack events :
  Descent functions stepInfo (Int bound) funcName argValue depth stack events ->
  Z.of_nat (countAction push events) <= Z.max 0 (bound + 1 - depth).
Proof.
  induction 1 as [| | a d st func Hgo Hget Hrec
                 | a d st func inner Hgo Hget Hrec _ IH].
  - cbn. lia.
  - cbn. lia.
  - apply orb_false_iff in Hgo. destruct Hgo as [Hgo _].
    apply Z.ltb_ge in Hgo.
    rewrite countAction_leaf. cbn. lia.
  - apply orb_false_iff in Hgo. destruct Hgo as [Hgo _].
    apply Z.ltb_ge in Hgo.
    rewrite countAction_descent. lia.
Qed.

(** X11. A trace has as many pop events as push events, so its length is
    twice the number of its pushes; it never has more than 42 events, and
    under a bound [d >= 0] never more than [2 * (d + 1)]. *)
Theorem trace_length_bounds
  (ast : ASTNode) (maxDepth : option Num) (trace : list TraceEvent.t) :
  simulateRecursion ast maxDepth = Ok trace ->
  length trace = (2 * countAction push trace)%nat
  /\ (length trace <= 42)%nat
  /\ (forall d, effectiveDepth maxDepth = Int d -> 0 <= d ->
        Z.of_nat (length trace) <= 2 * (d + 1)).
Proof.
  intros H. apply simulateRecursion_Run in H.
  assert (Hlen : length trace = (2 * countAction push trace)%nat).
  { rewrite length_countAction, (Balanced_count _ (Run_Balanced _ _ _ H)).
    lia. }
  split; [exact Hlen|]. rewrite Hlen.
  destruct H as [->|fs rf step _ _ _ _|fs main _ _ _ _|fs _ _ _ _].
  - change (countAction push []) with 0%nat.
    split; [lia|]. intros d _ Hd. lia.
  - split.
    + pose proof (Descent_pushes_room _ _ _ _ _ _ _ _
                    (simulateCall_Descent fs step (effectiveDepth maxDepth) rf
                       (initialValue (effectiveDepth maxDepth)) 0 [])) as Hr.
      unfold room in Hr. cbn [length] in Hr. lia.
    + intros d Hd Hpos.
      pose proof (simulateCall_Descent fs step (effectiveDepth maxDepth) rf
                    (initialValue (effectiveDepth maxDepth)) 0 []) as HD.
      rewrite Hd in HD. apply Descent_pushes_depth in HD.
      rewrite Hd. lia.
  - change (countAction push (mainFallback main)) with 1%nat.
    split; [lia|]. intros d _ Hd. lia.
  - change (countAction push []) with 0%nat.
    split; [lia|]. intros d _ Hd. lia.
Qed.

Lemma trace_length_bounds_witness :
  (length (match simulateRecursion factorialAST (Some (Int 30)) with
           | Ok trace => trace
           | TypeError => []
           end) <= 42)%nat.
Proof.
  refine (proj1 (proj2 (trace_length_bounds factorialAST (Some (Int 30)) _ _))).
  vm_compute. reflexivity.
Defined.

(** ** What the visualiser shows for a recursive function *)

Section Complete_descent.

Variable functions : Functions.
Variable stepInfo : StepRule.t.
Variable bound : Z.
Variable funcName : string.
Variable func : FunctionRecord.t.
Hypothesis Hget : Obj.get funcName functions = Some func.
Hypothesis Hrec : FunctionRecord.isRecursive func = true.
Hypothesis Hop : StepRule.operator stepInfo <> "+".
Hypothesis Hbound : bound <= 20.

(** Started at a depth that leaves room for its argument, a descent goes
    down to a base case. *)
Lemma Descent_reaches_base argValue depth stack events :
  Descent functions stepInfo (Int bound) funcName argValue depth stack events ->
  Z.of_nat (length stack) = depth ->
  depth <= bound ->
  (1 < argValue -> argValue + depth <= bound) ->
  (exists e, In e events /\ TraceEvent.action e = push
             /\ frameArg (TraceEvent.frame e) <= 1)
  /\ Z.of_nat (countAction push events) <= Z.max 1 argValue.
Proof.
  induction 1 as [a d st Hgo|a d st Hnone|a d st func' Hgo Hget' Hrec'
                 | a d st func' inner Hgo Hget' Hrec' _ IH];
    intros Hlen Hd Ha.
  - exfalso. apply orb_true_iff in Hgo. destruct Hgo as [Hgo|Hgo].
    + cbn in Hgo. apply Z.ltb_lt in Hgo. lia.
    + apply Nat.ltb_lt in Hgo. lia.
  - congruence.
  - assert (func' = func) by congruence. subst func'.
    rewrite Hrec in Hrec'. cbn in Hrec'. apply negb_false_iff in Hrec'.
    apply Z.leb_le in Hrec'. split.
    + eexists. split; [left; reflexivity|]. split; [reflexivity|]. exact Hrec'.
    + rewrite countAction_leaf. cbn. lia.
  - assert (func' = func) by congruence. subst func'.
    rewrite Hrec in Hrec'. cbn in Hrec'. apply negb_true_iff in Hrec'.
    apply Z.leb_gt in Hrec'.
    pose proof (nextArgument_lt stepInfo a Hop) as Hlt.
    destruct IH as [(e & He & Hpush & Harg) Hcount].
    + rewrite length_app. cbn. lia.
    + lia.
    + lia.
    + split.
      * exists e. split; [|auto]. right. apply in_or_app. now left.
      * rewrite countAction_descent. lia.
Qed.

End Complete_descent.

(** X12. When [getRecursiveInfo] reports a function, the trace the
    visualiser computes for its depth input is not empty, it descends to a
    base case (some push has an argument of at most 1, so the clamp to 20
    keeps the descent clear of both safety bounds), and it has at most two
    events for each unit of the clamped depth. *)
Theorem visualiser_reaches_base_case
  (ast : ASTNode) (input : DepthInput) (info : RecursiveInfo.t)
  (trace : list TraceEvent.t) :
  getRecursiveInfo ast = Ok (Some info) ->
  StackVisualizer_steps ast input = Ok trace ->
  trace <> []
  /\ (exists e, In e trace /\ TraceEvent.action e = push
                /\ frameArg (TraceEvent.frame e) <= 1)
  /\ Z.of_nat (length trace) <= 2 * clampDepth input.
Proof.
  intros Hinfo Hsim. rewrite StackVisualizer_steps_eq in Hsim.
  destruct (getRecursiveInfo_Some _ _ Hinfo)
    as (functions & func & Han & Hrf & Hget & Hrec & _ & _).
  destruct (simulateRecursion_descent _ _ _ _ _ Han Hrf Hsim)
    as (stepInfo & Hstep & _ & HD).
  pose proof (clampDepth_range input) as Hrange.
  cbn [effectiveDepth initialValue] in HD.
  rewrite parseIntOfNumber_small in HD by lia.
  assert (Hop : StepRule.operator stepInfo <> "+").
  { rewrite (inferStep_operator _ _ _ Hstep). discriminate. }
  destruct (Descent_reaches_base functions stepInfo (clampDepth input)
              (RecursiveInfo.name info) func Hget Hrec Hop (proj2 Hrange)
              _ _ _ _ HD)
    as [(e & He & Hpush & Harg) Hcount].
  - reflexivity.
  - lia.
  - lia.
  - split; [intros ->; destruct He|].
    split; [now exists e|].
    apply simulateRecursion_Run in Hsim.
    rewrite length_countAction, (Balanced_count _ (Run_Balanced _ _ _ Hsim)).
    lia.
Qed.

Lemma visualiser_reaches_base_case_witness :
  Z.of_nat (length (match StackVisualizer_steps factorialAST (Typed 50) with
                    | Ok trace => trace
                    | TypeError => []
                    end)) <= 40.
Proof.
  refine (proj2 (proj2 (visualiser_reaches_base_case factorialAST (Typed 50)
                          (RecursiveInfo.mk "factorial" ["n"] 3) _ _ _))).
  - vm_compute. reflexivity.
  - vm_compute. reflexivity.
Defined.

(** ** The complete descent by steps of 1 *)

Lemma nextArgument_default argValue :
  1 < argValue <= 2 ^ 53 ->
  nextArgument defaultStep argValue = argValue - 1.
Proof.
  intros Ha.
  rewrite (nextArgument_minus defaultStep argValue eq_refl Ha)
    by (cbn; lia).
  reflexivity.
Qed.

Lemma completeDescent_S funcName n :
  completeDescent funcName (S n)
  = (push, Some (ArgNumber (Z.of_nat (S n))), None)
    :: completeDescent funcName n
    ++ [(pop, Some (ArgNumber (Z.of_nat (S n))),
         Some (calculateReturn funcName (Z.of_nat (S n))))].
Proof.
  unfold completeDescent. cbn [countdown map rev app].
  now rewrite map_app, app_assoc.
Qed.

Section Default_descent.

Variable functions : Functions.
Variable bound : Z.
Variable funcName : string.
Variable func : FunctionRecord.t.
Hypothesis Hget : Obj.get funcName functions = Some func.
Hypothesis Hrec : FunctionRecord.isRecursive func = true.

Lemma simulateCall_countdown n :
  forall depth stack,
    Z.of_nat (length stack) = depth ->
    depth + Z.of_nat n <= bound ->
    depth + Z.of_nat n <= 20 ->
    map summary
      (simulateCall functions defaultStep (Int bound) funcName
         (Z.of_nat (S n)) depth stack [])
    = completeDescent funcName (S n).
Proof.
  induction n as [|n IH]; intros depth stack Hlen Hb Hs.
  - rewrite (simulateCall_base functions defaultStep (Int bound) funcName func
               Hget).
    + reflexivity.
    + apply orb_false_iff. split; [apply Z.ltb_ge|apply Nat.ltb_ge]; lia.
    + reflexivity.
  - rewrite (simulateCall_nested functions defaultStep (Int bound) funcName func
               Hget).
    + rewrite nextArgument_default by lia.
      replace (Z.of_nat (S (S n)) - 1) with (Z.of_nat (S n)) by lia.
      rewrite (completeDescent_S funcName (S n)).
      cbn [map]. rewrite map_app. rewrite IH.
      * reflexivity.
      * rewrite length_app. cbn [length]. lia.
      * lia.
      * lia.
    + apply orb_false_iff. split; [apply Z.ltb_ge|apply Nat.ltb_ge]; lia.
    + exact Hrec.
    + apply Z.leb_gt. lia.
Qed.

End Default_descent.

(** X13. When the step found for the selected function is the default one,
    subtract 1, a run with a bound [d] from 1 to 21 is the complete descent:
    pushes with the arguments d, d - 1, ..., 1, then pops with the arguments
    1, ..., d, each pop reporting the value of [calculateReturn] at its
    argument; nothing is cut off by either safety bound. *)
Theorem default_step_complete_descent
  (ast : ASTNode) (d : Z) (functions : Functions) (recursiveFunc : string)
  (trace : list TraceEvent.t) :
  analyse ast = Ok functions ->
  firstRecursive functions = Some recursiveFunc ->
  inferStep functions recursiveFunc = Ok defaultStep ->
  1 <= d <= 21 ->
  simulateRecursion ast (Some (Int d)) = Ok trace ->
  map summary trace = completeDescent recursiveFunc (Z.to_nat d).
Proof.
  intros Han Hrf Hstep Hd Hsim.
  destruct (simulateRecursion_descent _ _ _ _ _ Han Hrf Hsim)
    as (stepInfo & Hstep' & -> & _).
  assert (stepInfo = defaultStep) by congruence. subst stepInfo.
  destruct (firstRecursive_get _ _ Hrf) as (func & Hget & Hrec).
  cbn [effectiveDepth initialValue].
  rewrite parseIntOfNumber_small by lia.
  destruct (Z.to_nat d) as [|n] eqn:E; [lia|].
  replace d with (Z.of_nat (S n)) at 2 by lia.
  apply (simulateCall_countdown functions d recursiveFunc func Hget Hrec);
    cbn [length]; lia.
Qed.

Lemma default_step_complete_descent_witness :
  map summary
    (match simulateRecursion factorialAST (Some (Int 4)) with
     | Ok trace => trace
     | TypeError => []
     end)
  = completeDescent "factorial" 4.
Proof.
  refine (default_step_complete_descent factorialAST 4
            (match analyse factorialAST with Ok fs => fs | TypeError => [] end)
            "factorial" _ _ _ _ _ _).
  - vm_compute. reflexivity.
  - vm_compute. reflexivity.
  - vm_compute. reflexivity.
  - lia.
  - vm_compute. reflexivity.
Defined.

(** ** The recurrences behind the return values *)

Lemma calculateReturn_fibonacci funcName n :
  JS.includes "fib" (JS.toLowerCase funcName) = true ->
  0 <= n <= 78 ->
  calculateReturn funcName n = fibonacci (Z.to_nat n).
Proof.
  intros Hfib Hn. unfold calculateReturn. rewrite Hfib.
  destruct (n <=? 1) eqn:Hle.
  - apply Z.leb_le in Hle.
    assert (H : n = 0 \/ n = 1) by lia. now destruct H as [-> | ->].
  - apply Z.leb_gt in Hle. apply fibLoop_exact. lia.
Qed.

(** X14. As long as the values are exact, the reported return values obey
    the recurrences of the functions they stand for: under a name with "fib"
    in it the value at [n], from 2 to 78, is the sum of the values at
    [n - 1] and [n - 2], and under a name with "fact" (and no "fib") in it
    the value at [n], from 2 to 22, is [n] times the value at [n - 1]. *)
Theorem calculateReturn_recurrences (funcName : string) (n : Z) :
  2 <= n ->
  (JS.includes "fib" (JS.toLowerCase funcName) = true ->
   n <= 78 ->
   calculateReturn funcName n
   = calculateReturn funcName (n - 1) + calculateReturn funcName (n - 2))
  /\ (JS.includes "fib" (JS.toLowerCase funcName) = false ->
      JS.includes "factorial" (JS.toLowerCase funcName)
      || JS.includes "fact" (JS.toLowerCase funcName) = true ->
      n <= 22 ->
      calculateReturn funcName n = n * calculateReturn funcName (n - 1)).
Proof.
  intros Hn. split.
  - intros Hfib Hmax.
    rewrite !(calculateReturn_fibonacci funcName) by (assumption || lia).
    replace (Z.to_nat n) with (S (S (Z.to_nat (n - 2)))) by lia.
    replace (Z.to_nat (n - 1)) with (S (Z.to_nat (n - 2))) by lia.
    rewrite fibonacci_step. apply Z.add_comm.
  - intros Hfib Hfact Hmax. unfold calculateReturn. rewrite Hfib, Hfact.
    rewrite !factLoop_exact by lia.
    replace (Z.to_nat n) with (S (Z.to_nat (n - 1))) by lia.
    cbn [productTo]. rewrite Z.mul_comm. f_equal. lia.
Qed.

Lemma calculateReturn_recurrences_witness :
  calculateReturn "fibonacci" 10
  = calculateReturn "fibonacci" 9 + calculateReturn "fibonacci" 8
  /\ calculateReturn "fact" 6 = 6 * calculateReturn "fact" 5.
Proof.
  split.
  - refine (proj1 (calculateReturn_recurrences "fibonacci" 10 _) _ _).
    + lia.
    + reflexivity.
    + lia.
  - refine (proj2 (calculateReturn_recurrences "fact" 6 _) _ _ _).
    + lia.
    + reflexivity.
    + reflexivity.
    + lia.
Defined.

(** The recurrences end with the exact range: the value reported for the
    factorial of 23 is not 23 times the value reported for 22. *)
Example recurrence_beyond_exact_range :
  calculateReturn "fact" 23 <> 23 * calculateReturn "fact" 22.
Proof. vm_compute. discriminate. Qed.

(** ** The start-value field and the player *)








Lemma autoPlay_currentStep stepsLength s :
  Player.currentStep (autoPlay stepsLength s) = Player.currentStep s.
Proof.
  unfold autoPlay. now destruct (_ || _).
Qed.

(** What an event does to the index, in the state the effect has left. *)
Lemma handler_keeps_index stepsLength a s :
  0 <= Player.currentStep s <= Z.max 0 (stepsLength - 1) ->
  0 <= Player.currentStep (playerStep stepsLength a s)
    <= Z.max 0 (stepsLength - 1).
Proof.
  intros Hs. unfold playerStep. rewrite autoPlay_currentStep.
  rewrite <- (autoPlay_currentStep stepsLength s) in Hs.
  set (s0 := autoPlay stepsLength s) in *.
  destruct a;
    unfold handleStepForward, handleStepBack, handleReset, handlePlayPause,
      timerFires, timerArmed;
    repeat match goal with
           | |- context [if ?b then _ else _] => destruct b eqn:?
           end;
    cbn;
    repeat match goal with
           | H : _ && _ = true |- _ => apply andb_prop in H; destruct H
           | H : (_ <? _) = true |- _ => apply Z.ltb_lt in H
           | H : (_ <=? _) = false |- _ => apply Z.leb_gt in H
           end; lia.
Qed.

Lemma handler_keeps_index_nonnegative stepsLength a s :
  0 <= Player.currentStep s ->
  0 <= Player.currentStep (playerStep stepsLength a s).
Proof.
  intros Hs. unfold playerStep. rewrite autoPlay_currentStep.
  rewrite <- (autoPlay_currentStep stepsLength s) in Hs.
  set (s0 := autoPlay stepsLength s) in *.
  destruct a;
    unfold handleStepForward, handleStepBack, handleReset, handlePlayPause,
      timerFires, timerArmed;
    repeat match goal with
           | |- context [if ?b then _ else _] => destruct b eqn:?
           end;
    cbn;
    repeat match goal with
           | H : (_ <? _) = true |- _ => apply Z.ltb_lt in H
           end; lia.
Qed.

Lemma handlers_keep_index stepsLength ev s :
  onSteps stepsLength ev ->
  0 <= Player.currentStep s <= Z.max 0 (stepsLength - 1) ->
  0 <= Player.currentStep (uiStep s ev) <= Z.max 0 (stepsLength - 1).
Proof.
  intros Hev Hs.
  destruct ev as [l a|val|]; cbn in Hev; [subst l|..]; cbn [uiStep].
  - now apply handler_keeps_index.
  - unfold afterDepthEdit, onChange.
    repeat match goal with
           | |- context [if ?b then _ else _] => destruct b eqn:?
           | |- context [match JS.parseInt ?v with _ => _ end] =>
               destruct (JS.parseInt v)
           end; cbn; lia.
  - unfold afterDepthEdit.
    destruct (sameDepth _ _); cbn; lia.
Qed.

Lemma handlers_keep_index_nonnegative ev s :
  0 <= Player.currentStep s -> 0 <= Player.currentStep (uiStep s ev).
Proof.
  intros Hs.
  destruct ev as [l a|val|]; cbn [uiStep].
  - now apply handler_keeps_index_nonnegative.
  - unfold afterDepthEdit, onChange.
    repeat match goal with
           | |- context [if ?b then _ else _] => destruct b eqn:?
           | |- context [match JS.parseInt ?v with _ => _ end] =>
               destruct (JS.parseInt v)
           end; cbn; lia.
  - unfold afterDepthEdit.
    destruct (sameDepth _ _); cbn; lia.
Qed.

(** X16. Whatever the user does (stepping, resetting, playing, the timer,
    the speed, editing or leaving the start-value field) and however the
    list of steps changes in between, the step index never becomes negative;
    while the actions see steps of one length it also stays at most the last
    index (0 for an empty list). *)
Theorem player_index_stays_in_range
  (events : list UiEvent) (s : Player.t) :
  0 <= Player.currentStep s ->
  0 <= Player.currentStep (fold_left uiStep events s)
  /\ forall stepsLength,
       Forall (onSteps stepsLength) events ->
       Player.currentStep s <= Z.max 0 (stepsLength - 1) ->
       Player.currentStep (fold_left uiStep events s)
       <= Z.max 0 (stepsLength - 1).
Proof.
  revert s. induction events as [|ev events IH]; intros s Hs; cbn [fold_left].
  - split; [exact Hs|]. intros; assumption.
  - destruct (IH (uiStep s ev) (handlers_keep_index_nonnegative ev s Hs))
      as [H0 Hup].
    split; [exact H0|].
    intros stepsLength Hall Hle. inversion Hall as [|? ? Hev Hrest]; subst.
    apply Hup; [exact Hrest|].
    apply (handlers_keep_index stepsLength ev s Hev). lia.
Qed.

Lemma player_index_stays_in_range_witness :
  0 <= Player.currentStep
         (fold_left uiStep
            [Act 8 PlayPause; Act 8 TimerFires; Act 8 StepForward;
             Change "7"; Act 14 StepBack; Blur]
            initialPlayer).
Proof.
  refine (proj1 (player_index_stays_in_range _ initialPlayer _)).
  cbn. lia.
Defined.

Lemma nth_error_last {A : Type} (l : list A) (e d : A) :
  nth_error l (length l - 1) = Some e -> last l d = e.
Proof.
  induction l as [|x l IH]; [discriminate|].
  destruct l as [|y l].
  - cbn. now intros [= ->].
  - intros H. change (last (x :: y :: l) d) with (last (y :: l) d).
    apply IH. cbn [length] in *.
    replace (S (S (length l)) - 1)%nat with (S (length l)) in H by lia.
    replace (S (length l) - 1)%nat with (length l) by lia.
    exact H.
Qed.

(** X17. For a step index that is not negative the state shown is never
    undefined: it is the placeholder exactly when there are no steps, and
    otherwise the event at the index, or the last event when the index lies
    beyond the end (as it may after the program has changed). *)
Theorem currentState_defined (steps : list TraceEvent.t) (currentStep : Z) :
  0 <= currentStep ->
  match currentState steps currentStep with
  | Placeholder => steps = []
  | Event e =>
      nth_error steps (Z.to_nat currentStep) = Some e
      \/ (Z.of_nat (length steps) <= currentStep
          /\ forall d, last steps d = e)
  | Undefined => False
  end.
Proof.
  intros Hpos. unfold currentState.
  destruct steps as [|e0 rest]; [reflexivity|].
  set (steps := e0 :: rest).
  assert (Hlen : 0 < Z.of_nat (length steps)) by (cbn [steps length]; lia).
  cbv zeta.
  destruct (Z.min currentStep (Z.of_nat (length steps) - 1) <? 0) eqn:Hneg.
  { apply Z.ltb_lt in Hneg. lia. }
  destruct (nth_error steps
              (Z.to_nat (Z.min currentStep (Z.of_nat (length steps) - 1))))
    as [e|] eqn:Hnth.
  - destruct (Z_lt_ge_dec currentStep (Z.of_nat (length steps))) as [Hin|Hout].
    + left. rewrite <- Hnth. f_equal. lia.
    + right. split; [lia|]. intros d.
      replace (Z.to_nat (Z.min currentStep (Z.of_nat (length steps) - 1)))
        with (length steps - 1)%nat in Hnth by lia.
      apply (nth_error_last steps e d Hnth).
  - apply nth_error_None in Hnth. lia.
Qed.

Lemma currentState_defined_witness :
  currentState (mainFallback (FunctionRecord.mk "main" 10 [] mainDecl false []))
    5
  <> Undefined.
Proof.
  pose proof (currentState_defined
                (mainFallback (FunctionRecord.mk "main" 10 [] mainDecl false []))
                5) as H.
  intros E. rewrite E in H. apply H. lia.
Defined.

(** ** Arguments by depth *)

(** X18. The argument of a frame is fixed by its depth: when [maxDepth] is
    a double that holds its integer exactly (at most 2^53 in magnitude, or
    NaN) and so is the step value [v] found at the recursive call (at most
    2^53), every frame of every event, the event's own and those of its
    snapshot, holds the starting value less [v] times its depth, with 1 in
    place of a [v] that is not positive. *)
Theorem argument_fixed_by_depth
  (ast : ASTNode) (maxDepth : option Num) (functions : Functions)
  (recursiveFunc : string) (stepInfo : StepRule.t)
  (trace : list TraceEvent.t) :
  analyse ast = Ok functions ->
  firstRecursive functions = Some recursiveFunc ->
  inferStep functions recursiveFunc = Ok stepInfo ->
  safeDepth maxDepth ->
  StepRule.value stepInfo <= 2 ^ 53 ->
  simulateRecursion ast maxDepth = Ok trace ->
  forall e, In e trace ->
    forall f, In f (eventFrames e) ->
      frameArg f
      = initialValue (effectiveDepth maxDepth)
        - Frame.depth f * (if 0 <? StepRule.value stepInfo
                           then StepRule.value stepInfo
                           else 1).
Proof.
  intros Han Hrf Hstep Hsafe Hvalue Hsim.
  destruct (simulateRecursion_descent _ _ _ _ _ Han Hrf Hsim)
    as (stepInfo' & Hstep' & _ & HD).
  assert (stepInfo' = stepInfo) by congruence. subst stepInfo'.
  pose proof (nextArgument_minus stepInfo) as Hnext.
  specialize (fun a Ha => Hnext a (inferStep_operator _ _ _ Hstep) Ha Hvalue).
  destruct (initialValue_safe _ Hsafe) as [Hstart _].
  set (v := if 0 <? StepRule.value stepInfo then StepRule.value stepInfo else 1)
    in *.
  assert (Hv : 1 <= v).
  { unfold v. destruct (Z.ltb_spec 0 (StepRule.value stepInfo)); lia. }
  set (start := initialValue (effectiveDepth maxDepth)) in *.
  set (good := fun f : Frame.t => frameArg f = start - Frame.depth f * v).
  refine (Descent_invariant functions stepInfo (effectiveDepth maxDepth)
            recursiveFunc
            (fun a d stack =>
               a = start - d * v /\ a <= 2 ^ 53 /\ Forall good stack)
            _ _ _ _ _ _ _ HD _).
  - intros a d st func _ _ (Ha & _ & Hst).
    assert (Hnew : good (newFrame recursiveFunc func a d)) by exact Ha.
    split.
    + intros f [<-|Hf]; [exact Hnew|].
      cbn in Hf. apply in_app_or in Hf. destruct Hf as [Hf|[<-|[]]].
      * exact (proj1 (Forall_forall _ _) Hst f Hf).
      * exact Hnew.
    + intros f [<-|Hf]; [exact Hnew|].
      exact (proj1 (Forall_forall _ _) Hst f Hf).
  - intros a d st func _ _ Hrec (Ha & Hmax & Hst).
    apply recursive_call_argument in Hrec.
    rewrite (Hnext a (conj Hrec Hmax)).
    split; [lia|]. split; [lia|].
    apply Forall_snoc; [exact Hst|exact Ha].
  - split; [lia|]. split; [exact Hstart|constructor].
Qed.

Lemma argument_fixed_by_depth_witness :
  Forall (fun e =>
            Forall (fun f => frameArg f = 6 - Frame.depth f * 2)
              (eventFrames e))
    (match simulateRecursion halveAST (Some (Int 6)) with
     | Ok trace => trace
     | TypeError => []
     end).
Proof.
  apply Forall_forall. intros e He. apply Forall_forall.
  refine (argument_fixed_by_depth halveAST (Some (Int 6))
            (match analyse halveAST with Ok fs => fs | TypeError => [] end)
            "halve" (StepRule.mk "-" 2) _ _ _ _ _ _ _ e He).
  - vm_compute. reflexivity.
  - vm_compute. reflexivity.
  - vm_compute. reflexivity.
  - cbn. lia.
  - cbn. lia.
  - vm_compute. reflexivity.
Defined.
